(** * Westminster Confession parser: a shallow embedding of
      [parse-westminster.py] and the properties of its segmentation and
      normalisation logic.

    Strings are lists of 8-bit characters (the Latin-1 range of Python's
    [str]); the character classes below follow Python on that range.
    Regular expressions are kept as syntax and run by a backtracking
    matcher with greedy repetition, as Python's [re] does. *)

From Stdlib Require Import Ascii String DecimalString DecimalNat Decimal.
From Stdlib Require Import List Arith Lia Bool Sorted.
Import ListNotations.

Local Open Scope list_scope.
Local Open Scope bool_scope.

(* ================================================================== *)
(** ** Characters and strings *)

Abbreviation str := (list ascii) (only parsing).

(** String literals of the source, read as character lists. *)
Definition L (s : string) : str := list_ascii_of_string s.

(** [ord(c)] *)
Definition ord (c : ascii) : nat := nat_of_ascii c.

(** [str.isspace] on code points below 256; it is also what [\s] and
    [str.strip()] use. *)
Definition isspace (c : ascii) : bool :=
  let n := ord c in
  ((9 <=? n) && (n <=? 13)) || ((28 <=? n) && (n <=? 32))
  || (n =? 133) || (n =? 160).

(** [\d] on code points below 256. *)
Definition isdigit (c : ascii) : bool :=
  let n := ord c in (48 <=? n) && (n <=? 57).

(** The class [[IVX]]. *)
Definition is_IVX (c : ascii) : bool :=
  Ascii.eqb c "I" || Ascii.eqb c "V" || Ascii.eqb c "X".

(** The class [[^\]]]. *)
Definition not_rbracket (c : ascii) : bool := negb (Ascii.eqb c "]").

(** [str.lower] on one character (code points below 256). *)
Definition lower_char (c : ascii) : ascii :=
  let n := ord c in
  if ((65 <=? n) && (n <=? 90))
     || ((192 <=? n) && (n <=? 222) && negb (n =? 215))
  then ascii_of_nat (n + 32) else c.

(** [s.lower()] *)
Definition lower (s : str) : str := map lower_char s.

(** [a == b] *)
Definition str_eqb (a b : str) : bool :=
  if list_eq_dec ascii_dec a b then true else false.

(** [s.startswith(p)] *)
Fixpoint startswith (s p : str) {struct p} : bool :=
  match p with
  | [] => true
  | c :: p' =>
      match s with
      | [] => false
      | d :: s' => Ascii.eqb d c && startswith s' p'
      end
  end.

(** [needle in hay] *)
Fixpoint contains (needle hay : str) : bool :=
  startswith hay needle ||
  match hay with
  | [] => false
  | _ :: hay' => contains needle hay'
  end.

(** [s.lstrip()] *)
Fixpoint lstrip (s : str) : str :=
  match s with
  | c :: s' => if isspace c then lstrip s' else s
  | [] => []
  end.

(** [s.rstrip()] *)
Fixpoint rstrip (s : str) : str :=
  match s with
  | [] => []
  | c :: s' =>
      match rstrip s' with
      | [] => if isspace c then [] else [c]
      | t => c :: t
      end
  end.

(** [s.strip()] *)
Definition strip (s : str) : str := rstrip (lstrip s).

(** [sep.join(parts)] *)
Fixpoint join (sep : str) (parts : list str) : str :=
  match parts with
  | [] => []
  | [p] => p
  | p :: ps => p ++ sep ++ join sep ps
  end.

(** [str(n)] for a non-negative integer. *)
Definition str_of_nat (n : nat) : str :=
  L (NilZero.string_of_uint (Nat.to_uint n)).

(** [int(s)] on a decimal numeral. *)
Definition int_of_str (s : str) : option nat :=
  option_map Nat.of_uint (NilZero.uint_of_string (string_of_list_ascii s)).

(* ================================================================== *)
(** ** Regular expressions *)

Module Re.

(** The fragment of Python's pattern syntax the script uses.  Repetition
    [+] is only ever applied to a character class. *)
Inductive regex : Type :=
| Str (l : str)                   (* a run of literal characters *)
| Plus (p : ascii -> bool)        (* [cls+], greedy *)
| Cat (r1 r2 : regex)
| Alt (r1 r2 : regex)             (* [r1|r2], left alternative first *)
| Group (r : regex).              (* a capturing group *)

(** A match result: captured groups (in order) and the unread rest. *)
Definition result : Type := list str * str.

Definition consumed (s rest : str) : str :=
  firstn (length s - length rest) s.

(** Greedy [cls+] with backtracking: take as many characters as possible,
    give one back at a time while the continuation fails. *)
Fixpoint plus_greedy (p : ascii -> bool) (s : str)
    (k : str -> option result) : option result :=
  match s with
  | [] => None
  | c :: s' =>
      if p c then
        match plus_greedy p s' k with
        | Some r => Some r
        | None => k s'
        end
      else None
  end.

Fixpoint drop_prefix (l s : str) {struct l} : option str :=
  match l with
  | [] => Some s
  | c :: l' =>
      match s with
      | [] => None
      | d :: s' => if Ascii.eqb d c then drop_prefix l' s' else None
      end
  end.

Fixpoint rmatch (r : regex) (s : str) (gs : list str)
    (k : str -> list str -> option result) : option result :=
  match r with
  | Str l =>
      match drop_prefix l s with
      | Some s' => k s' gs
      | None => None
      end
  | Plus p => plus_greedy p s (fun s' => k s' gs)
  | Cat r1 r2 => rmatch r1 s gs (fun s' gs' => rmatch r2 s' gs' k)
  | Alt r1 r2 =>
      match rmatch r1 s gs k with
      | Some x => Some x
      | None => rmatch r2 s gs k
      end
  | Group r1 =>
      rmatch r1 s gs (fun s' gs' => k s' (gs' ++ [consumed s s']))
  end.

(** A match of [r] at the start of [s]. *)
Definition match_at (r : regex) (s : str) : option result :=
  rmatch r s [] (fun s' gs => Some (gs, s')).

(** [re.match(r, s)] used as a truth value.  A match is tried at position 0
    only, so the leading [^] of the source patterns adds nothing and is
    left out of the syntax. *)
Definition re_match (r : regex) (s : str) : bool :=
  match match_at r s with Some _ => true | None => false end.

(** Replacement templates: literal text and back-references [\n]. *)
Inductive titem : Type :=
| TLit (l : str)
| TGroup (n : nat).

Definition expand_item (gs : list str) (t : titem) : str :=
  match t with
  | TLit l => l
  | TGroup n => nth (n - 1) gs []
  end.

Definition expand (repl : list titem) (gs : list str) : str :=
  flat_map (expand_item gs) repl.

(** [re.sub(r, repl, s)]: leftmost non-overlapping matches, scanned left to
    right.  [skip] counts the characters of [s] that the last match still
    covers.  None of the script's patterns matches the empty string
    (see [sub_patterns_consume]), so that corner of [re.sub] is never
    reached. *)
Fixpoint sub_from (r : regex) (repl : list titem) (skip : nat) (s : str)
    : str :=
  match s with
  | [] => []
  | c :: s' =>
      match skip with
      | S n => sub_from r repl n s'
      | O =>
          match match_at r s with
          | Some (gs, rest) =>
              expand repl gs
                ++ sub_from r repl (length s - length rest - 1) s'
          | None => c :: sub_from r repl 0 s'
          end
      end
  end.

Definition re_sub (r : regex) (repl : list titem) (s : str) : str :=
  sub_from r repl 0 s.

(** [a|b|c|...] *)
Fixpoint alts (ws : list string) : regex :=
  match ws with
  | [] => Str [] (* unused: every alternation of the script is non-empty *)
  | [w] => Str (L w)
  | w :: ws' => Alt (Str (L w)) (alts ws')
  end.

End Re.
Import Re.

(* ================================================================== *)
(** ** The script *)

(** One entry of the [sections] list. *)
Record Section_ : Type := mkSection {
  chapter : str;
  title : str;
  content : str;
  topics : list str
}.

(** [chapter_keywords], in insertion order (the order in which a Python
    dict is iterated). *)
Definition chapter_keywords : list (str * list str) :=
  map (fun kv => (L (fst kv), map L (snd kv)))
  [ ("holy scripture", ["scripture"; "revelation"; "authority"; "word of god"]);
    ("god", ["god"; "trinity"; "attributes"]);
    ("eternal decree", ["predestination"; "election"; "sovereignty"; "decrees"]);
    ("creation", ["creation"; "providence"]);
    ("providence", ["providence"; "sovereignty"]);
    ("fall", ["sin"; "fall"; "adam"; "original sin"]);
    ("covenant", ["covenant"; "grace"; "works"]);
    ("christ", ["christ"; "mediator"; "jesus"; "incarnation"; "atonement"]);
    ("free will", ["free will"; "depravity"]);
    ("calling", ["calling"; "regeneration"; "holy spirit"]);
    ("justification", ["justification"; "faith"; "salvation"]);
    ("adoption", ["adoption"; "sonship"]);
    ("sanctification", ["sanctification"; "holiness"]);
    ("faith", ["faith"; "belief"]);
    ("repentance", ["repentance"]);
    ("good works", ["good works"; "obedience"]);
    ("perseverance", ["perseverance"; "assurance"]);
    ("assurance", ["assurance"; "salvation"]);
    ("law", ["law"; "ten commandments"; "moral law"]);
    ("liberty", ["liberty"; "conscience"; "freedom"]);
    ("worship", ["worship"; "sabbath"]);
    ("oath", ["oaths"; "vows"]);
    ("magistrate", ["civil government"; "authority"]);
    ("marriage", ["marriage"; "divorce"]);
    ("church", ["church"; "ecclesiology"]);
    ("communion", ["communion of saints"; "fellowship"]);
    ("sacrament", ["sacraments"; "ordinances"]);
    ("baptism", ["baptism"]);
    ("lord's supper", ["lord's supper"; "eucharist"; "communion"]);
    ("censure", ["church discipline"; "excommunication"]);
    ("synod", ["synods"; "councils"; "church government"]);
    ("death", ["death"; "resurrection"; "intermediate state"]);
    ("judgment", ["last judgment"; "final judgment"; "eschatology"])
  ]%string.

(** The loop of [get_topics] over an arbitrary table. *)
Definition scan_keywords (table : list (str * list str)) (title_lower : str)
    : list str :=
  fold_left
    (fun topics kv =>
       if contains (fst kv) title_lower then topics ++ snd kv else topics)
    table [].

(** [get_topics(title)] *)
Definition get_topics (title_ : str) : list str :=
  let title_lower := lower title_ in
  match scan_keywords chapter_keywords title_lower with
  | [] => [L "theology"]
  | topics_ => topics_
  end.

(** *** The patterns of the two cleaning functions *)

(** [\[\d+\.\d+\]] *)
Definition ref_re : regex :=
  Cat (Str (L "[")) (Cat (Plus isdigit) (Cat (Str (L "."))
    (Cat (Plus isdigit) (Str (L "]"))))).

(** [\[PCUS [^\]]+\] \[UPCUSA ([^\]]+)\]] *)
Definition content_pcus_upcusa_re : regex :=
  Cat (Str (L "[PCUS ")) (Cat (Plus not_rbracket)
    (Cat (Str (L "] [UPCUSA ")) (Cat (Group (Plus not_rbracket))
      (Str (L "]"))))).

(** [\[UPCUSA ([^\]]+)\] \[PCUS [^\]]+\]] *)
Definition content_upcusa_pcus_re : regex :=
  Cat (Str (L "[UPCUSA ")) (Cat (Group (Plus not_rbracket))
    (Cat (Str (L "] [PCUS ")) (Cat (Plus not_rbracket)
      (Str (L "]"))))).

(** [\[PCUS ([^\]]+)\] \[UPCUSA ([^\]]+)\]] *)
Definition title_pcus_upcusa_re : regex :=
  Cat (Str (L "[PCUS ")) (Cat (Group (Plus not_rbracket))
    (Cat (Str (L "] [UPCUSA ")) (Cat (Group (Plus not_rbracket))
      (Str (L "]"))))).

(** [\[UPCUSA ([^\]]+)\] \[PCUS ([^\]]+)\]] *)
Definition title_upcusa_pcus_re : regex :=
  Cat (Str (L "[UPCUSA ")) (Cat (Group (Plus not_rbracket))
    (Cat (Str (L "] [PCUS ")) (Cat (Group (Plus not_rbracket))
      (Str (L "]"))))).

(** [\[PCUS ([^\]]+)\]] *)
Definition pcus_re : regex :=
  Cat (Str (L "[PCUS ")) (Cat (Group (Plus not_rbracket)) (Str (L "]"))).

(** [\[UPCUSA ([^\]]+)\]] *)
Definition upcusa_re : regex :=
  Cat (Str (L "[UPCUSA ")) (Cat (Group (Plus not_rbracket)) (Str (L "]"))).

(** [\s+] *)
Definition spaces_re : regex := Plus isspace.

(** The four substitutions of [clean_title], before the final [strip]. *)
Definition title_subs (title_ : str) : str :=
  let t1 := re_sub title_pcus_upcusa_re [TGroup 2] title_ in
  let t2 := re_sub title_upcusa_pcus_re [TGroup 1] t1 in
  let t3 := re_sub pcus_re [TGroup 1] t2 in
  re_sub upcusa_re [TGroup 1] t3.

(** [clean_title(title)] *)
Definition clean_title (title_ : str) : str := strip (title_subs title_).

(** The reference-code removal of [clean_content]. *)
Definition strip_refs (text : str) : str := re_sub ref_re [] text.

(** The four variant substitutions of [clean_content]. *)
Definition content_variants (text : str) : str :=
  let t1 := re_sub content_pcus_upcusa_re [TGroup 1] text in
  let t2 := re_sub content_upcusa_pcus_re [TGroup 1] t1 in
  let t3 := re_sub pcus_re [TGroup 1] t2 in
  re_sub upcusa_re [TGroup 1] t3.

(** All the substitutions of [clean_content] on the joined text. *)
Definition content_subs (text : str) : str :=
  content_variants (strip_refs text).

(** Truth value of an optional string ([None] and [""] are false). *)
Definition truthy (t : option str) : bool :=
  match t with
  | Some (_ :: _) => true
  | _ => false
  end.

(** The [if title:] block of [clean_content]. *)
Definition drop_title (title_ : option str) (text : str) : str :=
  match title_ with
  | Some (c :: t) =>
      let clean_title_text := clean_title (c :: t) in
      if startswith text clean_title_text
      then strip (skipn (length clean_title_text) text)
      else text
  | _ => text
  end.

(** [clean_content(content_lines, title)] *)
Definition clean_content (content_lines : list str) (title_ : option str)
    : str :=
  let text := join (L " ") content_lines in
  let text := content_subs text in
  let text := drop_title title_ text in
  let text := re_sub spaces_re [TLit (L " ")] text in
  strip text.

(** *** The patterns of the main loop *)

(** [^CHAPTER [IVX]+ \(PCUS\)] *)
Definition header_re : regex :=
  Cat (Str (L "CHAPTER ")) (Cat (Plus is_IVX) (Str (L " (PCUS)"))).

(** [^[IVX]+ (Samuel|Kings|...)] *)
Definition numbered_book_re : regex :=
  Cat (Plus is_IVX) (Cat (Str (L " "))
    (Group (alts ["Samuel"; "Kings"; "Chronicles"; "Corinthians";
                  "Thessalonians"; "Timothy"; "Peter"; "John"]%string))).

(** [^(Genesis|Exodus|...)] *)
Definition book_re : regex :=
  Group (alts
    ["Genesis"; "Exodus"; "Leviticus"; "Numbers"; "Deuteronomy"; "Joshua";
     "Judges"; "Ruth"; "Samuel"; "Kings"; "Chronicles"; "Ezra"; "Nehemiah";
     "Esther"; "Job"; "Psalms"; "Proverbs"; "Ecclesiastes"; "Isaiah";
     "Jeremiah"; "Lamentations"; "Ezekiel"; "Daniel"; "Hosea"; "Joel";
     "Amos"; "Obadiah"; "Jonah"; "Micah"; "Nahum"; "Habakkuk"; "Zephaniah";
     "Haggai"; "Zechariah"; "Malachi"; "Matthew"; "Mark"; "Luke"; "John";
     "Acts"; "Romans"; "Corinthians"; "Galatians"; "Ephesians";
     "Philippians"; "Colossians"; "Thessalonians"; "Timothy"; "Titus";
     "Philemon"; "Hebrews"; "James"; "Peter"; "Jude"; "Revelation"]%string).

(** *** The state of the loop *)

Record state : Type := mkState {
  sections : list Section_;
  current_chapter : option nat;
  current_title : option str;
  current_content : list str;
  chapter_num : nat
}.

(** The state before the loop. *)
Definition init : state := mkState [] None None [] 0.

(** The section that the "save previous chapter" block appends, if any.
    The block is the same at a header and after the loop. *)
Definition emit (st : state) : list Section_ :=
  match current_chapter st, current_title st with
  | Some n, Some (c :: t') =>
      let t := c :: t' in
      let content_text := clean_content (current_content st) (Some t) in
      match content_text with
      | [] => []
      | _ :: _ =>
          [ mkSection (str_of_nat n) (clean_title t) content_text
                      (get_topics t) ]
      end
  | _, _ => []
  end.

(** [sections] after the block has run. *)
Definition save (st : state) : list Section_ := sections st ++ emit st.

(** The title lookahead: the body of [for j in range(i+1, min(i+10, len))],
    run over the lines it visits. *)
Fixpoint scan_title (title_parts : list str) (ls : list str) : list str :=
  match ls with
  | [] => title_parts
  | raw :: ls' =>
      let title_line := strip raw in
      if startswith title_line (L "Of ") then
        scan_title (title_parts ++ [title_line]) ls'
      else
        match title_parts, title_line with
        | _ :: _, _ :: _ =>
            if negb (startswith title_line (L "["))
            then scan_title (title_parts ++ [title_line]) ls'
            else title_parts                              (* break *)
        | _ :: _, [] => title_parts                       (* break *)
        | [], _ => scan_title title_parts ls'
        end
  end.

(** The title found after a header, given the lines that follow it. *)
Definition lookahead (rest : list str) : option str :=
  match scan_title [] (firstn 9 rest) with
  | [] => None
  | parts => Some (join (L " ") parts)
  end.

(** The chapter-header test. *)
Definition is_header (line : str) : bool := re_match header_re line.

(** The "skip empty lines and header lines" test. *)
Definition is_noise (line : str) (cur_title : option str) : bool :=
  match line with [] => true | _ :: _ => false end
  || startswith line (L "Presbyterian Church")
  || startswith line (L "in the United States")
  || startswith line (L "The United Presbyterian")
  || startswith line (L "CHAPTER")
  || startswith line (L "Of the Old Testament")
  || startswith line (L "Of the New Testament")
  || (startswith line (L "Of ") &&
      match cur_title with
      | Some t => str_eqb line t
      | None => false
      end).

(** The two book-list tests of the "collect content" block. *)
Definition is_book_list (line : str) : bool :=
  re_match numbered_book_re line || re_match book_re line.

(** One iteration of the [while] loop at line [raw], with [rest] the lines
    after it. *)
Definition step (st : state) (raw : str) (rest : list str) : state :=
  let line := strip raw in
  if is_header line then
    let n := S (chapter_num st) in
    mkState (save st) (Some n) (lookahead rest) [] n
  else if is_noise line (current_title st) then st
  else
    match current_chapter st with
    | Some _ =>
        if is_book_list line then st
        else mkState (sections st) (current_chapter st) (current_title st)
                     (current_content st ++ [line]) (chapter_num st)
    | None => st
    end.

(** The [while] loop over the lines still to read. *)
Fixpoint loop (st : state) (lines : list str) : state :=
  match lines with
  | [] => st
  | raw :: rest => loop (step st raw rest) rest
  end.

(** The [sections] list that [parse_westminster] builds from the lines of
    its input file. *)
Definition parse_westminster (lines : list str) : list Section_ :=
  save (loop init lines).

(** The states in which a chapter is closed: at every header and once after
    the loop. *)
Fixpoint save_points (st : state) (lines : list str) : list state :=
  match lines with
  | [] => [st]
  | raw :: rest =>
      (if is_header (strip raw) then [st] else [])
        ++ save_points (step st raw rest) rest
  end.

(** The number of lines detected as chapter headers. *)
Definition count_headers (lines : list str) : nat :=
  length (filter (fun raw => is_header (strip raw)) lines).

(* ================================================================== *)
(** ** Notions used in the statements and proofs *)

(** *** Brackets and blanks *)

(** No ['['] in [s]. *)
Definition no_open (s : str) : bool :=
  forallb (fun c => negb (Ascii.eqb c "[")) s.

(** No [']'] in [s]. *)
Definition no_close (s : str) : bool := forallb not_rbracket s.

(** Neither bracket in [s]. *)
Definition plain (s : str) : bool := no_open s && no_close s.

(** A variant text: non-empty and free of brackets. *)
Definition variant_text (s : str) : bool :=
  match s with [] => false | _ :: _ => plain s end.

(** Nothing but whitespace in [s]. *)
Definition all_space (s : str) : bool := forallb isspace s.

(** [Of ] is a prefix of [s]. *)
Definition starts_with_Of (s : str) : bool := startswith s (L "Of ").

(** *** Patterns: where they can match and what they read *)

(** The characters [cls+] may stop in front of. *)
Definition stops (p : ascii -> bool) (s : str) : Prop :=
  match s with [] => True | c :: _ => p c = false end.

(** A pattern that can only match at an opening bracket. *)
Definition bracket_led (r : regex) : Prop :=
  forall s, match s with "["%char :: _ => False | _ => True end ->
            match_at r s = None.

(** A pattern that reads at least one character whenever it matches. *)
Fixpoint consuming (r : regex) : bool :=
  match r with
  | Str l => match l with [] => false | _ :: _ => true end
  | Plus _ => true
  | Cat r1 r2 => consuming r1 || consuming r2
  | Alt r1 r2 => consuming r1 && consuming r2
  | Group r1 => consuming r1
  end.

(** [(cls+)] or [cls+]. *)
Definition seg (g : bool) : regex :=
  if g then Group (Plus not_rbracket) else Plus not_rbracket.

(** What [seg g] captures when it reads [x]. *)
Definition caps (g : bool) (x : str) : list str := if g then [x] else [].

(** [pre(cls+)\]] *)
Definition lone_form (pre : str) : regex :=
  Cat (Str pre) (Cat (seg true) (Str (L "]"))).

(** [pre cls+ mid cls+ \]] with either run captured or not. *)
Definition pair_form (pre mid : str) (g1 g2 : bool) : regex :=
  Cat (Str pre) (Cat (seg g1) (Cat (Str mid) (Cat (seg g2) (Str (L "]"))))).

(** *** Variant tags *)

(** [[PCUS x]] *)
Definition PCUS_tag (x : str) : str := L "[PCUS " ++ x ++ L "]".

(** [[UPCUSA y]] *)
Definition UPCUSA_tag (y : str) : str := L "[UPCUSA " ++ y ++ L "]".

(** [[PCUS x] [UPCUSA y]] *)
Definition pair_pcus_first (x y : str) : str :=
  PCUS_tag x ++ L " " ++ UPCUSA_tag y.

(** [[UPCUSA y] [PCUS x]] *)
Definition pair_upcusa_first (y x : str) : str :=
  UPCUSA_tag y ++ L " " ++ PCUS_tag x.

(** The last three steps of [clean_content]: title removal, whitespace
    collapsing, trimming. *)
Definition tidy (title_ : option str) (text : str) : str :=
  strip (re_sub spaces_re [TLit (L " ")] (drop_title title_ text)).

(** The two pair patterns, with either run captured or not: this covers
    the patterns of [clean_title] and of [clean_content]. *)
Definition PU_re (g1 g2 : bool) : regex :=
  pair_form (L "[PCUS ") (L "] [UPCUSA ") g1 g2.

(** The same for the order UPCUSA, PCUS. *)
Definition UP_re (g1 g2 : bool) : regex :=
  pair_form (L "[UPCUSA ") (L "] [PCUS ") g1 g2.

(** The four variant substitutions, in the order both functions apply
    them. *)
Definition resolve (g1 g2 : bool) (n : nat) (g3 g4 : bool) (m : nat)
    (s : str) : str :=
  re_sub upcusa_re [TGroup 1]
    (re_sub pcus_re [TGroup 1]
       (re_sub (UP_re g3 g4) [TGroup m]
          (re_sub (PU_re g1 g2) [TGroup n] s))).

(** [s] is cleaned, as a title and as content, the way [kept], which has
    no variant tag, is: only the reference codes of [kept] are still
    removed from content. *)
Definition cleaned_as (s kept : str) : Prop :=
  clean_title s = strip kept
  /\ forall content_lines title_,
       join (L " ") content_lines = s ->
       clean_content content_lines title_ = tidy title_ (strip_refs kept).

(** *** Reference codes *)

(** A non-empty run of digits. *)
Definition digits (d : str) : bool :=
  match d with [] => false | _ :: _ => forallb isdigit d end.

(** [[d1.d2]] *)
Definition ref_code (d1 d2 : str) : str :=
  L "[" ++ d1 ++ L "." ++ d2 ++ L "]".

(** *** The loop *)

(** A chapter is open. *)
Definition has_chapter (st : state) : bool :=
  match current_chapter st with Some _ => true | None => false end.

(** A closed chapter that yields no section. *)
Definition dropped (st : state) : bool :=
  has_chapter st &&
  (negb (truthy (current_title st)) ||
   match clean_content (current_content st) (current_title st) with
   | [] => true
   | _ :: _ => false
   end).

(** The chapter counter and the open chapter agree. *)
Definition chapter_ok (st : state) : Prop :=
  match current_chapter st with
  | None => chapter_num st = 0
  | Some k => k = chapter_num st /\ 1 <= k
  end.

(** A title, when there is one, begins with the lead-in word. *)
Definition title_ok (st : state) : Prop :=
  forall t, current_title st = Some t -> starts_with_Of t = true.

(** The chapter fields of a section list, read back as integers. *)
Definition chapter_numbers (secs : list Section_) : list (option nat) :=
  map (fun sec => int_of_str (chapter sec)) secs.

(** The topic lookup as the specification words it: the topics of every
    key phrase found in the lowered title, in table order, or the single
    fallback topic. *)
Definition topics_of_table (table : list (str * list str)) (title_ : str)
    : list str :=
  match flat_map snd
          (filter (fun kv => contains (fst kv) (lower title_)) table) with
  | [] => [L "theology"]
  | found => found
  end.

(** [raw] is not detected as a chapter header. *)
Definition not_header (raw : str) : bool := negb (is_header (strip raw)).

(** The lines the "collect content" block appends out of [ls] while a
    chapter with title [cur_title] is open. *)
Definition collected (cur_title : option str) (ls : list str) : list str :=
  flat_map
    (fun raw =>
       let line := strip raw in
       if is_noise line cur_title || is_book_list line then [] else [line])
    ls.

(** Two headers [h1] and [h2], none elsewhere; the first chapter has the
    title [t] and the single content line [c], the second finds no title. *)
Definition two_header_scenario (front : list str) (h1 : str)
    (body : list str) (h2 : str) (back : list str) (t c : str) : Prop :=
  forallb not_header front = true
  /\ forallb not_header body = true
  /\ forallb not_header back = true
  /\ is_header (strip h1) = true
  /\ is_header (strip h2) = true
  /\ lookahead (body ++ h2 :: back) = Some t
  /\ lookahead back = None
  /\ collected (Some t) body = [c].

(** *** Brackets that do not nest *)

(** Scanning [s] left to right, no ['['] is met inside a bracketed span. *)
Fixpoint flat_scan (inside : bool) (s : str) : bool :=
  match s with
  | [] => true
  | c :: s' =>
      if Ascii.eqb c "[" then
        if inside then false else flat_scan true s'
      else if Ascii.eqb c "]" then flat_scan false s'
      else flat_scan inside s'
  end.

(** The brackets of [s] do not nest. *)
Definition flat (s : str) : bool := flat_scan false s.

(** The same strings, built from plain characters, closed groups [[b]]
    whose bodies satisfy [ok], and at most one unclosed group at the end. *)
Inductive flat_with (ok : str -> Prop) : str -> Prop :=
| flat_nil : flat_with ok []
| flat_char (c : ascii) (s : str) :
    c <> "["%char -> flat_with ok s -> flat_with ok (c :: s)
| flat_group (b s : str) :
    plain b = true -> ok b -> flat_with ok s ->
    flat_with ok ("["%char :: b ++ "]"%char :: s)
| flat_open (b : str) :
    plain b = true -> flat_with ok ("["%char :: b).

(** The same, and every bracketed span is closed. *)
Fixpoint closed_scan (inside : bool) (s : str) : bool :=
  match s with
  | [] => negb inside
  | c :: s' =>
      if Ascii.eqb c "[" then
        if inside then false else closed_scan true s'
      else if Ascii.eqb c "]" then closed_scan false s'
      else closed_scan inside s'
  end.

(** The brackets of [s] do not nest and none is left open. *)
Definition closed (s : str) : bool := closed_scan false s.

(** Strings built from plain characters and closed groups only. *)
Inductive closed_with (ok : str -> Prop) : str -> Prop :=
| closed_nil : closed_with ok []
| closed_char (c : ascii) (s : str) :
    c <> "["%char -> closed_with ok s -> closed_with ok (c :: s)
| closed_group (b s : str) :
    plain b = true -> ok b -> closed_with ok s ->
    closed_with ok ("["%char :: b ++ "]"%char :: s).

(** Neither tag opener occurs in [s]. *)
Definition tagless (s : str) : bool :=
  negb (contains (L "[PCUS ") s) && negb (contains (L "[UPCUSA ") s).

(** What may stand in front of a variant tag: brackets that do not nest
    and are all closed, and no other variant tag. *)
Definition context_before (s : str) : bool := closed s && tagless s.

(** What may stand behind a variant tag: brackets that do not nest, and no
    other variant tag. *)
Definition context_after (s : str) : bool := flat s && tagless s.

(** [b] is the inside of a tag: [code] followed by a non-empty text. *)
Definition tag_body (code b : str) : Prop :=
  exists x, x <> [] /\ b = code ++ x.

(** No variant tag of either code. *)
Definition untagged (b : str) : Prop :=
  ~ tag_body (L "PCUS ") b /\ ~ tag_body (L "UPCUSA ") b.

(* ================================================================== *)
(** ** Further notions: the input as chapters *)

(** The input cut at its header lines: the lines in front of the first
    header, then every header line with the lines up to the next one. *)
Fixpoint split_chapters (lines : list str)
    : list str * list (str * list str) :=
  match lines with
  | [] => ([], [])
  | raw :: rest =>
      let (front, chapters) := split_chapters rest in
      if is_header (strip raw)
      then ([], (raw, front) :: chapters)
      else (raw :: front, chapters)
  end.

(** The lines of a list of chapters, in order. *)
Definition chapter_lines (chapters : list (str * list str)) : list str :=
  flat_map (fun ch => fst ch :: snd ch) chapters.

(** The section, if any, of the chapter numbered [k] whose own lines are
    [body] and which is followed by the lines [rest]: its title is looked up
    in the lines after its header, its content is what is collected from
    its own lines. *)
Definition chapter_section (k : nat) (body rest : list str)
    : list Section_ :=
  let t := lookahead (body ++ rest) in
  emit (mkState [] (Some k) t (collected t body) k).

(** The sections of a list of chapters, the first of which follows [k]
    earlier ones. *)
Fixpoint chapter_sections (k : nat) (chapters : list (str * list str))
    : list Section_ :=
  match chapters with
  | [] => []
  | (_, body) :: more =>
      chapter_section (S k) body (chapter_lines more)
        ++ chapter_sections (S k) more
  end.

(** *** Title lines *)

(** [raw] carries no lead-in word. *)
Definition no_lead_in (raw : str) : bool :=
  negb (startswith (strip raw) (L "Of ")).

(** [raw] continues a title that has begun: it starts with the lead-in
    word, or it is non-blank and does not start with a bracket. *)
Definition continues_title (raw : str) : bool :=
  let title_line := strip raw in
  startswith title_line (L "Of ")
  || (match title_line with [] => false | _ :: _ => true end
      && negb (startswith title_line (L "["))).

(** *** The book lists *)

(** The names in [numbered_book_re]. *)
Definition numbered_book_names : list string :=
  ["Samuel"; "Kings"; "Chronicles"; "Corinthians"; "Thessalonians";
   "Timothy"; "Peter"; "John"]%string.

(** The names in [book_re]. *)
Definition book_names : list string :=
  ["Genesis"; "Exodus"; "Leviticus"; "Numbers"; "Deuteronomy"; "Joshua";
   "Judges"; "Ruth"; "Samuel"; "Kings"; "Chronicles"; "Ezra"; "Nehemiah";
   "Esther"; "Job"; "Psalms"; "Proverbs"; "Ecclesiastes"; "Isaiah";
   "Jeremiah"; "Lamentations"; "Ezekiel"; "Daniel"; "Hosea"; "Joel";
   "Amos"; "Obadiah"; "Jonah"; "Micah"; "Nahum"; "Habakkuk"; "Zephaniah";
   "Haggai"; "Zechariah"; "Malachi"; "Matthew"; "Mark"; "Luke"; "John";
   "Acts"; "Romans"; "Corinthians"; "Galatians"; "Ephesians";
   "Philippians"; "Colossians"; "Thessalonians"; "Timothy"; "Titus";
   "Philemon"; "Hebrews"; "James"; "Peter"; "Jude"; "Revelation"]%string.

(** *** Topics *)

(** Every topic the table can give, and the fallback. *)
Definition topic_vocabulary : list str :=
  L "theology" :: flat_map snd chapter_keywords.

(** The topics of the key phrases that occur in the lowered title. *)
Definition found_topics (title_ : str) : list str :=
  flat_map snd
    (filter (fun kv => contains (fst kv) (lower title_)) chapter_keywords).

(** *** Normalised text *)

(** Every whitespace character of [s] is a blank that stands before a
    character that is not whitespace. *)
Fixpoint single_spaced (s : str) : bool :=
  match s with
  | [] => true
  | c :: s' =>
      (negb (isspace c)
       || (Ascii.eqb c " "
           && match s' with [] => true | d :: _ => negb (isspace d) end))
      && single_spaced s'
  end.

(** *** The document *)

(** [a < b] on characters is the order of their code points. *)
Definition char_compare (c d : ascii) : comparison :=
  Nat.compare (ord c) (ord d).

(** The order of [str]: lexicographic, a proper prefix first. *)
Definition str_compare (a b : str) : comparison :=
  list_compare char_compare a b.

(** [a < b] *)
Definition str_ltb (a b : str) : bool :=
  match str_compare a b with Lt => true | _ => false end.

Definition str_lt (a b : str) : Prop := str_compare a b = Lt.

(** [sorted(l)]: a stable sort by [<]; [x] goes in front of the first
    element that is not below it. *)
Fixpoint insert_sorted (x : str) (l : list str) : list str :=
  match l with
  | [] => [x]
  | y :: l' => if str_ltb y x then y :: insert_sorted x l' else x :: l
  end.

Definition sorted (l : list str) : list str := fold_right insert_sorted [] l.

(** The elements of the set [all_topics], each once, in the order of
    their first insertion. *)
Definition all_topics (secs : list Section_) : list str :=
  nodup (list_eq_dec ascii_dec) (flat_map topics secs).

(** [l] is a possible [list(all_topics)]: Python fixes no order for the
    elements of a set. *)
Definition topics_listing (secs : list Section_) (l : list str) : Prop :=
  NoDup l /\ forall x, In x l <-> In x (flat_map topics secs).

(** The dict [confession]. *)
Record Confession : Type := mkConfession {
  doc_title : str;
  doc_type : str;
  doc_date : str;
  doc_topics : list str;
  doc_sections : list Section_
}.

Definition confession (secs : list Section_) : Confession :=
  mkConfession (L "Westminster Confession of Faith") (L "confession")
               (L "1647") (sorted (all_topics secs)) secs.

(** The document built from the lines of the input file. *)
Definition document (lines : list str) : Confession :=
  confession (parse_westminster lines).

(** *** Words *)

(** The maximal runs of non-whitespace characters of [s], in order. *)
Fixpoint words (s : str) : list str :=
  match s with
  | [] => []
  | c :: s' =>
      if isspace c then words s'
      else
        match s' with
        | [] => [[c]]
        | d :: _ =>
            if isspace d then [c] :: words s'
            else
              match words s' with
              | w :: ws => (c :: w) :: ws
              | [] => [[c]]
              end
        end
  end.

(** [w] is a word: not empty, and without whitespace. *)
Definition is_word (w : str) : Prop :=
  w <> [] /\ forallb (fun c => negb (isspace c)) w = true.

(** *** Annotated strings *)

(** A variant annotation: an adjacent pair in either order, or a lone
    tag. *)
Inductive annotation : Type :=
| PairPU (x y : str)      (* [PCUS x] [UPCUSA y] *)
| PairUP (y x : str)      (* [UPCUSA y] [PCUS x] *)
| LoneP (x : str)         (* [PCUS x] *)
| LoneU (y : str).        (* [UPCUSA y] *)

(** The annotation as it is written. *)
Definition written (a : annotation) : str :=
  match a with
  | PairPU x y => pair_pcus_first x y
  | PairUP y x => pair_upcusa_first y x
  | LoneP x => PCUS_tag x
  | LoneU y => UPCUSA_tag y
  end.

(** The annotation as the policy resolves it: the UPCUSA text of a pair,
    the text of a lone tag. *)
Definition resolved (a : annotation) : str :=
  match a with
  | PairPU _ y => y
  | PairUP y _ => y
  | LoneP x => x
  | LoneU y => y
  end.

(** The texts of an annotation are variant texts. *)
Definition texts_ok (a : annotation) : bool :=
  match a with
  | PairPU x y => variant_text x && variant_text y
  | PairUP y x => variant_text y && variant_text x
  | LoneP x => variant_text x
  | LoneU y => variant_text y
  end.

(** The code of the first and of the last tag of an annotation. *)
Definition starts_upcusa (a : annotation) : bool :=
  match a with PairUP _ _ | LoneU _ => true | _ => false end.

Definition ends_upcusa (a : annotation) : bool :=
  match a with PairPU _ _ | LoneU _ => true | _ => false end.

(** A string with annotations: every annotation with the text in front of
    it, then the text after the last one; [f] says how an annotation is
    shown. *)
Fixpoint render (f : annotation -> str) (segs : list (str * annotation))
    (post : str) : str :=
  match segs with
  | [] => post
  | (t, a) :: more => t ++ f a ++ render f more post
  end.

(** The texts around the annotations hold no variant tag and no nested
    bracket (only the last one may leave a bracket open), and the texts of
    the annotations are variant texts. *)
Definition well_formed (segs : list (str * annotation)) (post : str) : bool :=
  forallb (fun ta => context_before (fst ta) && texts_ok (snd ta)) segs
  && context_after post.

(** A pair in the order PCUS, UPCUSA: the first substitution resolves
    these, before any other tag is looked at. *)
Definition pcus_first (a : annotation) : bool :=
  match a with PairPU _ _ => true | _ => false end.

(** Two annotations with the text [t] between them are not taken for a
    pair: [t] is not a single blank, or the tags on either side of it have
    the same code, or one of the two annotations is a pair in the order
    PCUS, UPCUSA. *)
Definition junction_ok (a : annotation) (t : str) (b : annotation) : bool :=
  negb (str_eqb t (L " "))
  || Bool.eqb (ends_upcusa a) (starts_upcusa b)
  || pcus_first a || pcus_first b.

(** A lone UPCUSA tag and a lone PCUS tag with nothing between them but a
    pair in the order PCUS, UPCUSA whose UPCUSA text is a single blank:
    once the pair is resolved, the two tags are one blank apart. *)
Definition bridge (a : annotation) (t1 : str) (b : annotation) (t2 : str)
    (c : annotation) : bool :=
  match a, b, c with
  | LoneU _, PairPU _ y, LoneP _ => str_eqb (t1 ++ y ++ t2) (L " ")
  | _, _, _ => false
  end.

(** The annotations are read the way the code pairs tags: every two
    neighbours pass [junction_ok], and no three form a [bridge]. *)
Fixpoint apart (segs : list (str * annotation)) : bool :=
  match segs with
  | [] => true
  | (_, a) :: more =>
      match more with
      | [] => true
      | (t1, b) :: more' =>
          junction_ok a t1 b
          && match more' with
             | [] => true
             | (t2, c) :: _ => negb (bridge a t1 b t2 c)
             end
          && apart more
      end
  end.

(** The annotated string once [clean_content] has removed the reference
    codes: they can only stand in the texts around the annotations. *)
Definition without_refs (segs : list (str * annotation))
    : list (str * annotation) :=
  map (fun ta => (strip_refs (fst ta), snd ta)) segs.

(** The annotations after each of the four substitutions. *)
Definition after_PU (a : annotation) : str :=
  match a with PairPU _ y => y | _ => written a end.

Definition after_UP (a : annotation) : str :=
  match a with PairPU _ y => y | PairUP y _ => y | _ => written a end.

Definition after_P (a : annotation) : str :=
  match a with LoneU y => UPCUSA_tag y | _ => resolved a end.

(** [well_formed], read as a property of the pieces. *)
Definition well_built (segs : list (str * annotation)) (post : str) : Prop :=
  Forall (fun ta => closed_with untagged (fst ta) /\ texts_ok (snd ta) = true)
         segs
  /\ flat_with untagged post.

(** [s] begins with a tag of [code]. *)
Definition head_tag (code s : str) : Prop :=
  exists z rest,
    z <> [] /\ no_close z = true
    /\ s = "["%char :: code ++ z ++ "]"%char :: rest.

(** [s] begins with one blank and a tag of [code]. *)
Definition lead_tag (code s : str) : Prop :=
  exists s', s = " "%char :: s' /\ head_tag code s'.

(* ================================================================== *)
(** ** Strings: basic facts *)

Section StringFacts.

Lemma startswith_app (p s : str) : startswith (p ++ s) p = true.
Proof.
  induction p as [|c p IH]; cbn [startswith app]; auto.
  now rewrite Ascii.eqb_refl, IH.
Qed.

Lemma startswith_split (s p : str) :
  startswith s p = true -> exists r, s = p ++ r.
Proof.
  revert s; induction p as [|c p IH]; intros s H; cbn [startswith app] in *.
  - now exists s.
  - destruct s as [|d s]; [discriminate|].
    apply andb_true_iff in H as [Hc Hp].
    apply Ascii.eqb_eq in Hc; subst d.
    destruct (IH _ Hp) as [r ->]. now exists r.
Qed.

Lemma lstrip_nonspace (c : ascii) (s : str) :
  isspace c = false -> lstrip (c :: s) = c :: s.
Proof. intros H; simpl; now rewrite H. Qed.

Lemma lstrip_head (s : str) :
  match lstrip s with [] => True | c :: _ => isspace c = false end.
Proof.
  induction s as [|c s IH]; simpl; auto.
  destruct (isspace c) eqn:E; auto.
Qed.

Lemma rstrip_nil_iff (s : str) : rstrip s = [] <-> all_space s = true.
Proof.
  induction s as [|c s IH]; cbn [rstrip all_space forallb]; [tauto|].
  fold (all_space s).
  destruct (rstrip s) as [|d t] eqn:E.
  - destruct IH as [IH _]. rewrite (IH eq_refl), andb_true_r.
    destruct (isspace c); split; congruence.
  - destruct (all_space s).
    + destruct IH as [_ IH]. discriminate (IH eq_refl).
    + rewrite andb_false_r. split; discriminate.
Qed.

Lemma rstrip_cons (c : ascii) (s : str) :
  rstrip (c :: s) =
  if all_space (c :: s) then [] else c :: rstrip s.
Proof.
  simpl. destruct (rstrip s) as [|d t] eqn:E.
  - assert (Hs : all_space s = true) by now apply rstrip_nil_iff.
    rewrite Hs, andb_true_r. now destruct (isspace c).
  - assert (Hs : all_space s = false).
    { destruct (all_space s) eqn:A; auto.
      apply rstrip_nil_iff in A. congruence. }
    now rewrite Hs, andb_false_r.
Qed.

Lemma rstrip_head (c : ascii) (s : str) :
  isspace c = false -> rstrip (c :: s) = c :: rstrip s.
Proof.
  intros H. rewrite rstrip_cons. simpl. now rewrite H.
Qed.

Lemma rstrip_idem (s : str) : rstrip (rstrip s) = rstrip s.
Proof.
  induction s as [|c s IH]; auto.
  rewrite rstrip_cons. destruct (all_space (c :: s)) eqn:A; auto.
  rewrite rstrip_cons.
  destruct (all_space (c :: rstrip s)) eqn:B.
  - simpl in A, B. apply andb_true_iff in B as [Bc Bs].
    rewrite Bc in A. simpl in A.
    assert (rstrip (rstrip s) = []) by now apply rstrip_nil_iff.
    rewrite IH in H. apply rstrip_nil_iff in H. congruence.
  - now rewrite IH.
Qed.

Lemma rstrip_lstrip_head (s : str) :
  match rstrip (lstrip s) with [] => True | c :: _ => isspace c = false end.
Proof.
  pose proof (lstrip_head s) as H.
  destruct (lstrip s) as [|c t]; [exact I|].
  rewrite (rstrip_head c t H). exact H.
Qed.

Lemma strip_idem (s : str) : strip (strip s) = strip s.
Proof.
  unfold strip. pose proof (rstrip_lstrip_head s) as H.
  destruct (rstrip (lstrip s)) as [|c t] eqn:E; auto.
  rewrite lstrip_nonspace by exact H. rewrite <- E. apply rstrip_idem.
Qed.

Lemma forallb_app_true {A} (f : A -> bool) (a b : list A) :
  forallb f (a ++ b) = true <-> forallb f a = true /\ forallb f b = true.
Proof. rewrite forallb_app. apply andb_true_iff. Qed.

End StringFacts.

(* ================================================================== *)
(** ** The matcher: how its pieces behave *)

Section MatcherFacts.

Lemma drop_prefix_app (l s : str) : drop_prefix l (l ++ s) = Some s.
Proof.
  induction l as [|c l IH]; cbn [drop_prefix app]; auto.
  now rewrite Ascii.eqb_refl.
Qed.

Lemma drop_prefix_Some (l s r : str) :
  drop_prefix l s = Some r -> s = l ++ r.
Proof.
  revert s; induction l as [|c l IH]; intros s H; cbn [drop_prefix app] in *.
  - congruence.
  - destruct s as [|d s]; [discriminate|].
    destruct (Ascii.eqb d c) eqn:E; [|discriminate].
    apply Ascii.eqb_eq in E; subst d. f_equal. now apply IH.
Qed.

Lemma consumed_app (x s : str) : consumed (x ++ s) s = x.
Proof.
  unfold consumed. rewrite length_app, Nat.add_sub.
  now rewrite firstn_app, Nat.sub_diag, firstn_all, app_nil_r.
Qed.

Lemma plus_greedy_stops_None (p : ascii -> bool) (s : str) k :
  stops p s -> plus_greedy p s k = None.
Proof. destruct s as [|c s]; simpl; auto. now intros ->. Qed.

(** Greedy: the longest run is offered to the continuation first. *)
Lemma plus_greedy_longest (p : ascii -> bool) (x s : str) k r :
  x <> [] -> forallb p x = true -> stops p s ->
  k s = Some r -> plus_greedy p (x ++ s) k = Some r.
Proof.
  intros Hx Hp Hs Hk. induction x as [|c x IH]; [congruence|].
  cbn [forallb] in Hp. apply andb_true_iff in Hp as [Hc Hp].
  cbn [app plus_greedy]. rewrite Hc.
  destruct x as [|d x].
  - cbn [app]. now rewrite (plus_greedy_stops_None p s k Hs).
  - rewrite IH; auto. discriminate.
Qed.

(** Whatever [cls+] returns, it comes from the continuation on a proper
    split of the input. *)
Lemma plus_greedy_Some (p : ascii -> bool) (s : str) k r :
  plus_greedy p s k = Some r ->
  exists x s', s = x ++ s' /\ x <> [] /\ forallb p x = true /\ k s' = Some r.
Proof.
  revert r; induction s as [|c s IH]; intros r H; cbn [plus_greedy] in H.
  - discriminate.
  - destruct (p c) eqn:Hc; [|discriminate].
    destruct (plus_greedy p s k) as [r'|] eqn:E.
    + destruct (IH _ eq_refl) as (x & s' & -> & Hx & Hp & Hk).
      exists (c :: x), s'. cbn [forallb]. rewrite Hc, Hp.
      repeat split; auto; congruence.
    + exists [c], s. cbn [forallb]. rewrite Hc.
      repeat split; auto; congruence.
Qed.

(** Two ways of cutting a string at its first [']'] agree. *)
Lemma first_close_unique (x y s t : str) :
  no_close x = true -> no_close y = true ->
  x ++ "]"%char :: s = y ++ "]"%char :: t -> x = y /\ s = t.
Proof.
  revert y; induction x as [|c x IH]; intros [|d y] Hx Hy E;
    cbn [app no_close forallb] in *.
  - now inversion E.
  - inversion E; subst d. discriminate.
  - inversion E; subst c. discriminate.
  - inversion E; subst d.
    apply andb_true_iff in Hx as [_ Hx]. apply andb_true_iff in Hy as [_ Hy].
    destruct (IH y Hx Hy H1) as [-> ->]. auto.
Qed.

(** *** Skipping over a match in [re.sub] *)

Lemma sub_from_skip (r : regex) repl (m rest : str) :
  sub_from r repl (length m) (m ++ rest) = sub_from r repl 0 rest.
Proof.
  induction m as [|c m IH]; cbn [length app sub_from]; auto.
Qed.

Lemma re_sub_miss (r : regex) repl (c : ascii) (s : str) :
  match_at r (c :: s) = None ->
  re_sub r repl (c :: s) = c :: re_sub r repl s.
Proof. intros H. unfold re_sub. cbn [sub_from]. now rewrite H. Qed.

Lemma re_sub_hit (r : regex) repl (m rest : str) gs :
  m <> [] -> match_at r (m ++ rest) = Some (gs, rest) ->
  re_sub r repl (m ++ rest) = expand repl gs ++ re_sub r repl rest.
Proof.
  intros Hm H. destruct m as [|c m]; [congruence|].
  unfold re_sub. cbn [app sub_from]. cbn [app] in H. rewrite H.
  f_equal. cbn [length]. rewrite length_app.
  replace (S (length m + length rest) - length rest - 1) with (length m)
    by lia.
  apply sub_from_skip.
Qed.

Lemma bracket_led_Cat (l : str) (r : regex) :
  bracket_led (Cat (Str ("["%char :: l)) r).
Proof.
  intros s Hs. unfold match_at. cbn [rmatch drop_prefix].
  destruct s as [|d s]; auto.
  destruct (Ascii.eqb d "[") eqn:E; auto.
  apply Ascii.eqb_eq in E. subst d. contradiction.
Qed.

Lemma re_sub_no_open (r : regex) repl (s : str) :
  bracket_led r -> no_open s = true -> re_sub r repl s = s.
Proof.
  intros Hr. induction s as [|c s IH]; intros H; auto.
  cbn [no_open forallb] in H. apply andb_true_iff in H as [Hc H].
  rewrite re_sub_miss.
  - f_equal. now apply IH.
  - apply Hr. destruct c as [[] [] [] [] [] [] [] []]; auto; discriminate.
Qed.

Lemma re_sub_no_open_app (r : regex) repl (pre s : str) :
  bracket_led r -> no_open pre = true ->
  re_sub r repl (pre ++ s) = pre ++ re_sub r repl s.
Proof.
  intros Hr. induction pre as [|c pre IH]; intros H; auto.
  cbn [no_open forallb] in H. apply andb_true_iff in H as [Hc H].
  cbn [app]. rewrite re_sub_miss.
  - f_equal. now apply IH.
  - apply Hr. destruct c as [[] [] [] [] [] [] [] []]; auto; discriminate.
Qed.

(** *** Matches are never empty *)

Lemma rmatch_reads (r : regex) :
  forall s gs k res,
    rmatch r s gs k = Some res ->
    exists s' gs',
      k s' gs' = Some res
      /\ length s' + (if consuming r then 1 else 0) <= length s.
Proof.
  induction r as [l|p|r1 IH1 r2 IH2|r1 IH1 r2 IH2|r1 IH1];
    intros s gs k res H; cbn [rmatch consuming] in *.
  - destruct (drop_prefix l s) as [s'|] eqn:E; [|discriminate].
    apply drop_prefix_Some in E. subst s. exists s', gs. split; auto.
    rewrite length_app. destruct l; cbn; lia.
  - apply plus_greedy_Some in H as (x & s' & -> & Hx & _ & Hk).
    exists s', gs. split; auto. rewrite length_app.
    destruct x; [congruence | cbn; lia].
  - apply IH1 in H as (s1 & gs1 & H & L1).
    apply IH2 in H as (s2 & gs2 & H & L2).
    exists s2, gs2. split; auto.
    destruct (consuming r1), (consuming r2); cbn in *; lia.
  - destruct (rmatch r1 s gs k) as [x|] eqn:E.
    + injection H as ->. apply IH1 in E as (s1 & gs1 & H & L1).
      exists s1, gs1. split; auto.
      destruct (consuming r1), (consuming r2); cbn in *; lia.
    + apply IH2 in H as (s2 & gs2 & H & L2).
      exists s2, gs2. split; auto.
      destruct (consuming r1), (consuming r2); cbn in *; lia.
  - apply IH1 in H as (s1 & gs1 & H & L1). eauto.
Qed.

Lemma match_at_reads (r : regex) (s rest : str) gs :
  consuming r = true -> match_at r s = Some (gs, rest) ->
  length rest < length s.
Proof.
  intros Hc H. apply rmatch_reads in H as (s' & gs' & E & Hl).
  injection E as _ ->. rewrite Hc in Hl. lia.
Qed.

(** The patterns handed to [re.sub] all read something when they match,
    so [re.sub] never meets an empty match. *)
Lemma sub_patterns_consume (r : regex) (s rest : str) gs :
  In r [ ref_re; content_pcus_upcusa_re; content_upcusa_pcus_re;
         title_pcus_upcusa_re; title_upcusa_pcus_re; pcus_re; upcusa_re;
         spaces_re ] ->
  match_at r s = Some (gs, rest) -> length rest < length s.
Proof.
  intros Hr. apply match_at_reads.
  cbn [In] in Hr.
  repeat (destruct Hr as [<-|Hr]; [reflexivity|]). contradiction.
Qed.

End MatcherFacts.

(* ================================================================== *)
(** ** The shapes of the variant patterns *)

Section Shapes.

Lemma pcus_re_form : pcus_re = lone_form (L "[PCUS ").
Proof. reflexivity. Qed.

Lemma upcusa_re_form : upcusa_re = lone_form (L "[UPCUSA ").
Proof. reflexivity. Qed.

Lemma title_pcus_upcusa_form :
  title_pcus_upcusa_re = pair_form (L "[PCUS ") (L "] [UPCUSA ") true true.
Proof. reflexivity. Qed.

Lemma title_upcusa_pcus_form :
  title_upcusa_pcus_re = pair_form (L "[UPCUSA ") (L "] [PCUS ") true true.
Proof. reflexivity. Qed.

Lemma content_pcus_upcusa_form :
  content_pcus_upcusa_re
  = pair_form (L "[PCUS ") (L "] [UPCUSA ") false true.
Proof. reflexivity. Qed.

Lemma content_upcusa_pcus_form :
  content_upcusa_pcus_re
  = pair_form (L "[UPCUSA ") (L "] [PCUS ") true false.
Proof. reflexivity. Qed.

Lemma str_Some (l s : str) gs k r :
  rmatch (Str l) s gs k = Some r <-> exists s', s = l ++ s' /\ k s' gs = Some r.
Proof.
  cbn [rmatch]. split.
  - destruct (drop_prefix l s) as [s'|] eqn:E; [|discriminate].
    intros H. exists s'. split; auto. now apply drop_prefix_Some.
  - intros (s' & -> & H). now rewrite drop_prefix_app.
Qed.

Lemma seg_Some (g : bool) (s : str) gs k r :
  rmatch (seg g) s gs k = Some r ->
  exists x s', s = x ++ s' /\ x <> [] /\ no_close x = true
               /\ k s' (gs ++ caps g x) = Some r.
Proof.
  destruct g; cbn [seg rmatch caps]; intros H;
    apply plus_greedy_Some in H as (x & s' & -> & Hx & Hp & Hk);
    exists x, s'; repeat split; auto.
  - now rewrite consumed_app in Hk.
  - now rewrite app_nil_r.
Qed.

Lemma seg_longest (g : bool) (x s : str) gs k r :
  x <> [] -> no_close x = true -> stops not_rbracket s ->
  k s (gs ++ caps g x) = Some r ->
  rmatch (seg g) (x ++ s) gs k = Some r.
Proof.
  intros Hx Hp Hs Hk.
  destruct g; cbn [seg rmatch caps] in *;
    apply plus_greedy_longest; auto.
  - now rewrite consumed_app.
  - now rewrite app_nil_r in Hk.
Qed.

(** What a lone-tag pattern matches, exactly. *)
Lemma lone_match (pre s rest : str) gs :
  match_at (lone_form pre) s = Some (gs, rest) <->
  exists x, s = pre ++ x ++ "]"%char :: rest
            /\ x <> [] /\ no_close x = true /\ gs = [x].
Proof.
  unfold match_at, lone_form. cbn [rmatch]. fold (rmatch (Str pre)).
  split.
  - intros H. change (rmatch (Str pre) s []
      (fun s' gs' => rmatch (seg true) s' gs'
         (fun s'' gs'' => rmatch (Str (L "]")) s'' gs''
            (fun s3 gs3 => Some (gs3, s3)))) = Some (gs, rest)) in H.
    apply str_Some in H as (s1 & -> & H).
    apply seg_Some in H as (x & s2 & -> & Hx & Hp & H).
    apply str_Some in H as (s3 & -> & H). inversion H; subst.
    exists x. repeat split; auto.
  - intros (x & -> & Hx & Hp & ->).
    change (rmatch (Str pre) (pre ++ x ++ "]"%char :: rest) []
      (fun s' gs' => rmatch (seg true) s' gs'
         (fun s'' gs'' => rmatch (Str (L "]")) s'' gs''
            (fun s3 gs3 => Some (gs3, s3)))) = Some ([x], rest)).
    apply str_Some. eexists; split; [reflexivity|].
    apply seg_longest; [assumption|assumption|cbn; reflexivity|].
    apply str_Some. exists rest. split; reflexivity.
Qed.

(** What a paired-tag pattern matches, exactly. *)
Lemma pair_match (pre mid s rest : str) (g1 g2 : bool) gs :
  match_at (pair_form pre ("]"%char :: mid) g1 g2) s = Some (gs, rest) <->
  exists x y, s = pre ++ x ++ "]"%char :: mid ++ y ++ "]"%char :: rest
              /\ x <> [] /\ no_close x = true
              /\ y <> [] /\ no_close y = true
              /\ gs = caps g1 x ++ caps g2 y.
Proof.
  unfold match_at, pair_form.
  change (rmatch (Str pre) s []
      (fun s1 gs1 => rmatch (seg g1) s1 gs1
         (fun s2 gs2 => rmatch (Str ("]"%char :: mid)) s2 gs2
            (fun s3 gs3 => rmatch (seg g2) s3 gs3
               (fun s4 gs4 => rmatch (Str (L "]")) s4 gs4
                  (fun s5 gs5 => Some (gs5, s5))))))
          = Some (gs, rest) <-> exists x y,
    s = pre ++ x ++ "]"%char :: mid ++ y ++ "]"%char :: rest
    /\ x <> [] /\ no_close x = true /\ y <> [] /\ no_close y = true
    /\ gs = caps g1 x ++ caps g2 y).
  split.
  - intros H.
    apply str_Some in H as (s1 & -> & H).
    apply seg_Some in H as (x & s2 & -> & Hx & Hp & H).
    apply str_Some in H as (s3 & -> & H).
    apply seg_Some in H as (y & s4 & -> & Hy & Hq & H).
    apply str_Some in H as (s5 & -> & H). inversion H; subst.
    exists x, y. repeat split; auto.
  - intros (x & y & -> & Hx & Hp & Hy & Hq & ->).
    apply str_Some. eexists; split; [reflexivity|].
    apply seg_longest; [assumption|assumption|cbn; reflexivity|].
    apply str_Some. eexists; split; [reflexivity|].
    apply seg_longest; [assumption|assumption|cbn; reflexivity|].
    apply str_Some. exists rest. split; reflexivity.
Qed.

Lemma lone_form_led (l : str) : bracket_led (lone_form ("["%char :: l)).
Proof. apply bracket_led_Cat. Qed.

Lemma pair_form_led (l mid : str) g1 g2 :
  bracket_led (pair_form ("["%char :: l) mid g1 g2).
Proof. apply bracket_led_Cat. Qed.

Lemma ref_re_led : bracket_led ref_re.
Proof. apply bracket_led_Cat. Qed.

(** One lone tag replaced by its text. *)
Lemma re_sub_lone_hit (pre x rest : str) :
  x <> [] -> no_close x = true ->
  re_sub (lone_form pre) [TGroup 1] (pre ++ x ++ "]"%char :: rest)
  = x ++ re_sub (lone_form pre) [TGroup 1] rest.
Proof.
  intros Hx Hp.
  pose proof (re_sub_hit (lone_form pre) [TGroup 1]
                (pre ++ x ++ ["]"%char]) rest [x]) as H.
  repeat rewrite <- app_assoc in H. cbn [app] in H.
  rewrite H.
  - cbn. now rewrite app_nil_r.
  - destruct pre, x; cbn; congruence.
  - apply lone_match. exists x. auto.
Qed.

(** One adjacent pair replaced by the text group [n] names. *)
Lemma re_sub_pair_hit (pre mid x y rest : str) (g1 g2 : bool) (n : nat) :
  x <> [] -> no_close x = true -> y <> [] -> no_close y = true ->
  re_sub (pair_form pre ("]"%char :: mid) g1 g2) [TGroup n]
         (pre ++ x ++ "]"%char :: mid ++ y ++ "]"%char :: rest)
  = nth (n - 1) (caps g1 x ++ caps g2 y) []
    ++ re_sub (pair_form pre ("]"%char :: mid) g1 g2) [TGroup n] rest.
Proof.
  intros Hx Hp Hy Hq.
  pose proof (re_sub_hit (pair_form pre ("]"%char :: mid) g1 g2) [TGroup n]
                (pre ++ x ++ "]"%char :: mid ++ y ++ ["]"%char]) rest
                (caps g1 x ++ caps g2 y)) as H.
  repeat (rewrite <- app_assoc in H; cbn [app] in H).
  rewrite H.
  - cbn [expand flat_map expand_item]. now rewrite app_nil_r.
  - destruct pre, x; cbn; congruence.
  - apply pair_match. exists x, y. auto 10.
Qed.

End Shapes.

(* ================================================================== *)
(** ** Variant tags in a bracket-free context *)

Section Tags.

Lemma variant_text_inv (x : str) :
  variant_text x = true ->
  x <> [] /\ no_open x = true /\ no_close x = true.
Proof.
  destruct x as [|c x]; [discriminate|]. unfold variant_text, plain.
  intros H. apply andb_true_iff in H as [H1 H2]. repeat split; auto.
  discriminate.
Qed.

Lemma no_open_app (a b : str) :
  no_open (a ++ b) = true <-> no_open a = true /\ no_open b = true.
Proof. apply forallb_app_true. Qed.

Lemma not_open_char (c : ascii) :
  negb (Ascii.eqb c "[") = true <-> c <> "["%char.
Proof.
  rewrite negb_true_iff. split.
  - intros H ->. now rewrite Ascii.eqb_refl in H.
  - intros H. destruct (Ascii.eqb c "[") eqn:E; auto.
    apply Ascii.eqb_eq in E. contradiction.
Qed.

Lemma match_at_prefix_miss (pre s : str) (r : regex) :
  drop_prefix pre s = None -> match_at (Cat (Str pre) r) s = None.
Proof. intros H. unfold match_at. cbn [rmatch]. now rewrite H. Qed.

Lemma ref_miss (c : ascii) (s : str) :
  isdigit c = false -> match_at ref_re ("["%char :: c :: s) = None.
Proof.
  intros H. unfold match_at, ref_re.
  cbn [rmatch L list_ascii_of_string drop_prefix plus_greedy].
  rewrite Ascii.eqb_refl. cbn [plus_greedy]. now rewrite H.
Qed.

Lemma tag_cat_PCUS (x post : str) :
  PCUS_tag x ++ post = L "[PCUS " ++ x ++ "]"%char :: post.
Proof. unfold PCUS_tag. now repeat rewrite <- app_assoc. Qed.

Lemma tag_cat_UPCUSA (y post : str) :
  UPCUSA_tag y ++ post = L "[UPCUSA " ++ y ++ "]"%char :: post.
Proof. unfold UPCUSA_tag. now repeat rewrite <- app_assoc. Qed.

End Tags.

(* ================================================================== *)
(** ** The loop: what a run is made of *)

Section LoopFacts.

Lemma step_header (st : state) (raw : str) (rest : list str) :
  is_header (strip raw) = true ->
  step st raw rest
  = mkState (save st) (Some (S (chapter_num st))) (lookahead rest) []
            (S (chapter_num st)).
Proof. intros H. unfold step. now rewrite H. Qed.

Lemma step_plain (st : state) (raw : str) (rest : list str) :
  is_header (strip raw) = false ->
  sections (step st raw rest) = sections st
  /\ current_chapter (step st raw rest) = current_chapter st
  /\ current_title (step st raw rest) = current_title st
  /\ chapter_num (step st raw rest) = chapter_num st.
Proof.
  intros H. unfold step. rewrite H.
  destruct (is_noise _ _); auto.
  destruct (current_chapter st) eqn:E; auto.
  destruct (is_book_list _); auto.
Qed.

(** The output is what the closing points emit, in order. *)
Lemma save_loop (lines : list str) (st : state) :
  save (loop st lines)
  = sections st ++ flat_map emit (save_points st lines).
Proof.
  revert st; induction lines as [|raw rest IH]; intros st.
  - cbn. now rewrite app_nil_r.
  - cbn [loop save_points]. rewrite IH.
    destruct (is_header (strip raw)) eqn:H.
    + rewrite step_header by auto. cbn [sections app flat_map].
      unfold save. now rewrite <- app_assoc.
    + destruct (step_plain st raw rest H) as (-> & _). reflexivity.
Qed.

Lemma parse_emits (lines : list str) :
  parse_westminster lines = flat_map emit (save_points init lines).
Proof. unfold parse_westminster. now rewrite save_loop. Qed.

(** A property kept by every iteration holds at every closing point. *)
Lemma save_points_Forall (P : state -> Prop) :
  (forall st raw rest, P st -> P (step st raw rest)) ->
  forall lines st, P st -> Forall P (save_points st lines).
Proof.
  intros Hstep. induction lines as [|raw rest IH]; intros st Hst.
  - cbn. auto.
  - cbn [save_points]. apply Forall_app. split.
    + destruct (is_header _); auto.
    + apply IH. now apply Hstep.
Qed.

Lemma startswith_app_l (p r l : str) :
  startswith p l = true -> startswith (p ++ r) l = true.
Proof.
  intros H. apply startswith_split in H as [q ->].
  rewrite <- app_assoc. apply startswith_app.
Qed.

Lemma join_head (p : str) (ps : list str) :
  starts_with_Of p = true -> starts_with_Of (join (L " ") (p :: ps)) = true.
Proof.
  intros H. destruct ps as [|q ps]; cbn [join]; auto.
  now apply startswith_app_l.
Qed.

Lemma scan_title_head (ls : list str) (acc : list str) :
  (forall p, hd_error acc = Some p -> starts_with_Of p = true) ->
  forall p, hd_error (scan_title acc ls) = Some p -> starts_with_Of p = true.
Proof.
  revert acc; induction ls as [|raw ls IH]; intros acc Hacc; cbn [scan_title].
  - exact Hacc.
  - destruct (startswith (strip raw) (L "Of ")) eqn:E.
    + apply IH. intros p. destruct acc as [|a acc]; cbn.
      * intros [= <-]. exact E.
      * intros [= <-]. apply Hacc. reflexivity.
    + destruct acc as [|a acc].
      * apply IH. exact Hacc.
      * destruct (strip raw) as [|c l]; auto.
        destruct (negb _); auto.
        apply IH. cbn. intros p [= <-]. apply Hacc. reflexivity.
Qed.

Lemma lookahead_Of (rest : list str) (t : str) :
  lookahead rest = Some t -> starts_with_Of t = true.
Proof.
  unfold lookahead. intros H.
  pose proof (scan_title_head (firstn 9 rest) []) as Hh.
  destruct (scan_title [] (firstn 9 rest)) as [|p ps]; [discriminate|].
  inversion H; subst. apply join_head. apply Hh; auto. discriminate.
Qed.

Lemma step_title_ok (st : state) raw rest :
  title_ok st -> title_ok (step st raw rest).
Proof.
  intros Hst. destruct (is_header (strip raw)) eqn:H.
  - rewrite step_header by auto. intros t. cbn. apply lookahead_Of.
  - destruct (step_plain st raw rest H) as (_ & _ & E & _).
    unfold title_ok. now rewrite E.
Qed.

Lemma step_chapter_ok (st : state) raw rest :
  chapter_ok st -> chapter_ok (step st raw rest).
Proof.
  intros Hst. destruct (is_header (strip raw)) eqn:H.
  - rewrite step_header by auto. cbn. split; auto. lia.
  - destruct (step_plain st raw rest H) as (_ & E1 & _ & E2).
    unfold chapter_ok. now rewrite E1, E2.
Qed.

Lemma init_title_ok : title_ok init.
Proof. intros t; discriminate. Qed.

Lemma init_chapter_ok : chapter_ok init.
Proof. reflexivity. Qed.

(** What [emit] returns, case by case. *)
Lemma emit_cases (st : state) :
  (dropped st = true \/ has_chapter st = false) /\ emit st = []
  \/ exists k t,
       current_chapter st = Some k /\ current_title st = Some t
       /\ t <> []
       /\ clean_content (current_content st) (Some t) <> []
       /\ dropped st = false
       /\ emit st = [ mkSection (str_of_nat k) (clean_title t)
                        (clean_content (current_content st) (Some t))
                        (get_topics t) ].
Proof.
  unfold emit, dropped, has_chapter.
  destruct (current_chapter st) as [k|]; [|left; auto].
  destruct (current_title st) as [[|c t]|]; cbn [truthy negb andb orb];
    [left; auto| |left; auto].
  cbv zeta.
  destruct (clean_content (current_content st) (Some (c :: t))) eqn:E.
  - left. auto.
  - right. exists k, (c :: t). repeat split; auto.
    + discriminate.
    + rewrite E. discriminate.
    + now rewrite E.
Qed.

Lemma in_parse (lines : list str) (sec : Section_) :
  In sec (parse_westminster lines) ->
  exists st k t,
    In st (save_points init lines)
    /\ current_chapter st = Some k /\ current_title st = Some t
    /\ clean_content (current_content st) (Some t) <> []
    /\ sec = mkSection (str_of_nat k) (clean_title t)
               (clean_content (current_content st) (Some t))
               (get_topics t).
Proof.
  rewrite parse_emits. intros H. apply in_flat_map in H as (st & Hst & H).
  destruct (emit_cases st) as [[_ E]|(k & t & Hk & Ht & _ & Hc & _ & E)];
    rewrite E in H; [contradiction|].
  destruct H as [<-|[]]. exists st, k, t. auto.
Qed.

End LoopFacts.

(* ================================================================== *)
(** ** Sections and their chapters *)

Section Chapters.

Lemma int_of_str_of_nat (k : nat) : int_of_str (str_of_nat k) = Some k.
Proof.
  unfold int_of_str, str_of_nat, L.
  rewrite string_of_list_ascii_of_string.
  rewrite NilZero.usu.
  - cbn. now rewrite DecimalNat.Unsigned.of_to.
  - intros E. pose proof (DecimalNat.Unsigned.of_to k) as H.
    rewrite E in H. cbn in H. subst k. discriminate.
Qed.

(** From any state on, the chapters emitted are the counter values at the
    closing points that emit: above the current counter (or at it, for the
    chapter now open), and increasing. *)
Lemma emitted_numbers (lines : list str) (st : state) :
  chapter_ok st ->
  exists ks,
    map chapter (flat_map emit (save_points st lines)) = map str_of_nat ks
    /\ StronglySorted lt ks
    /\ Forall (fun k => 1 <= k /\ chapter_num st <= k) ks.
Proof.
  revert st; induction lines as [|raw rest IH]; intros st Hst.
  - cbn [save_points flat_map]. rewrite app_nil_r.
    destruct (emit_cases st) as [[_ E]|(k & t & Hk & _ & _ & _ & _ & E)];
      rewrite E.
    + exists []. repeat split; constructor.
    + exists [k]. unfold chapter_ok in Hst. rewrite Hk in Hst.
      destruct Hst as [-> Hk1]. cbn.
      repeat split; repeat constructor; auto.
  - cbn [save_points]. rewrite flat_map_app.
    destruct (IH (step st raw rest) (step_chapter_ok _ _ _ Hst))
      as (ks & E & Hs & Hb).
    destruct (is_header (strip raw)) eqn:H.
    + rewrite step_header in Hb by auto. cbn [chapter_num] in Hb.
      cbn [flat_map]. rewrite app_nil_r.
      destruct (emit_cases st) as [[_ E0]|(k & t & Hk & _ & _ & _ & _ & E0)];
        rewrite E0.
      * exists ks. cbn [app]. repeat split; auto.
        eapply Forall_impl; [|exact Hb]. intros a [? ?]. split; lia.
      * unfold chapter_ok in Hst. rewrite Hk in Hst.
        destruct Hst as [-> Hk1].
        exists (chapter_num st :: ks).
        cbn [app map chapter]. rewrite E.
        repeat split.
        -- constructor; auto.
           eapply Forall_impl; [|exact Hb]. intros a [? ?]. lia.
        -- constructor; [lia|].
           eapply Forall_impl; [|exact Hb]. intros a [? ?]. lia.
    + destruct (step_plain st raw rest H) as (_ & _ & _ & E2).
      rewrite E2 in Hb. exists ks. cbn [flat_map app]. auto.
Qed.

Lemma chapter_numbers_of (secs : list Section_) (ks : list nat) :
  map chapter secs = map str_of_nat ks ->
  chapter_numbers secs = map Some ks.
Proof.
  revert ks; induction secs as [|sec secs IH]; intros [|k ks] E;
    try discriminate; auto.
  cbn in E. inversion E as [[E1 E2]]. cbn.
  rewrite E1, int_of_str_of_nat. f_equal. now apply IH.
Qed.

End Chapters.

(** C4: the chapter numbers of the emitted sections, read in order as
    integers, are strictly increasing and at least 1; they need not be
    contiguous: a header whose chapter is dropped still takes a number
    (the input shown yields chapters 1 and 3). *)
Theorem chapter_numbers_increase :
  (forall lines : list str,
     exists ks : list nat,
       chapter_numbers (parse_westminster lines) = map Some ks
       /\ map chapter (parse_westminster lines) = map str_of_nat ks
       /\ StronglySorted lt ks
       /\ Forall (le 1) ks)
  /\ map chapter
       (parse_westminster
          (map L [ "CHAPTER I (PCUS)"; "Of God"; ""; "God is one.";
                   "CHAPTER II (PCUS)";
                   "CHAPTER III (PCUS)"; "Of Creation"; "";
                   "God made all things." ]%string))
     = [L "1"; L "3"].
Proof.
  split; [|vm_compute; reflexivity].
  intros lines. rewrite parse_emits.
  destruct (emitted_numbers lines init init_chapter_ok) as (ks & E & Hs & Hb).
  exists ks. repeat split; auto.
  - now apply chapter_numbers_of.
  - eapply Forall_impl; [|exact Hb]. now intros a [? _].
Qed.

(* ================================================================== *)
(** ** Counting sections against headers *)

Section Counting.

Lemma dropped_iff (st : state) :
  dropped st = true <->
  current_chapter st <> None
  /\ (truthy (current_title st) = false
      \/ clean_content (current_content st) (current_title st) = []).
Proof.
  unfold dropped, has_chapter.
  destruct (current_chapter st) as [k|]; cbn [andb].
  - destruct (truthy (current_title st)); cbn [negb orb].
    + destruct (clean_content _ _); split.
      * intros _. split; [discriminate | now right].
      * reflexivity.
      * discriminate.
      * intros [_ [H|H]]; discriminate.
    + split; [intros _; split; [discriminate | now left] | reflexivity].
  - split; [discriminate | intros [H _]; congruence].
Qed.

Lemma emit_or_dropped (st : state) :
  length (emit st) + (if dropped st then 1 else 0)
  = if has_chapter st then 1 else 0.
Proof.
  destruct (emit_cases st)
    as [[[D|Hc] E]|(k & t & Hk & _ & _ & _ & D & E)]; rewrite E; cbn.
  - rewrite D. unfold dropped in D.
    apply andb_true_iff in D as [-> _]. reflexivity.
  - unfold dropped. rewrite Hc. reflexivity.
  - rewrite D. unfold has_chapter. now rewrite Hk.
Qed.

Lemma filter_cons_length {A} (f : A -> bool) (a : A) (l : list A) :
  length (filter f (a :: l)) = (if f a then 1 else 0) + length (filter f l).
Proof. cbn. now destruct (f a). Qed.

(** Every header opens one chapter, and every closed chapter is either
    emitted or dropped. *)
Lemma accounting (lines : list str) (st : state) :
  length (flat_map emit (save_points st lines))
  + length (filter dropped (save_points st lines))
  = count_headers lines + (if has_chapter st then 1 else 0).
Proof.
  revert st; induction lines as [|raw rest IH]; intros st.
  - cbn [save_points flat_map count_headers filter length].
    rewrite app_nil_r. pose proof (emit_or_dropped st).
    destruct (dropped st), (has_chapter st); cbn [length] in *; lia.
  - cbn [save_points]. unfold count_headers. cbn [filter].
    fold (count_headers rest).
    destruct (is_header (strip raw)) eqn:H.
    + cbn [app flat_map]. rewrite length_app, filter_cons_length.
      specialize (IH (step st raw rest)).
      rewrite step_header in IH by auto. rewrite step_header by auto.
      cbn [has_chapter current_chapter length] in *.
      pose proof (emit_or_dropped st). unfold count_headers in *.
      destruct (dropped st), (has_chapter st); lia.
    + cbn [app]. rewrite IH.
      destruct (step_plain st raw rest H) as (_ & E & _).
      unfold has_chapter. now rewrite E.
Qed.

Lemma filter_nonempty {A} (f : A -> bool) (l : list A) :
  0 < length (filter f l) <-> exists a, In a l /\ f a = true.
Proof.
  split.
  - destruct (filter f l) as [|a l'] eqn:E; cbn; [lia|]. intros _.
    exists a. apply filter_In. rewrite E. now left.
  - intros (a & Ha & Hf).
    assert (In a (filter f l)) by now apply filter_In.
    destruct (filter f l); [contradiction | cbn; lia].
Qed.

End Counting.

(** C5: there are never more sections than header lines, and there are
    fewer exactly when some chapter is closed (at the next header or at the
    end of the input) without a title or with empty normalised content. *)
Theorem sections_at_most_headers (lines : list str) :
  length (parse_westminster lines) <= count_headers lines
  /\ (length (parse_westminster lines) < count_headers lines <->
      exists st,
        In st (save_points init lines)
        /\ current_chapter st <> None
        /\ (truthy (current_title st) = false
            \/ clean_content (current_content st) (current_title st) = [])).
Proof.
  pose proof (accounting lines init) as A. rewrite <- parse_emits in A.
  cbn [has_chapter init current_chapter] in A.
  split; [lia|].
  split.
  - intros H.
    destruct (proj1 (filter_nonempty dropped (save_points init lines)))
      as (st & Hin & Hd); [lia|].
    exists st. split; auto. now apply dropped_iff.
  - intros (st & Hin & Hd).
    assert (0 < length (filter dropped (save_points init lines))).
    { apply filter_nonempty. exists st. split; auto. now apply dropped_iff. }
    lia.
Qed.

(** C6: every section of the output has non-empty content; the output is
    exactly what the closing points (each header, and the end of the input)
    emit, and a closing point whose chapter has no title or whose
    normalised content is empty emits nothing. *)
Theorem sections_have_content (lines : list str) :
  (forall sec, In sec (parse_westminster lines) -> content sec <> [])
  /\ parse_westminster lines = flat_map emit (save_points init lines)
  /\ (forall st,
        truthy (current_title st) = false
        \/ clean_content (current_content st) (current_title st) = [] ->
        emit st = []).
Proof.
  split; [|split].
  - intros sec H.
    apply in_parse in H as (st & k & t & _ & _ & _ & Hc & ->). exact Hc.
  - apply parse_emits.
  - intros st H.
    destruct (emit_cases st)
      as [[_ E]|(k & t & Hk & Ht & Hn & Hc & _ & _)]; auto.
    rewrite Ht in H. destruct H as [H|H]; [|contradiction].
    destruct t; [congruence | discriminate].
Qed.

(** C9: lines in front of the first header line leave no trace: the loop
    state after them is still the initial one (no chapter open, nothing
    accumulated), and the sections are those of the input with these lines
    removed. *)
Theorem front_matter_discarded (front rest : list str) :
  forallb (fun raw => negb (is_header (strip raw))) front = true ->
  loop init front = init
  /\ parse_westminster (front ++ rest) = parse_westminster rest.
Proof.
  intros H.
  assert (E : forall tail, loop init (front ++ tail) = loop init tail).
  { intros tail. induction front as [|raw front IH]; auto.
    cbn [forallb] in H. apply andb_true_iff in H as [Hr H].
    apply negb_true_iff in Hr.
    cbn [app loop].
    replace (step init raw (front ++ tail)) with init; auto.
    unfold step. rewrite Hr. now destruct (is_noise _ _). }
  split.
  - specialize (E []). now rewrite app_nil_r in E.
  - unfold parse_westminster. now rewrite E.
Qed.

Lemma front_matter_discarded_witness :
  loop init (map L ["Of Saints"; "The Confession"]%string) = init
  /\ parse_westminster
       (map L ["Of Saints"; "The Confession"]%string
          ++ map L ["CHAPTER I (PCUS)"; "Of God"; ""; "God is one."]%string)
     = parse_westminster
         (map L ["CHAPTER I (PCUS)"; "Of God"; ""; "God is one."]%string).
Proof.
  apply (front_matter_discarded
           (map L ["Of Saints"; "The Confession"]%string)).
  vm_compute. reflexivity.
Defined.

(* ================================================================== *)
(** ** Topics *)

Section Topics.

Lemma scan_keywords_acc (table : list (str * list str)) (low : str)
    (acc : list str) :
  fold_left
    (fun topics_ kv =>
       if contains (fst kv) low then topics_ ++ snd kv else topics_)
    table acc
  = acc ++ flat_map snd (filter (fun kv => contains (fst kv) low) table).
Proof.
  revert acc; induction table as [|kv table IH]; intros acc; cbn.
  - now rewrite app_nil_r.
  - rewrite IH. destruct (contains (fst kv) low); cbn; auto.
    now rewrite app_assoc.
Qed.

Lemma get_topics_table (title_ : str) :
  get_topics title_ = topics_of_table chapter_keywords title_.
Proof.
  unfold get_topics, topics_of_table, scan_keywords.
  now rewrite scan_keywords_acc.
Qed.

Lemma get_topics_fallback (title_ : str) :
  (forall kv, In kv chapter_keywords ->
              contains (fst kv) (lower title_) = false) ->
  get_topics title_ = [L "theology"].
Proof.
  intros H. rewrite get_topics_table. unfold topics_of_table.
  replace (filter (fun kv => contains (fst kv) (lower title_))
             chapter_keywords) with (@nil (str * list str)); auto.
  symmetry. induction chapter_keywords as [|kv table IH]; auto.
  cbn. rewrite H by now left. apply IH. intros kv' Hin. apply H. now right.
Qed.

End Topics.

(** C3, as stated, fails: the topics are looked up in the raw title, so a
    key phrase inside a discarded variant text still counts.  Here the
    resolved title [Of Man] holds no key phrase, yet the section's topics
    are those of [god], not the fallback. *)
Lemma topics_not_from_resolved_title :
  let secs :=
    parse_westminster
      (map L [ "CHAPTER I (PCUS)"; "Of [PCUS God] [UPCUSA Man]"; "";
               "Some text." ]%string) in
  map title secs = [L "Of Man"]
  /\ map topics secs = [[L "god"; L "trinity"; L "attributes"]]
  /\ get_topics (L "Of Man") = [L "theology"]
  /\ map topics secs <> map (fun sec => get_topics (title sec)) secs.
Proof.
  vm_compute. repeat split; discriminate.
Qed.

(** C3 (amended): the topics of every emitted section come from the raw
    (unresolved) title of its chapter, the one its resolved title is
    cleaned from: lowered, scanned for each key phrase of the table, the
    matched phrases' topics appended in table order (duplicates kept); and
    they are exactly [theology] when no key phrase occurs in the lowered
    raw title. *)
Theorem topics_from_raw_title (lines : list str) (sec : Section_) :
  In sec (parse_westminster lines) ->
  exists st raw,
    In st (save_points init lines)
    /\ current_title st = Some raw
    /\ title sec = clean_title raw
    /\ topics sec = get_topics raw
    /\ get_topics raw = topics_of_table chapter_keywords raw
    /\ ((forall kv, In kv chapter_keywords ->
                    contains (fst kv) (lower raw) = false) ->
        topics sec = [L "theology"]).
Proof.
  intros H. apply in_parse in H as (st & k & t & Hin & _ & Ht & _ & ->).
  exists st, t. cbn [title topics]. repeat split; auto.
  - apply get_topics_table.
  - apply get_topics_fallback.
Qed.

Lemma topics_from_raw_title_witness :
  exists st raw,
    In st (save_points init
             (map L [ "CHAPTER I (PCUS)"; "Of [PCUS God] [UPCUSA Man]"; "";
                      "Some text." ]%string))
    /\ current_title st = Some raw
    /\ L "Of Man" = clean_title raw
    /\ [L "god"; L "trinity"; L "attributes"] = get_topics raw
    /\ get_topics raw = topics_of_table chapter_keywords raw
    /\ ((forall kv, In kv chapter_keywords ->
                    contains (fst kv) (lower raw) = false) ->
        [L "god"; L "trinity"; L "attributes"] = [L "theology"]).
Proof.
  apply (topics_from_raw_title
           (map L [ "CHAPTER I (PCUS)"; "Of [PCUS God] [UPCUSA Man]"; "";
                    "Some text." ]%string)
           (mkSection (L "1") (L "Of Man") (L "Some text.")
                      [L "god"; L "trinity"; L "attributes"])).
  vm_compute. left. reflexivity.
Defined.

(* ================================================================== *)
(** ** Titles *)

Section Titles.

Lemma title_subs_Of (r : str) :
  title_subs (L "Of " ++ r) = L "Of " ++ title_subs r.
Proof.
  unfold title_subs.
  rewrite (re_sub_no_open_app title_pcus_upcusa_re);
    [|apply bracket_led_Cat|reflexivity].
  rewrite (re_sub_no_open_app title_upcusa_pcus_re);
    [|apply bracket_led_Cat|reflexivity].
  rewrite (re_sub_no_open_app pcus_re);
    [|apply bracket_led_Cat|reflexivity].
  rewrite (re_sub_no_open_app upcusa_re);
    [|apply bracket_led_Cat|reflexivity].
  reflexivity.
Qed.

Lemma strip_Of (u : str) :
  strip (L "Of " ++ u) = if all_space u then L "Of" else L "Of " ++ rstrip u.
Proof.
  unfold strip. cbn [L list_ascii_of_string app].
  rewrite lstrip_nonspace by reflexivity.
  rewrite !rstrip_head by reflexivity.
  rewrite rstrip_cons. cbn [all_space forallb].
  change (isspace " ") with true. cbn [andb].
  fold (all_space u). now destruct (all_space u).
Qed.

Lemma clean_title_Of (t : str) :
  starts_with_Of t = true ->
  clean_title t = L "Of" \/ starts_with_Of (clean_title t) = true.
Proof.
  intros H. apply startswith_split in H as [r ->].
  unfold clean_title. rewrite title_subs_Of, strip_Of.
  destruct (all_space (title_subs r));
    [left; reflexivity | right; apply startswith_app].
Qed.

End Titles.

(** C10, as stated, fails: when everything after the lead-in word resolves
    to whitespace, the final trim removes the blank of [Of ] too. *)
Lemma title_may_lose_blank :
  let secs :=
    parse_westminster
      (map L ["CHAPTER I (PCUS)"; "Of [PCUS  ]"; ""; "Text."]%string) in
  map title secs = [L "Of"]
  /\ forallb (fun sec => starts_with_Of (title sec)) secs = false.
Proof. vm_compute. split; reflexivity. Qed.

(** C10 (amended): every emitted section's title either starts with the
    lead-in [Of ] or is exactly [Of] (everything after the lead-in resolved
    to whitespace and was trimmed together with the blank). *)
Theorem titles_start_with_Of (lines : list str) (sec : Section_) :
  In sec (parse_westminster lines) ->
  title sec = L "Of" \/ starts_with_Of (title sec) = true.
Proof.
  intros H. apply in_parse in H as (st & k & t & Hin & _ & Ht & _ & ->).
  cbn [title]. apply clean_title_Of.
  pose proof (save_points_Forall title_ok step_title_ok lines init
                init_title_ok) as F.
  rewrite Forall_forall in F. now apply (F st Hin).
Qed.

Lemma titles_start_with_Of_witness :
  L "Of God" = L "Of" \/ starts_with_Of (L "Of God") = true.
Proof.
  apply (titles_start_with_Of
           (map L ["CHAPTER I (PCUS)"; "Of God"; ""; "God is one."]%string)
           (mkSection (L "1") (L "Of God") (L "God is one.")
                      [L "god"; L "trinity"; L "attributes"])).
  vm_compute. left. reflexivity.
Defined.

(* ================================================================== *)
(** ** Reference codes *)

Section ReferenceCodes.

Lemma digits_inv (d : str) :
  digits d = true -> d <> [] /\ forallb isdigit d = true.
Proof. destruct d; [discriminate|]. intros H. split; [discriminate|auto]. Qed.

Lemma ref_code_cat (d1 d2 post : str) :
  ref_code d1 d2 ++ post
  = "["%char :: d1 ++ "."%char :: d2 ++ "]"%char :: post.
Proof. unfold ref_code. cbn. now repeat (rewrite <- app_assoc; cbn). Qed.

Lemma ref_match (d1 d2 post : str) :
  digits d1 = true -> digits d2 = true ->
  match_at ref_re (ref_code d1 d2 ++ post) = Some ([], post).
Proof.
  intros H1 H2.
  apply digits_inv in H1 as [N1 D1]. apply digits_inv in H2 as [N2 D2].
  rewrite ref_code_cat. unfold match_at, ref_re.
  cbn [rmatch L list_ascii_of_string drop_prefix].
  rewrite Ascii.eqb_refl.
  apply (plus_greedy_longest isdigit d1
           ("."%char :: d2 ++ "]"%char :: post));
    [exact N1 | exact D1 | reflexivity |].
  cbn [drop_prefix]. rewrite Ascii.eqb_refl.
  apply (plus_greedy_longest isdigit d2 ("]"%char :: post));
    [exact N2 | exact D2 | reflexivity |].
  cbn [drop_prefix]. now rewrite Ascii.eqb_refl.
Qed.

Lemma ref_code_removed (pre post d1 d2 : str) :
  no_open pre = true -> digits d1 = true -> digits d2 = true ->
  re_sub ref_re [] (pre ++ ref_code d1 d2 ++ post)
  = re_sub ref_re [] (pre ++ post).
Proof.
  intros Hpre H1 H2.
  rewrite !(re_sub_no_open_app ref_re [] pre) by (auto using ref_re_led).
  f_equal.
  rewrite (re_sub_hit ref_re [] (ref_code d1 d2) post []).
  - reflexivity.
  - unfold ref_code. cbn. discriminate.
  - now apply ref_match.
Qed.

(** What the reference-code pattern matches, exactly. *)
Lemma ref_match_inv (s rest : str) gs :
  match_at ref_re s = Some (gs, rest) ->
  exists d1 d2,
    digits d1 = true /\ digits d2 = true
    /\ s = ref_code d1 d2 ++ rest /\ gs = [].
Proof.
  unfold match_at, ref_re. intros H.
  change (rmatch (Str (L "[")) s []
            (fun s1 gs1 => plus_greedy isdigit s1
               (fun s2 => rmatch (Str (L ".")) s2 gs1
                  (fun s3 gs3 => plus_greedy isdigit s3
                     (fun s4 => rmatch (Str (L "]")) s4 gs3
                        (fun s5 gs5 => Some (gs5, s5))))))
          = Some (gs, rest)) in H.
  apply str_Some in H as (s1 & -> & H).
  apply plus_greedy_Some in H as (d1 & s2 & -> & N1 & D1 & H).
  apply str_Some in H as (s3 & -> & H).
  apply plus_greedy_Some in H as (d2 & s4 & -> & N2 & D2 & H).
  apply str_Some in H as (s5 & -> & H). injection H as <- <-.
  exists d1, d2. repeat split.
  - destruct d1; [congruence | exact D1].
  - destruct d2; [congruence | exact D2].
  - rewrite ref_code_cat. cbn. now repeat (rewrite <- app_assoc; cbn).
Qed.

Lemma digits_no_open (d : str) : forallb isdigit d = true -> no_open d = true.
Proof.
  induction d as [|c d IH]; auto. cbn [forallb no_open]. intros H.
  apply andb_true_iff in H as [Hc H]. fold (no_open d). rewrite IH by auto.
  rewrite andb_true_r. apply not_open_char. intros ->. discriminate.
Qed.

(** Past its opening bracket a reference code holds no other one. *)
Lemma ref_code_inside (d1 d2 : str) :
  digits d1 = true -> digits d2 = true ->
  exists m, ref_code d1 d2 = "["%char :: m /\ no_open m = true.
Proof.
  intros H1 H2. apply digits_inv in H1 as [_ D1].
  apply digits_inv in H2 as [_ D2].
  exists (d1 ++ L "." ++ d2 ++ L "]"). split; [reflexivity|].
  apply no_open_app; split; [now apply digits_no_open|].
  apply no_open_app; split; [reflexivity|].
  apply no_open_app; split; [now apply digits_no_open | reflexivity].
Qed.

Lemma app_split_no_open (m r1 p r2 : str) :
  no_open m = true -> m ++ r1 = p ++ "["%char :: r2 ->
  exists p', p = m ++ p' /\ r1 = p' ++ "["%char :: r2.
Proof.
  revert p; induction m as [|a m IH]; intros p Hm E.
  - exists p. auto.
  - cbn [no_open forallb] in Hm. apply andb_true_iff in Hm as [Ha Hm].
    apply not_open_char in Ha.
    destruct p as [|c p]; cbn [app] in E; injection E as -> E.
    + congruence.
    + destruct (IH p Hm E) as (p' & -> & ->). now exists p'.
Qed.

(** A reference code never reaches across an opening bracket: the text on
    either side of one is stripped on its own. *)
Lemma strip_refs_local_len (n : nat) (pre rest : str) :
  length pre <= n ->
  strip_refs (pre ++ "["%char :: rest)
  = strip_refs pre ++ strip_refs ("["%char :: rest).
Proof.
  unfold strip_refs.
  revert pre; induction n as [|n IH]; intros pre Hl.
  - destruct pre; [reflexivity | cbn in Hl; lia].
  - destruct pre as [|c pre]; [reflexivity|]. cbn [length] in Hl.
    destruct (match_at ref_re ((c :: pre) ++ "["%char :: rest))
      as [[gs rest']|] eqn:E.
    + apply ref_match_inv in E as (d1 & d2 & H1 & H2 & E & ->).
      destruct (ref_code_inside d1 d2 H1 H2) as (m & Em & Hm).
      rewrite Em in E. cbn [app] in E. injection E as -> E.
      symmetry in E.
      destruct (app_split_no_open m rest' pre rest Hm E) as (p' & -> & ->).
      change ("["%char :: m ++ p') with (("["%char :: m) ++ p').
      rewrite <- Em, <- !app_assoc.
      rewrite (re_sub_hit ref_re [] (ref_code d1 d2) _ []);
        [|rewrite Em; discriminate|now apply ref_match].
      rewrite (re_sub_hit ref_re [] (ref_code d1 d2) p' []);
        [|rewrite Em; discriminate|now apply ref_match].
      cbn [expand flat_map app]. apply IH.
      rewrite length_app in Hl. lia.
    + cbn [app] in *. rewrite re_sub_miss by exact E.
      rewrite IH by lia.
      rewrite (re_sub_miss ref_re [] c pre); [reflexivity|].
      destruct (match_at ref_re (c :: pre)) as [[gs r]|] eqn:E'; auto.
      apply ref_match_inv in E' as (d1 & d2 & H1 & H2 & E' & ->).
      change (c :: pre ++ "["%char :: rest)
        with ((c :: pre) ++ "["%char :: rest) in E.
      rewrite E', <- app_assoc, ref_match in E by auto. discriminate.
Qed.

Lemma strip_refs_code (pre post d1 d2 : str) :
  digits d1 = true -> digits d2 = true ->
  strip_refs (pre ++ ref_code d1 d2 ++ post)
  = strip_refs pre ++ strip_refs post.
Proof.
  intros H1 H2. destruct (ref_code_inside d1 d2 H1 H2) as (m & Em & Hm).
  rewrite Em. cbn [app].
  rewrite (strip_refs_local_len (length pre)) by lia. f_equal.
  change ("["%char :: m ++ post) with (("["%char :: m) ++ post).
  rewrite <- Em. unfold strip_refs.
  rewrite (re_sub_hit ref_re [] (ref_code d1 d2) post []);
    [reflexivity|rewrite Em; discriminate|now apply ref_match].
Qed.

End ReferenceCodes.

(** C7: a bracketed reference code [[digits.digits]] is removed with
    nothing put in its place.  Wherever the code stands in the joined
    content, the normalised result is computed from the stripped text
    before it followed directly by the stripped text after it; when no
    opening bracket precedes the code, that is the result for the same
    content without the code.  The line [[6.001] All men are sinners.] with
    no title gives [All men are sinners.]. *)
Theorem reference_codes_removed :
  (forall (pre post d1 d2 : str) (content_lines : list str)
          (title_ : option str),
      digits d1 = true -> digits d2 = true ->
      join (L " ") content_lines = pre ++ ref_code d1 d2 ++ post ->
      strip_refs (pre ++ ref_code d1 d2 ++ post)
      = strip_refs pre ++ strip_refs post
      /\ clean_content content_lines title_
         = tidy title_ (content_variants (strip_refs pre ++ strip_refs post))
      /\ (no_open pre = true ->
          forall without,
            join (L " ") without = pre ++ post ->
            clean_content content_lines title_
            = clean_content without title_))
  /\ clean_content [L "[6.001] All men are sinners."] None
     = L "All men are sinners.".
Proof.
  split; [|vm_compute; reflexivity].
  intros pre post d1 d2 ls t H1 H2 E.
  split; [now apply strip_refs_code|]. split.
  - unfold clean_content, tidy, content_subs.
    now rewrite E, strip_refs_code.
  - intros Hpre ls' E'.
    unfold clean_content, content_subs, strip_refs. rewrite E, E'.
    now rewrite ref_code_removed.
Qed.

Lemma reference_codes_removed_witness :
  strip_refs ([] ++ ref_code (L "6") (L "001") ++ L " All men are sinners.")
  = strip_refs [] ++ strip_refs (L " All men are sinners.")
  /\ clean_content [L "[6.001] All men are sinners."] None
     = tidy None
         (content_variants
            (strip_refs [] ++ strip_refs (L " All men are sinners.")))
  /\ (no_open [] = true ->
      forall without,
        join (L " ") without = [] ++ L " All men are sinners." ->
        clean_content [L "[6.001] All men are sinners."] None
        = clean_content without None).
Proof.
  apply (proj1 reference_codes_removed
           [] (L " All men are sinners.") (L "6") (L "001")
           [L "[6.001] All men are sinners."] None);
    reflexivity.
Defined.

(* ================================================================== *)
(** ** The two-header scenario *)

Section Scenario.

Lemma step_not_header_rest (st : state) (raw : str) (r1 r2 : list str) :
  not_header raw = true -> step st raw r1 = step st raw r2.
Proof.
  unfold not_header. intros H. apply negb_true_iff in H.
  unfold step. now rewrite H.
Qed.

Lemma loop_app (a b : list str) (st : state) :
  forallb not_header a = true -> loop st (a ++ b) = loop (loop st a) b.
Proof.
  revert st; induction a as [|raw a IH]; intros st H; auto.
  cbn [forallb] in H. apply andb_true_iff in H as [Hr H].
  cbn [app loop]. rewrite (step_not_header_rest st raw (a ++ b) a Hr).
  now apply IH.
Qed.

(** A stretch without headers, inside a chapter: only the content grows. *)
Lemma loop_collects (a : list str) (st : state) :
  forallb not_header a = true -> has_chapter st = true ->
  loop st a
  = mkState (sections st) (current_chapter st) (current_title st)
            (current_content st ++ collected (current_title st) a)
            (chapter_num st).
Proof.
  revert st; induction a as [|raw a IH]; intros st H Hc.
  - cbn. rewrite app_nil_r. now destruct st.
  - cbn [forallb] in H. apply andb_true_iff in H as [Hr H].
    unfold not_header in Hr. apply negb_true_iff in Hr.
    cbn [loop collected flat_map]. fold (collected (current_title st) a).
    unfold has_chapter in Hc.
    destruct (current_chapter st) as [k|] eqn:Ek; [|discriminate].
    unfold step at 1. rewrite Hr, Ek.
    destruct (is_noise (strip raw) (current_title st)); cbn [orb].
    + rewrite IH; auto; [|unfold has_chapter; now rewrite Ek].
      now rewrite Ek.
    + destruct (is_book_list (strip raw)).
      * rewrite IH; auto; [|unfold has_chapter; now rewrite Ek].
        now rewrite Ek.
      * rewrite IH; auto. cbn. now rewrite <- app_assoc.
Qed.

(** A stretch without headers, with no title: nothing will be emitted. *)
Lemma loop_untitled (a : list str) (st : state) :
  forallb not_header a = true ->
  sections (loop st a) = sections st
  /\ current_title (loop st a) = current_title st.
Proof.
  revert st; induction a as [|raw a IH]; intros st H; auto.
  cbn [forallb] in H. apply andb_true_iff in H as [Hr H].
  unfold not_header in Hr. apply negb_true_iff in Hr.
  cbn [loop]. destruct (IH (step st raw a) H) as [-> ->].
  destruct (step_plain st raw a Hr) as (-> & _ & -> & _). auto.
Qed.

Lemma loop_front (front : list str) :
  forallb not_header front = true -> loop init front = init.
Proof.
  induction front as [|raw front IH]; intros H; auto.
  cbn [forallb] in H. apply andb_true_iff in H as [Hr H].
  unfold not_header in Hr. apply negb_true_iff in Hr.
  cbn [loop]. replace (step init raw front) with init; auto.
  unfold step. rewrite Hr. now destruct (is_noise _ _).
Qed.

End Scenario.

(** C8, as stated, fails: the one content line of the first chapter may
    normalise to nothing (here it is a lone reference code), and then the
    first chapter is dropped too. *)
Lemma scenario_may_emit_nothing :
  two_header_scenario [] (L "CHAPTER I (PCUS)")
    (map L ["Of God"; ""; "[6.001]"]%string) (L "CHAPTER II (PCUS)") []
    (L "Of God") (L "[6.001]")
  /\ parse_westminster
       (map L [ "CHAPTER I (PCUS)"; "Of God"; ""; "[6.001]";
                "CHAPTER II (PCUS)" ]%string) = [].
Proof. vm_compute. repeat split; reflexivity. Qed.

(** C8 (amended): in the two-header scenario, when moreover the content
    line of the first chapter normalises to a non-empty string, the
    sections list has exactly one entry, and its chapter is ["1"]. *)
Theorem two_header_scenario_one_section
    (front : list str) (h1 : str) (body : list str) (h2 : str)
    (back : list str) (t c : str) :
  two_header_scenario front h1 body h2 back t c ->
  clean_content [c] (Some t) <> [] ->
  parse_westminster (front ++ h1 :: body ++ h2 :: back)
  = [ mkSection (L "1") (clean_title t) (clean_content [c] (Some t))
                (get_topics t) ]
  /\ length (parse_westminster (front ++ h1 :: body ++ h2 :: back)) = 1
  /\ map chapter (parse_westminster (front ++ h1 :: body ++ h2 :: back))
     = [L "1"].
Proof.
  intros (Hf & Hb & Hk & H1 & H2 & Lt & Ln & Hc) Hne.
  assert (E : parse_westminster (front ++ h1 :: body ++ h2 :: back)
              = [ mkSection (L "1") (clean_title t)
                    (clean_content [c] (Some t)) (get_topics t) ]).
  { unfold parse_westminster.
    rewrite loop_app, loop_front by auto.
    cbn [loop]. rewrite step_header by auto.
    rewrite Lt. cbn [chapter_num init].
    rewrite loop_app by auto.
    rewrite (loop_collects body) by auto.
    cbn [sections current_chapter current_title current_content chapter_num
         app].
    rewrite Hc. cbn [loop]. rewrite step_header by auto.
    rewrite Ln. cbn [chapter_num].
    set (st3 := mkState _ _ _ _ _).
    destruct (loop_untitled back st3 Hk) as [Es Et].
    unfold save at 1. rewrite Es.
    assert (En : emit (loop st3 back) = []).
    { unfold emit. rewrite Et. cbn. now destruct (current_chapter _). }
    rewrite En, app_nil_r. subst st3. cbn [sections save init app].
    unfold emit. cbn [current_chapter current_title current_content].
    pose proof (lookahead_Of _ _ Lt) as Hof.
    destruct t as [|a t]; [discriminate|].
    destruct (clean_content [c] (Some (a :: t))); [congruence|].
    reflexivity. }
  rewrite E. auto.
Qed.

Lemma two_header_scenario_one_section_witness :
  parse_westminster
    ([] ++ L "CHAPTER I (PCUS)"
        :: map L ["Of God"; ""; "God is one."]%string
        ++ L "CHAPTER II (PCUS)" :: [])
  = [ mkSection (L "1") (clean_title (L "Of God"))
        (clean_content [L "God is one."] (Some (L "Of God")))
        (get_topics (L "Of God")) ]
  /\ length
       (parse_westminster
          ([] ++ L "CHAPTER I (PCUS)"
              :: map L ["Of God"; ""; "God is one."]%string
              ++ L "CHAPTER II (PCUS)" :: [])) = 1
  /\ map chapter
       (parse_westminster
          ([] ++ L "CHAPTER I (PCUS)"
              :: map L ["Of God"; ""; "God is one."]%string
              ++ L "CHAPTER II (PCUS)" :: []))
     = [L "1"].
Proof.
  apply (two_header_scenario_one_section
           [] (L "CHAPTER I (PCUS)")
           (map L ["Of God"; ""; "God is one."]%string)
           (L "CHAPTER II (PCUS)") [] (L "Of God") (L "God is one.")).
  - vm_compute. repeat split; reflexivity.
  - vm_compute. discriminate.
Defined.

(* ================================================================== *)
(** ** Strings whose brackets do not nest *)

Section Flat.

Lemma plain_inv (b : str) :
  plain b = true -> no_open b = true /\ no_close b = true.
Proof. unfold plain. apply andb_true_iff. Qed.

Lemma plain_app (a b : str) :
  plain (a ++ b) = true <-> plain a = true /\ plain b = true.
Proof.
  unfold plain, no_open, no_close. rewrite !forallb_app.
  rewrite !andb_true_iff. tauto.
Qed.

(** Inside a span: either it never closes, or it closes and the rest is
    flat again. *)
Lemma flat_scan_inside (s : str) :
  flat_scan true s = true ->
  plain s = true
  \/ exists b s', s = b ++ "]"%char :: s' /\ plain b = true
                  /\ flat_scan false s' = true.
Proof.
  induction s as [|c s IH]; intros H; [now left|].
  cbn [flat_scan] in H.
  destruct (Ascii.eqb c "[") eqn:Eo; [discriminate|].
  destruct (Ascii.eqb c "]") eqn:Ec.
  - apply Ascii.eqb_eq in Ec; subst c. right. exists [], s. auto.
  - assert (Hc : plain [c] = true).
    { unfold plain, no_open, no_close, not_rbracket. cbn.
      now rewrite Eo, Ec. }
    destruct (IH H) as [Hp|(b & s' & -> & Hb & Hs)].
    + left. change (c :: s) with ([c] ++ s). now apply plain_app.
    + right. exists (c :: b), s'. repeat split; auto.
      change (c :: b) with ([c] ++ b). now apply plain_app.
Qed.

Lemma flat_flat_with_len (k : nat) (s : str) :
  length s <= k -> flat s = true -> flat_with (fun _ => True) s.
Proof.
  revert s; induction k as [|k IH]; intros s Hl H.
  - destruct s; [constructor | cbn in Hl; lia].
  - destruct s as [|c s]; [constructor|].
    unfold flat in H. cbn [flat_scan] in H. cbn [length] in Hl.
    destruct (Ascii.eqb c "[") eqn:Eo.
    + apply Ascii.eqb_eq in Eo; subst c.
      destruct (flat_scan_inside s H) as [Hp|(b & s' & -> & Hb & Hs)].
      * now apply flat_open.
      * apply flat_group; auto. apply IH; auto.
        rewrite length_app in Hl. cbn [length] in Hl. lia.
    + apply flat_char.
      * intros ->. discriminate.
      * apply IH; [lia|]. unfold flat.
        destruct (Ascii.eqb c "]"); auto.
Qed.

Lemma flat_flat_with (s : str) :
  flat s = true -> flat_with (fun _ => True) s.
Proof. apply (flat_flat_with_len (length s)). lia. Qed.

Lemma flat_with_weaken (ok ok' : str -> Prop) (s : str) :
  (forall b, ok b -> ok' b) -> flat_with ok s -> flat_with ok' s.
Proof.
  intros Hw H. induction H; try (constructor; auto; fail).
Qed.

(** Plain text in front of a flat string. *)
Lemma flat_text (ok : str -> Prop) (k s : str) :
  no_open k = true -> flat_with ok s -> flat_with ok (k ++ s).
Proof.
  intros Hk Hs. induction k as [|c k IH]; auto.
  cbn [no_open forallb] in Hk. apply andb_true_iff in Hk as [Hc Hk].
  cbn [app]. apply flat_char; auto. now apply not_open_char.
Qed.

(** Reading a flat string that starts with a closed group. *)
Lemma flat_group_inv (ok : str -> Prop) (b s : str) :
  no_close b = true ->
  flat_with ok ("["%char :: b ++ "]"%char :: s) ->
  plain b = true /\ ok b /\ flat_with ok s.
Proof.
  intros Hb H. remember ("["%char :: b ++ "]"%char :: s) as w eqn:E.
  destruct H as [|c s0 Hc Hs|b0 s0 Hp Hok Hs|b0 Hp]; try discriminate.
  - injection E as -> _. congruence.
  - injection E as E. apply plain_inv in Hp as [Hp1 Hp2].
    apply first_close_unique in E as [-> ->]; auto.
    repeat split; auto. unfold plain. now rewrite Hp1, Hp2.
  - injection E as ->. apply plain_app in Hp as [_ Hp].
    apply plain_inv in Hp as [_ Hp]. discriminate.
Qed.

End Flat.

Section FlatRules.

Variable ok : str -> Prop.

Lemma flat_char_inv (c : ascii) (s : str) :
  c <> "["%char -> flat_with ok (c :: s) -> flat_with ok s.
Proof.
  intros Hc H. remember (c :: s) as w eqn:E.
  destruct H as [|c0 s0 _ Hs|b0 s0 _ _ _|b0 _]; try discriminate;
    injection E as E1 E2; subst; auto; congruence.
Qed.

(** A pattern that misses at a closed group steps over it. *)
Lemma re_sub_skip_group (r : regex) repl (b s : str) :
  bracket_led r -> plain b = true ->
  match_at r ("["%char :: b ++ "]"%char :: s) = None ->
  re_sub r repl ("["%char :: b ++ "]"%char :: s)
  = "["%char :: b ++ "]"%char :: re_sub r repl s.
Proof.
  intros Hr Hb Hm. apply plain_inv in Hb as [Hb _].
  rewrite re_sub_miss by auto. f_equal.
  change (b ++ "]"%char :: s) with (b ++ ["]"%char] ++ s).
  rewrite app_assoc, re_sub_no_open_app; auto.
  - now rewrite <- app_assoc.
  - apply no_open_app. auto.
Qed.

Lemma re_sub_skip_open (r : regex) repl (b : str) :
  bracket_led r -> plain b = true -> match_at r ("["%char :: b) = None ->
  re_sub r repl ("["%char :: b) = "["%char :: b.
Proof.
  intros Hr Hb Hm. apply plain_inv in Hb as [Hb _].
  rewrite re_sub_miss by auto. now rewrite re_sub_no_open.
Qed.

(** *** What the patterns match at a group *)

Lemma lone_on_group (code b s rest : str) gs :
  no_close code = true -> no_close b = true ->
  match_at (lone_form ("["%char :: code)) ("["%char :: b ++ "]"%char :: s)
  = Some (gs, rest) ->
  exists x, x <> [] /\ b = code ++ x /\ rest = s /\ gs = [x].
Proof.
  intros Hc Hb H. apply lone_match in H as (x & E & Hx & Hp & ->).
  cbn [app] in E. injection E as E. rewrite app_assoc in E.
  apply first_close_unique in E as [-> ->]; auto.
  - exists x. auto.
  - unfold no_close. rewrite forallb_app. fold (no_close code) (no_close x).
    now rewrite Hc, Hp.
Qed.

Lemma lone_on_body (code x s : str) :
  x <> [] -> no_close x = true ->
  match_at (lone_form ("["%char :: code))
           ("["%char :: (code ++ x) ++ "]"%char :: s) = Some ([x], s).
Proof.
  intros Hx Hp. apply lone_match. exists x. repeat split; auto.
  cbn [app]. now rewrite <- app_assoc.
Qed.

Lemma lone_on_open (code b : str) :
  no_close b = true ->
  match_at (lone_form ("["%char :: code)) ("["%char :: b) = None.
Proof.
  intros Hb. destruct (match_at _ _) as [[gs rest]|] eqn:E; auto.
  apply lone_match in E as (x & E & _). cbn [app] in E. injection E as ->.
  unfold no_close in Hb. rewrite !forallb_app in Hb. cbn in Hb.
  rewrite !andb_false_r in Hb. discriminate.
Qed.

Lemma pair_on_group (code mid b s rest : str) g1 g2 gs :
  no_close code = true -> no_close b = true ->
  match_at (pair_form ("["%char :: code) ("]"%char :: mid) g1 g2)
           ("["%char :: b ++ "]"%char :: s) = Some (gs, rest) ->
  exists x y,
    x <> [] /\ b = code ++ x
    /\ y <> [] /\ no_close y = true /\ s = mid ++ y ++ "]"%char :: rest
    /\ gs = caps g1 x ++ caps g2 y.
Proof.
  intros Hc Hb H.
  apply pair_match in H as (x & y & E & Hx & Hp & Hy & Hq & ->).
  cbn [app] in E. injection E as E. rewrite app_assoc in E.
  apply first_close_unique in E as [-> ->]; auto.
  - exists x, y. auto 10.
  - unfold no_close. rewrite forallb_app. fold (no_close code) (no_close x).
    now rewrite Hc, Hp.
Qed.

Lemma pair_on_open (code mid b : str) g1 g2 :
  no_close b = true ->
  match_at (pair_form ("["%char :: code) ("]"%char :: mid) g1 g2)
           ("["%char :: b) = None.
Proof.
  intros Hb. destruct (match_at _ _) as [[gs rest]|] eqn:E; auto.
  apply pair_match in E as (x & y & E & _). cbn [app] in E.
  injection E as ->.
  unfold no_close in Hb. rewrite !forallb_app in Hb. cbn in Hb.
  rewrite !andb_false_r in Hb. discriminate.
Qed.

(** *** A lone-tag substitution leaves no tag of its code *)

Lemma lone_flat (code s : str) :
  no_close code = true -> flat_with ok s ->
  flat_with (fun b => ok b /\ ~ tag_body code b)
            (re_sub (lone_form ("["%char :: code)) [TGroup 1] s).
Proof.
  intros Hc H. pose proof (lone_form_led code) as Led.
  induction H as [|c s Hn Hs IH|b s Hb Hok Hs IH|b Hb].
  - constructor.
  - rewrite re_sub_miss.
    + now apply flat_char.
    + apply Led. destruct c as [[] [] [] [] [] [] [] []]; auto; congruence.
  - destruct (plain_inv _ Hb) as [Hb1 Hb2].
    destruct (match_at (lone_form ("["%char :: code))
                ("["%char :: b ++ "]"%char :: s)) as [[gs rest]|] eqn:E.
    + apply lone_on_group in E as (x & Hx & -> & -> & ->); auto.
      apply plain_app in Hb as [_ Hpx]. apply plain_inv in Hpx as [Hx1 Hx2].
      replace ("["%char :: (code ++ x) ++ "]"%char :: s)
        with (("["%char :: code) ++ x ++ "]"%char :: s)
        by (cbn [app]; now rewrite <- app_assoc).
      rewrite re_sub_lone_hit by auto. now apply flat_text.
    + rewrite re_sub_skip_group by auto. apply flat_group; auto.
      split; auto. intros (x & Hx & ->).
      rewrite lone_on_body in E; [discriminate|auto|].
      unfold no_close in Hb2. rewrite forallb_app in Hb2.
      now apply andb_true_iff in Hb2 as [_ Hb2].
  - destruct (plain_inv _ Hb) as [Hb1 Hb2].
    rewrite re_sub_skip_open; auto using lone_on_open.
    now apply flat_open.
Qed.

(** *** A pair substitution keeps a flat string flat *)

Lemma kept_plain (g1 g2 : bool) (i : nat) (x y : str) :
  no_open x = true -> no_open y = true ->
  no_open (nth i (caps g1 x ++ caps g2 y) []) = true.
Proof.
  intros Hx Hy.
  destruct g1, g2; cbn; destruct i as [|[|[|i]]]; auto.
Qed.

Lemma pair_flat_len (code1 code2 : str) (g1 g2 : bool) (k n : nat) (s : str) :
  no_close code1 = true -> no_close code2 = true ->
  length s <= n -> flat_with ok s ->
  flat_with ok
    (re_sub (pair_form ("["%char :: code1)
                       ("]"%char :: " "%char :: "["%char :: code2) g1 g2)
            [TGroup k] s).
Proof.
  intros Hc1 Hc2.
  pose proof (pair_form_led code1 ("]"%char :: " "%char :: "["%char :: code2)
                g1 g2) as Led.
  revert s; induction n as [|n IH]; intros s Hl H.
  - destruct s; [constructor | cbn in Hl; lia].
  - destruct H as [|c s Hn Hs|b s Hb Hok Hs|b Hb].
    + constructor.
    + cbn [length] in Hl. rewrite re_sub_miss.
      * apply flat_char; auto. apply IH; auto. lia.
      * apply Led.
        destruct c as [[] [] [] [] [] [] [] []]; auto; congruence.
    + destruct (plain_inv _ Hb) as [Hb1 Hb2].
      cbn [length] in Hl. rewrite length_app in Hl. cbn [length] in Hl.
      destruct (match_at (pair_form ("["%char :: code1)
                  ("]"%char :: " "%char :: "["%char :: code2) g1 g2)
                  ("["%char :: b ++ "]"%char :: s)) as [[gs rest]|] eqn:E.
      * apply pair_on_group in E
          as (x & y & Hx & -> & Hy & Hq & -> & ->); auto.
        apply plain_app in Hb as [_ Hpx].
        apply plain_inv in Hpx as [Hx1 Hx2].
        cbn [app] in Hs. apply flat_char_inv in Hs; [|discriminate].
        rewrite app_assoc in Hs. apply flat_group_inv in Hs.
        2:{ unfold no_close. rewrite forallb_app.
            fold (no_close code2) (no_close y). now rewrite Hc2, Hq. }
        destruct Hs as (Hpy & _ & Hrest).
        apply plain_app in Hpy as [_ Hpy].
        apply plain_inv in Hpy as [Hy1 Hy2].
        replace ("["%char :: (code1 ++ x) ++ "]"%char ::
                   (" "%char :: "["%char :: code2) ++ y ++ "]"%char :: rest)
          with (("["%char :: code1) ++ x ++ "]"%char ::
                   (" "%char :: "["%char :: code2) ++ y ++ "]"%char :: rest)
          by (cbn [app]; now rewrite <- app_assoc).
        rewrite re_sub_pair_hit by auto.
        apply flat_text; [now apply kept_plain|].
        apply IH; auto.
        cbn [app length] in Hl. rewrite !length_app in Hl.
        cbn [length] in Hl. lia.
      * rewrite re_sub_skip_group by auto. apply flat_group; auto.
        apply IH; auto. lia.
    + destruct (plain_inv _ Hb) as [Hb1 Hb2].
      rewrite re_sub_skip_open; auto using pair_on_open.
      now apply flat_open.
Qed.

End FlatRules.

Section Idempotence.

(** A pattern that needs a tag of [code] changes nothing where there is
    none. *)
Lemma fixed_without_body (r : regex) repl (code : str) :
  bracket_led r ->
  (forall b s gs rest,
      plain b = true ->
      match_at r ("["%char :: b ++ "]"%char :: s) = Some (gs, rest) ->
      tag_body code b) ->
  (forall b, plain b = true -> match_at r ("["%char :: b) = None) ->
  forall s, flat_with (fun b => ~ tag_body code b) s -> re_sub r repl s = s.
Proof.
  intros Led Hg Ho s H.
  induction H as [|c s Hn Hs IH|b s Hb Hok Hs IH|b Hb].
  - reflexivity.
  - rewrite re_sub_miss; [now rewrite IH|].
    apply Led. destruct c as [[] [] [] [] [] [] [] []]; auto; congruence.
  - rewrite re_sub_skip_group; auto; [now rewrite IH|].
    destruct (match_at r ("["%char :: b ++ "]"%char :: s))
      as [[gs rest]|] eqn:E; auto.
    elim Hok. eapply Hg; eauto.
  - apply re_sub_skip_open; auto.
Qed.

Lemma lone_fixed (code s : str) :
  no_close code = true ->
  flat_with (fun b => ~ tag_body code b) s ->
  re_sub (lone_form ("["%char :: code)) [TGroup 1] s = s.
Proof.
  intros Hc. apply fixed_without_body.
  - apply lone_form_led.
  - intros b s0 gs rest Hb E. apply plain_inv in Hb as [_ Hb].
    apply lone_on_group in E as (x & Hx & -> & _); auto. now exists x.
  - intros b Hb. apply plain_inv in Hb as [_ Hb]. now apply lone_on_open.
Qed.

Lemma pair_fixed (code mid s : str) (g1 g2 : bool) (k : nat) :
  no_close code = true ->
  flat_with (fun b => ~ tag_body code b) s ->
  re_sub (pair_form ("["%char :: code) ("]"%char :: mid) g1 g2) [TGroup k] s
  = s.
Proof.
  intros Hc. apply fixed_without_body.
  - apply pair_form_led.
  - intros b s0 gs rest Hb E. apply plain_inv in Hb as [_ Hb].
    apply pair_on_group in E as (x & y & Hx & -> & _); auto. now exists x.
  - intros b Hb. apply plain_inv in Hb as [_ Hb]. now apply pair_on_open.
Qed.

(** *** Trimming keeps the shape *)

Lemma lstrip_flat (ok : str -> Prop) (s : str) :
  flat_with ok s -> flat_with ok (lstrip s).
Proof.
  intros H. induction H as [|c s Hn Hs IH|b s Hb Hok Hs IH|b Hb].
  - constructor.
  - cbn [lstrip]. destruct (isspace c); auto. now apply flat_char.
  - rewrite lstrip_nonspace by reflexivity. now apply flat_group.
  - rewrite lstrip_nonspace by reflexivity. now apply flat_open.
Qed.

Lemma all_space_app (a b : str) :
  all_space (a ++ b) = all_space a && all_space b.
Proof. apply forallb_app. Qed.

Lemma rstrip_upto (a : str) (c : ascii) (s : str) :
  isspace c = false -> rstrip (a ++ c :: s) = a ++ c :: rstrip s.
Proof.
  intros Hc. induction a as [|x a IH]; cbn [app].
  - now apply rstrip_head.
  - rewrite rstrip_cons, IH.
    change (x :: a ++ c :: s) with ((x :: a) ++ [c] ++ s).
    rewrite !all_space_app. cbn [all_space forallb]. rewrite Hc.
    now rewrite !andb_false_r.
Qed.

Lemma rstrip_forallb (p : ascii -> bool) (s : str) :
  forallb p s = true -> forallb p (rstrip s) = true.
Proof.
  induction s as [|c s IH]; auto. intros H.
  cbn [forallb] in H. apply andb_true_iff in H as [Hc H].
  rewrite rstrip_cons. destruct (all_space (c :: s)); auto.
  cbn [forallb]. now rewrite Hc, IH.
Qed.

Lemma rstrip_plain (b : str) : plain b = true -> plain (rstrip b) = true.
Proof.
  unfold plain, no_open, no_close. intros H.
  apply andb_true_iff in H as [H1 H2].
  now rewrite !rstrip_forallb.
Qed.

Lemma rstrip_flat (ok : str -> Prop) (s : str) :
  flat_with ok s -> flat_with ok (rstrip s).
Proof.
  intros H. induction H as [|c s Hn Hs IH|b s Hb Hok Hs IH|b Hb].
  - constructor.
  - rewrite rstrip_cons. destruct (all_space (c :: s)); [constructor|].
    now apply flat_char.
  - rewrite rstrip_head by reflexivity.
    rewrite rstrip_upto by reflexivity. now apply flat_group.
  - rewrite rstrip_head by reflexivity.
    apply flat_open. now apply rstrip_plain.
Qed.

Lemma strip_flat (ok : str -> Prop) (s : str) :
  flat_with ok s -> flat_with ok (strip s).
Proof. intros H. unfold strip. now apply rstrip_flat, lstrip_flat. Qed.

(** *** One pass leaves no tag *)

Lemma title_subs_untagged (s : str) :
  flat s = true -> flat_with untagged (title_subs s).
Proof.
  intros H. apply flat_flat_with in H. unfold title_subs.
  apply (pair_flat_len _ (L "PCUS ") (L "UPCUSA ") true true 2
           (length s) s eq_refl eq_refl (le_n _)) in H.
  change (pair_form ("["%char :: L "PCUS ")
            ("]"%char :: " "%char :: "["%char :: L "UPCUSA ") true true)
    with title_pcus_upcusa_re in H.
  set (s1 := re_sub title_pcus_upcusa_re [TGroup 2] s) in *.
  apply (pair_flat_len _ (L "UPCUSA ") (L "PCUS ") true true 1
           (length s1) s1 eq_refl eq_refl (le_n _)) in H.
  change (pair_form ("["%char :: L "UPCUSA ")
            ("]"%char :: " "%char :: "["%char :: L "PCUS ") true true)
    with title_upcusa_pcus_re in H.
  set (s2 := re_sub title_upcusa_pcus_re [TGroup 1] s1) in *.
  apply (lone_flat _ (L "PCUS ") s2 eq_refl) in H.
  change (lone_form ("["%char :: L "PCUS ")) with pcus_re in H.
  set (s3 := re_sub pcus_re [TGroup 1] s2) in *.
  apply (lone_flat _ (L "UPCUSA ") s3 eq_refl) in H.
  change (lone_form ("["%char :: L "UPCUSA ")) with upcusa_re in H.
  eapply flat_with_weaken; [|exact H].
  cbv beta. unfold untagged. tauto.
Qed.

Lemma title_subs_fixed (s : str) :
  flat_with untagged s -> title_subs s = s.
Proof.
  intros H. unfold title_subs.
  assert (HP : flat_with (fun b => ~ tag_body (L "PCUS ") b) s)
    by (eapply flat_with_weaken; [|exact H]; unfold untagged; tauto).
  assert (HU : flat_with (fun b => ~ tag_body (L "UPCUSA ") b) s)
    by (eapply flat_with_weaken; [|exact H]; unfold untagged; tauto).
  change title_pcus_upcusa_re
    with (pair_form ("["%char :: L "PCUS ") ("]"%char :: L " [UPCUSA ")
            true true).
  rewrite pair_fixed by auto.
  change title_upcusa_pcus_re
    with (pair_form ("["%char :: L "UPCUSA ") ("]"%char :: L " [PCUS ")
            true true).
  rewrite pair_fixed by auto.
  change pcus_re with (lone_form ("["%char :: L "PCUS ")).
  rewrite lone_fixed by auto.
  change upcusa_re with (lone_form ("["%char :: L "UPCUSA ")).
  now rewrite lone_fixed by auto.
Qed.

End Idempotence.

(** C2, as stated, fails on nested brackets: one pass unwraps the outer
    tag only, and a second pass then unwraps the inner one. *)
Lemma clean_title_not_idempotent :
  clean_title (L "[PCUS [PCUS a]]") = L "[PCUS a]"
  /\ clean_title (clean_title (L "[PCUS [PCUS a]]")) = L "a"
  /\ clean_title (clean_title (L "[PCUS [PCUS a]]"))
     <> clean_title (L "[PCUS [PCUS a]]").
Proof. vm_compute. repeat split; discriminate. Qed.

(** C2 (amended): on every string whose brackets do not nest (no ['[']
    inside a bracketed span), [clean_title] is idempotent, and after one
    pass no bracketed group of the result is a variant tag, so a second pass
    has nothing to act on. *)
Theorem clean_title_idempotent_flat (x : str) :
  flat x = true ->
  clean_title (clean_title x) = clean_title x
  /\ flat_with untagged (clean_title x).
Proof.
  intros H.
  assert (F : flat_with untagged (clean_title x))
    by (unfold clean_title; now apply strip_flat, title_subs_untagged).
  split; auto.
  unfold clean_title at 1. rewrite title_subs_fixed by exact F.
  unfold clean_title. apply strip_idem.
Qed.

Lemma clean_title_idempotent_flat_witness :
  clean_title
    (clean_title (L "Of [PCUS Civil] [UPCUSA Civil Government] Matters"))
  = clean_title (L "Of [PCUS Civil] [UPCUSA Civil Government] Matters")
  /\ flat_with untagged
       (clean_title (L "Of [PCUS Civil] [UPCUSA Civil Government] Matters")).
Proof.
  apply (clean_title_idempotent_flat
           (L "Of [PCUS Civil] [UPCUSA Civil Government] Matters")).
  reflexivity.
Defined.

(* ================================================================== *)
(** ** Variant tags in their context *)

Section Contexts.

Variable ok : str -> Prop.

Lemma closed_then_flat (a b : str) :
  closed_with ok a -> flat_with ok b -> flat_with ok (a ++ b).
Proof.
  intros Ha Hb. induction Ha as [|c s Hc Hs IH|g s Hg Hok Hs IH].
  - exact Hb.
  - cbn [app]. now apply flat_char.
  - cbn [app]. rewrite <- app_assoc. cbn [app]. now apply flat_group.
Qed.

Lemma closed_with_weaken (ok' : str -> Prop) (s : str) :
  (forall b, ok b -> ok' b) -> closed_with ok s -> closed_with ok' s.
Proof.
  intros Hw H. induction H; try (constructor; auto; fail).
Qed.

(** A pattern that needs a tag of [code] walks through a closed context
    that has none. *)
Lemma pass_closed (r : regex) repl (code pre s : str) :
  bracket_led r ->
  (forall b t gs rest,
      plain b = true ->
      match_at r ("["%char :: b ++ "]"%char :: t) = Some (gs, rest) ->
      tag_body code b) ->
  closed_with (fun b => ~ tag_body code b) pre ->
  re_sub r repl (pre ++ s) = pre ++ re_sub r repl s.
Proof.
  intros Led Hg H.
  induction H as [|c p Hc Hp IH|b p Hb Hok Hp IH].
  - reflexivity.
  - cbn [app]. rewrite re_sub_miss; [now rewrite IH|].
    apply Led. destruct c as [[] [] [] [] [] [] [] []]; auto; congruence.
  - cbn [app]. rewrite <- app_assoc. cbn [app].
    rewrite re_sub_skip_group;
      [rewrite IH, <- app_assoc; reflexivity | exact Led | exact Hb |].
    destruct (match_at r ("["%char :: b ++ "]"%char :: p ++ s))
      as [[gs rest]|] eqn:E; auto.
    elim Hok. eapply Hg; eauto.
Qed.

Lemma pass_lone (code pre s : str) :
  no_close code = true ->
  closed_with (fun b => ~ tag_body code b) pre ->
  re_sub (lone_form ("["%char :: code)) [TGroup 1] (pre ++ s)
  = pre ++ re_sub (lone_form ("["%char :: code)) [TGroup 1] s.
Proof.
  intros Hc. apply pass_closed.
  - apply lone_form_led.
  - intros b t gs rest Hb E. apply plain_inv in Hb as [_ Hb].
    apply lone_on_group in E as (x & Hx & -> & _); auto. now exists x.
Qed.

Lemma pass_pair (code mid pre s : str) (g1 g2 : bool) (k : nat) :
  no_close code = true ->
  closed_with (fun b => ~ tag_body code b) pre ->
  re_sub (pair_form ("["%char :: code) ("]"%char :: mid) g1 g2) [TGroup k]
         (pre ++ s)
  = pre ++ re_sub (pair_form ("["%char :: code) ("]"%char :: mid) g1 g2)
                  [TGroup k] s.
Proof.
  intros Hc. apply pass_closed.
  - apply pair_form_led.
  - intros b t gs rest Hb E. apply plain_inv in Hb as [_ Hb].
    apply pair_on_group in E as (x & y & Hx & -> & _); auto. now exists x.
Qed.

End Contexts.

Section ReferenceCodesInContext.

Variable ok : str -> Prop.

Lemma digits_no_close (d : str) :
  forallb isdigit d = true -> no_close d = true.
Proof.
  induction d as [|c d IH]; auto. cbn [forallb no_close]. intros H.
  apply andb_true_iff in H as [Hc H]. fold (no_close d). rewrite IH by auto.
  rewrite andb_true_r. unfold not_rbracket.
  destruct (Ascii.eqb c "]") eqn:E; auto.
  apply Ascii.eqb_eq in E. subst c. discriminate.
Qed.

(** Whether the pattern removes a group depends on the group alone. *)
Lemma ref_on_group (b t rest : str) gs :
  no_close b = true ->
  match_at ref_re ("["%char :: b ++ "]"%char :: t) = Some (gs, rest) ->
  rest = t /\ gs = []
  /\ forall t', match_at ref_re ("["%char :: b ++ "]"%char :: t')
                = Some ([], t').
Proof.
  intros Hb H.
  apply ref_match_inv in H as (d1 & d2 & H1 & H2 & E & ->).
  rewrite ref_code_cat in E. injection E as E.
  change ("."%char :: d2 ++ "]"%char :: rest)
    with (("."%char :: d2) ++ "]"%char :: rest) in E.
  rewrite app_assoc in E.
  destruct (digits_inv _ H1) as [_ D1]. destruct (digits_inv _ H2) as [_ D2].
  apply first_close_unique in E as [-> ->]; auto.
  - repeat split; auto. intros t'.
    replace ("["%char :: (d1 ++ "."%char :: d2) ++ "]"%char :: t')
      with (ref_code d1 d2 ++ t').
    + now apply ref_match.
    + rewrite ref_code_cat. f_equal.
      change ("."%char :: d2 ++ "]"%char :: t')
        with (("."%char :: d2) ++ "]"%char :: t').
      now rewrite app_assoc.
  - unfold no_close. rewrite forallb_app. cbn [forallb].
    fold (no_close d1) (no_close d2).
    now rewrite !digits_no_close.
Qed.

Lemma ref_on_open (b : str) :
  no_close b = true -> match_at ref_re ("["%char :: b) = None.
Proof.
  intros Hb. destruct (match_at _ _) as [[gs rest]|] eqn:E; auto.
  apply ref_match_inv in E as (d1 & d2 & _ & _ & E & _).
  rewrite ref_code_cat in E. injection E as ->.
  unfold no_close in Hb. rewrite forallb_app in Hb. cbn [forallb] in Hb.
  rewrite forallb_app in Hb. cbn in Hb.
  rewrite !andb_false_r in Hb. discriminate.
Qed.

Lemma strip_refs_char (c : ascii) (s : str) :
  c <> "["%char -> strip_refs (c :: s) = c :: strip_refs s.
Proof.
  intros Hc. unfold strip_refs. apply re_sub_miss. apply ref_re_led.
  destruct c as [[] [] [] [] [] [] [] []]; auto; congruence.
Qed.

(** At a closed group: the group goes or stays, and the scan goes on
    behind it. *)
Lemma strip_refs_group (b : str) :
  plain b = true ->
  (forall t, strip_refs ("["%char :: b ++ "]"%char :: t) = strip_refs t)
  \/ (forall t, strip_refs ("["%char :: b ++ "]"%char :: t)
                = "["%char :: b ++ "]"%char :: strip_refs t).
Proof.
  intros Hb. destruct (plain_inv _ Hb) as [Hb1 Hb2].
  destruct (match_at ref_re ("["%char :: b ++ "]"%char :: []))
    as [[gs rest]|] eqn:E.
  - left. intros t. apply ref_on_group in E as (_ & _ & E); auto.
    unfold strip_refs.
    change ("["%char :: b ++ "]"%char :: t)
      with (("["%char :: b) ++ "]"%char :: t).
    replace (("["%char :: b) ++ "]"%char :: t)
      with (("["%char :: b ++ ["]"%char]) ++ t)
      by (cbn [app]; now rewrite <- app_assoc).
    rewrite (re_sub_hit ref_re [] _ t []); [reflexivity|discriminate|].
    cbn [app]. rewrite <- app_assoc. apply E.
  - right. intros t. unfold strip_refs.
    apply re_sub_skip_group; auto using ref_re_led.
    destruct (match_at ref_re ("["%char :: b ++ "]"%char :: t))
      as [[gs rest]|] eqn:E'; auto.
    apply ref_on_group in E' as (_ & _ & E'); auto.
    rewrite E' in E. discriminate.
Qed.

Lemma strip_refs_open (b : str) :
  plain b = true -> strip_refs ("["%char :: b) = "["%char :: b.
Proof.
  intros Hb. destruct (plain_inv _ Hb) as [Hb1 Hb2]. unfold strip_refs.
  apply re_sub_skip_open; auto using ref_re_led, ref_on_open.
Qed.

Lemma strip_refs_flat (s : str) :
  flat_with ok s -> flat_with ok (strip_refs s).
Proof.
  intros H. induction H as [|c s Hc Hs IH|b s Hb Hok Hs IH|b Hb].
  - constructor.
  - rewrite strip_refs_char by auto. now apply flat_char.
  - destruct (strip_refs_group b Hb) as [E|E]; rewrite E; auto.
    now apply flat_group.
  - rewrite strip_refs_open by auto. now apply flat_open.
Qed.

Lemma strip_refs_closed (s : str) :
  closed_with ok s -> closed_with ok (strip_refs s).
Proof.
  intros H. induction H as [|c s Hc Hs IH|b s Hb Hok Hs IH].
  - constructor.
  - rewrite strip_refs_char by auto. now apply closed_char.
  - destruct (strip_refs_group b Hb) as [E|E]; rewrite E; auto.
    now apply closed_group.
Qed.

Lemma strip_refs_app_closed (pre s : str) :
  closed_with ok pre -> strip_refs (pre ++ s) = strip_refs pre ++ strip_refs s.
Proof.
  intros H. induction H as [|c p Hc Hp IH|b p Hb Hok Hp IH].
  - reflexivity.
  - cbn [app]. rewrite !strip_refs_char by auto. now rewrite IH.
  - cbn [app]. rewrite <- app_assoc. cbn [app].
    destruct (strip_refs_group b Hb) as [E|E]; rewrite !E, IH; auto.
    cbn [app]. now rewrite <- app_assoc.
Qed.

Lemma strip_refs_text (k s : str) :
  no_open k = true -> strip_refs (k ++ s) = k ++ strip_refs s.
Proof.
  intros Hk. unfold strip_refs. apply re_sub_no_open_app; auto.
  apply ref_re_led.
Qed.

End ReferenceCodesInContext.

Section Scanners.

Lemma closed_scan_inside (s : str) :
  closed_scan true s = true ->
  exists b s', s = b ++ "]"%char :: s' /\ plain b = true
               /\ closed_scan false s' = true.
Proof.
  induction s as [|c s IH]; intros H; [discriminate|].
  cbn [closed_scan] in H.
  destruct (Ascii.eqb c "[") eqn:Eo; [discriminate|].
  destruct (Ascii.eqb c "]") eqn:Ec.
  - apply Ascii.eqb_eq in Ec; subst c. exists [], s. auto.
  - assert (Hc : plain [c] = true).
    { unfold plain, no_open, no_close, not_rbracket. cbn.
      now rewrite Eo, Ec. }
    destruct (IH H) as (b & s' & -> & Hb & Hs).
    exists (c :: b), s'. repeat split; auto.
    change (c :: b) with ([c] ++ b). now apply plain_app.
Qed.

Lemma closed_closed_with_len (k : nat) (s : str) :
  length s <= k -> closed s = true -> closed_with (fun _ => True) s.
Proof.
  revert s; induction k as [|k IH]; intros s Hl H.
  - destruct s; [constructor | cbn in Hl; lia].
  - destruct s as [|c s]; [constructor|].
    unfold closed in H. cbn [closed_scan] in H. cbn [length] in Hl.
    destruct (Ascii.eqb c "[") eqn:Eo.
    + apply Ascii.eqb_eq in Eo; subst c.
      destruct (closed_scan_inside s H) as (b & s' & -> & Hb & Hs).
      apply closed_group; auto. apply IH; auto.
      rewrite length_app in Hl. cbn [length] in Hl. lia.
    + apply closed_char.
      * intros ->. discriminate.
      * apply IH; [lia|]. unfold closed.
        destruct (Ascii.eqb c "]"); auto.
Qed.

Lemma contains_tail (n : str) (c : ascii) (s : str) :
  contains n (c :: s) = false -> contains n s = false.
Proof. cbn [contains]. intros H. now apply orb_false_iff in H as [_ H]. Qed.

Lemma contains_app_tail (n a s : str) :
  contains n (a ++ s) = false -> contains n s = false.
Proof.
  induction a as [|c a IH]; auto. cbn [app]. intros H.
  apply contains_tail in H. auto.
Qed.

Lemma contains_prefix (n s : str) : contains n (n ++ s) = true.
Proof.
  destruct (n ++ s) eqn:E; cbn [contains]; rewrite <- E;
    now rewrite startswith_app.
Qed.

Lemma tagless_tail (c : ascii) (s : str) :
  tagless (c :: s) = true -> tagless s = true.
Proof.
  unfold tagless. rewrite !andb_true_iff, !negb_true_iff.
  intros [H1 H2]. split; eapply contains_tail; eauto.
Qed.

Lemma tagless_app_tail (a s : str) :
  tagless (a ++ s) = true -> tagless s = true.
Proof.
  unfold tagless. rewrite !andb_true_iff, !negb_true_iff.
  intros [H1 H2]. split; eapply contains_app_tail; eauto.
Qed.

Lemma tagless_group (b s : str) :
  tagless ("["%char :: b ++ "]"%char :: s) = true ->
  untagged b /\ tagless s = true.
Proof.
  intros H. split.
  - unfold tagless in H. rewrite !andb_true_iff, !negb_true_iff in H.
    destruct H as [H1 H2].
    split; intros (x & _ & ->).
    + change ("["%char :: (L "PCUS " ++ x) ++ "]"%char :: s)
        with (L "[PCUS " ++ (x ++ "]"%char :: s)) in H1.
      rewrite contains_prefix in H1. discriminate.
    + change ("["%char :: (L "UPCUSA " ++ x) ++ "]"%char :: s)
        with (L "[UPCUSA " ++ (x ++ "]"%char :: s)) in H2.
      rewrite contains_prefix in H2. discriminate.
  - apply tagless_tail in H. apply tagless_app_tail in H.
    now apply tagless_tail in H.
Qed.

Lemma tagless_flat (s : str) :
  flat_with (fun _ => True) s -> tagless s = true -> flat_with untagged s.
Proof.
  intros H. induction H as [|c s Hc Hs IH|b s Hb Hok Hs IH|b Hb]; intros T.
  - constructor.
  - apply flat_char; auto. apply IH. eapply tagless_tail; eauto.
  - apply tagless_group in T as [Hu T]. now apply flat_group; auto.
  - now apply flat_open.
Qed.

Lemma tagless_closed (s : str) :
  closed_with (fun _ => True) s -> tagless s = true ->
  closed_with untagged s.
Proof.
  intros H. induction H as [|c s Hc Hs IH|b s Hb Hok Hs IH]; intros T.
  - constructor.
  - apply closed_char; auto. apply IH. eapply tagless_tail; eauto.
  - apply tagless_group in T as [Hu T]. now apply closed_group; auto.
Qed.

Lemma context_before_closed (s : str) :
  context_before s = true -> closed_with untagged s.
Proof.
  unfold context_before. intros H. apply andb_true_iff in H as [Hc Ht].
  apply tagless_closed; auto.
  apply (closed_closed_with_len (length s)); auto.
Qed.

Lemma context_after_flat (s : str) :
  context_after s = true -> flat_with untagged s.
Proof.
  unfold context_after. intros H. apply andb_true_iff in H as [Hc Ht].
  apply tagless_flat; auto. now apply flat_flat_with.
Qed.

End Scanners.

Section TagResolution.

Lemma led_miss (r : regex) repl (c : ascii) (s : str) :
  bracket_led r -> c <> "["%char ->
  re_sub r repl (c :: s) = c :: re_sub r repl s.
Proof.
  intros Led Hc. apply re_sub_miss. apply Led.
  destruct c as [[] [] [] [] [] [] [] []]; auto; congruence.
Qed.

(** A pair pattern misses at a group when no tag of the second code
    follows. *)
Lemma pair_miss_flat (ok : str -> Prop) (code1 code2 b s : str)
    (g1 g2 : bool) :
  no_close code1 = true -> no_close code2 = true -> no_close b = true ->
  (forall z, z <> [] -> ~ ok (code2 ++ z)) ->
  flat_with ok s ->
  match_at (pair_form ("["%char :: code1)
              ("]"%char :: " "%char :: "["%char :: code2) g1 g2)
           ("["%char :: b ++ "]"%char :: s) = None.
Proof.
  intros Hc1 Hc2 Hb Hok Hs.
  destruct (match_at _ _) as [[gs rest]|] eqn:E; auto.
  apply pair_on_group in E as (x & y & Hx & -> & Hy & Hq & -> & _); auto.
  cbn [app] in Hs. apply flat_char_inv in Hs; [|discriminate].
  rewrite app_assoc in Hs. apply flat_group_inv in Hs.
  - destruct Hs as (_ & Hbad & _). now apply Hok in Hbad.
  - unfold no_close. rewrite forallb_app. fold (no_close code2) (no_close y).
    now rewrite Hc2, Hq.
Qed.

Lemma untagged_PCUS (z : str) : z <> [] -> ~ untagged (L "PCUS " ++ z).
Proof. intros Hz [H _]. apply H. now exists z. Qed.

Lemma untagged_UPCUSA (z : str) : z <> [] -> ~ untagged (L "UPCUSA " ++ z).
Proof. intros Hz [_ H]. apply H. now exists z. Qed.

Lemma tag_group_PCUS (x s : str) :
  PCUS_tag x ++ s = "["%char :: (L "PCUS " ++ x) ++ "]"%char :: s.
Proof. rewrite tag_cat_PCUS. cbn [L list_ascii_of_string app]. reflexivity. Qed.

Lemma tag_group_UPCUSA (y s : str) :
  UPCUSA_tag y ++ s = "["%char :: (L "UPCUSA " ++ y) ++ "]"%char :: s.
Proof.
  rewrite tag_cat_UPCUSA. cbn [L list_ascii_of_string app]. reflexivity.
Qed.

Lemma body_plain (code x : str) :
  plain code = true -> variant_text x = true -> plain (code ++ x) = true.
Proof.
  intros Hc Hx. apply variant_text_inv in Hx as (_ & H1 & H2).
  apply plain_app. split; auto. unfold plain. now rewrite H1, H2.
Qed.

Variables (g1 g2 : bool) (n : nat) (g3 g4 : bool) (m : nat).

(** The first substitution keeps the second run, the second one the first
    run: in both the UPCUSA text. *)
Hypothesis keep_PU : forall x y, nth (n - 1) (caps g1 x ++ caps g2 y) [] = y.
Hypothesis keep_UP : forall y x, nth (m - 1) (caps g3 y ++ caps g4 x) [] = y.

Local Abbreviation PU := (re_sub (PU_re g1 g2) [TGroup n]).
Local Abbreviation UP := (re_sub (UP_re g3 g4) [TGroup m]).
Local Abbreviation P := (re_sub pcus_re [TGroup 1]).
Local Abbreviation U := (re_sub upcusa_re [TGroup 1]).

Lemma resolve_steps (s : str) : resolve g1 g2 n g3 g4 m s = U (P (UP (PU s))).
Proof. reflexivity. Qed.

Lemma PU_led : bracket_led (PU_re g1 g2).
Proof. apply pair_form_led. Qed.

Lemma UP_led : bracket_led (UP_re g3 g4).
Proof. apply pair_form_led. Qed.

Lemma P_led : bracket_led pcus_re.
Proof. apply lone_form_led. Qed.

Lemma no_PCUS (s : str) :
  flat_with untagged s -> flat_with (fun b => ~ tag_body (L "PCUS ") b) s.
Proof. apply flat_with_weaken. unfold untagged. tauto. Qed.

Lemma no_UPCUSA (s : str) :
  flat_with untagged s -> flat_with (fun b => ~ tag_body (L "UPCUSA ") b) s.
Proof. apply flat_with_weaken. unfold untagged. tauto. Qed.

(** Where there is no tag, no substitution applies. *)
Lemma PU_fixed (s : str) : flat_with untagged s -> PU s = s.
Proof.
  intros H. apply no_PCUS in H.
  apply (pair_fixed (L "PCUS ") (L " [UPCUSA ") s g1 g2 n eq_refl H).
Qed.

Lemma UP_fixed (s : str) : flat_with untagged s -> UP s = s.
Proof.
  intros H. apply no_UPCUSA in H.
  apply (pair_fixed (L "UPCUSA ") (L " [PCUS ") s g3 g4 m eq_refl H).
Qed.

Lemma P_fixed (s : str) : flat_with untagged s -> P s = s.
Proof.
  intros H. apply no_PCUS in H. apply (lone_fixed (L "PCUS ") s eq_refl H).
Qed.

Lemma U_fixed (s : str) : flat_with untagged s -> U s = s.
Proof.
  intros H. apply no_UPCUSA in H.
  apply (lone_fixed (L "UPCUSA ") s eq_refl H).
Qed.

Variables (pre post x y : str).
Hypothesis Hpre : closed_with untagged pre.
Hypothesis Hpost : flat_with untagged post.
Hypothesis Hx : variant_text x = true.
Hypothesis Hy : variant_text y = true.

Lemma pre_no_PCUS : closed_with (fun b => ~ tag_body (L "PCUS ") b) pre.
Proof.
  eapply closed_with_weaken; [|exact Hpre]. unfold untagged. tauto.
Qed.

Lemma pre_no_UPCUSA : closed_with (fun b => ~ tag_body (L "UPCUSA ") b) pre.
Proof.
  eapply closed_with_weaken; [|exact Hpre]. unfold untagged. tauto.
Qed.

(** Every substitution walks through the front context. *)
Lemma PU_pass (s : str) : PU (pre ++ s) = pre ++ PU s.
Proof.
  apply (pass_pair (L "PCUS ") (L " [UPCUSA ") pre s g1 g2 n eq_refl).
  apply pre_no_PCUS.
Qed.

Lemma UP_pass (s : str) : UP (pre ++ s) = pre ++ UP s.
Proof.
  apply (pass_pair (L "UPCUSA ") (L " [PCUS ") pre s g3 g4 m eq_refl).
  apply pre_no_UPCUSA.
Qed.

Lemma P_pass (s : str) : P (pre ++ s) = pre ++ P s.
Proof. apply (pass_lone (L "PCUS ") pre s eq_refl). apply pre_no_PCUS. Qed.

Lemma U_pass (s : str) : U (pre ++ s) = pre ++ U s.
Proof.
  apply (pass_lone (L "UPCUSA ") pre s eq_refl). apply pre_no_UPCUSA.
Qed.

(** Once the tags are resolved to plain text [k], nothing else applies. *)
Lemma resolved_fixed (k : str) :
  variant_text k = true ->
  flat_with untagged (pre ++ k ++ post).
Proof.
  intros Hk. apply variant_text_inv in Hk as (_ & Hk & _).
  apply closed_then_flat; auto. now apply flat_text.
Qed.

Lemma text_x : x <> [] /\ no_open x = true /\ no_close x = true.
Proof. now apply variant_text_inv. Qed.

Lemma text_y : y <> [] /\ no_open y = true /\ no_close y = true.
Proof. now apply variant_text_inv. Qed.

(** *** The steps at the tags *)

Lemma PU_hit (s : str) :
  PU (PCUS_tag x ++ L " " ++ UPCUSA_tag y ++ s) = y ++ PU s.
Proof.
  destruct text_x as (Hx0 & _ & Hx2). destruct text_y as (Hy0 & _ & Hy2).
  rewrite tag_cat_PCUS. cbn [L list_ascii_of_string app].
  rewrite tag_cat_UPCUSA.
  pose proof (re_sub_pair_hit (L "[PCUS ") (L " [UPCUSA ") x y s g1 g2 n
                Hx0 Hx2 Hy0 Hy2) as H.
  rewrite keep_PU in H. exact H.
Qed.

Lemma UP_hit (s : str) :
  UP (UPCUSA_tag y ++ L " " ++ PCUS_tag x ++ s) = y ++ UP s.
Proof.
  destruct text_x as (Hx0 & _ & Hx2). destruct text_y as (Hy0 & _ & Hy2).
  rewrite tag_cat_UPCUSA. cbn [L list_ascii_of_string app].
  rewrite tag_cat_PCUS.
  pose proof (re_sub_pair_hit (L "[UPCUSA ") (L " [PCUS ") y x s g3 g4 m
                Hy0 Hy2 Hx0 Hx2) as H.
  rewrite keep_UP in H. exact H.
Qed.

Lemma P_hit (s : str) : P (PCUS_tag x ++ s) = x ++ P s.
Proof.
  destruct text_x as (Hx0 & _ & Hx2). rewrite tag_cat_PCUS.
  apply (re_sub_lone_hit (L "[PCUS ") x s Hx0 Hx2).
Qed.

Lemma U_hit (s : str) : U (UPCUSA_tag y ++ s) = y ++ U s.
Proof.
  destruct text_y as (Hy0 & _ & Hy2). rewrite tag_cat_UPCUSA.
  apply (re_sub_lone_hit (L "[UPCUSA ") y s Hy0 Hy2).
Qed.

(** A substitution that starts with the other code steps over a tag. *)
Lemma PU_skip_U (s : str) : PU (UPCUSA_tag y ++ s) = UPCUSA_tag y ++ PU s.
Proof.
  rewrite !tag_group_UPCUSA. apply re_sub_skip_group.
  - apply PU_led.
  - now apply body_plain.
  - now apply match_at_prefix_miss.
Qed.

Lemma UP_skip_P (s : str) : UP (PCUS_tag x ++ s) = PCUS_tag x ++ UP s.
Proof.
  rewrite !tag_group_PCUS. apply re_sub_skip_group.
  - apply UP_led.
  - now apply body_plain.
  - now apply match_at_prefix_miss.
Qed.

Lemma P_skip_U (s : str) : P (UPCUSA_tag y ++ s) = UPCUSA_tag y ++ P s.
Proof.
  rewrite !tag_group_UPCUSA. apply re_sub_skip_group.
  - apply P_led.
  - now apply body_plain.
  - now apply match_at_prefix_miss.
Qed.

Lemma PU_blank (s : str) : PU (L " " ++ s) = L " " ++ PU s.
Proof. apply led_miss; [apply PU_led | discriminate]. Qed.

(** A pair substitution steps over a tag of its first code when the back
    context follows. *)
Lemma PU_skip_P : PU (PCUS_tag x ++ post) = PCUS_tag x ++ post.
Proof.
  rewrite !tag_group_PCUS.
  rewrite re_sub_skip_group.
  - now rewrite PU_fixed.
  - apply PU_led.
  - now apply body_plain.
  - apply (pair_miss_flat untagged (L "PCUS ") (L "UPCUSA ")); auto.
    + pose proof (body_plain (L "PCUS ") x eq_refl Hx) as Hb.
      now apply plain_inv in Hb.
    + apply untagged_UPCUSA.
Qed.

Lemma UP_skip_U : UP (UPCUSA_tag y ++ post) = UPCUSA_tag y ++ post.
Proof.
  rewrite !tag_group_UPCUSA.
  rewrite re_sub_skip_group.
  - now rewrite UP_fixed.
  - apply UP_led.
  - now apply body_plain.
  - apply (pair_miss_flat untagged (L "UPCUSA ") (L "PCUS ")); auto.
    + pose proof (body_plain (L "UPCUSA ") y eq_refl Hy) as Hb.
      now apply plain_inv in Hb.
    + apply untagged_PCUS.
Qed.

(** *** The four cases *)

Lemma after_resolution (k : str) :
  variant_text k = true ->
  UP (pre ++ k ++ post) = pre ++ k ++ post
  /\ P (pre ++ k ++ post) = pre ++ k ++ post
  /\ U (pre ++ k ++ post) = pre ++ k ++ post.
Proof.
  intros Hk. pose proof (resolved_fixed k Hk) as F.
  now rewrite UP_fixed, P_fixed, U_fixed.
Qed.

(** The pair [[PCUS x] [UPCUSA y]]. *)
Lemma resolve_pcus_first :
  resolve g1 g2 n g3 g4 m (pre ++ pair_pcus_first x y ++ post)
  = pre ++ y ++ post.
Proof.
  destruct (after_resolution y Hy) as (E2 & E3 & E4).
  rewrite resolve_steps. unfold pair_pcus_first.
  rewrite <- !app_assoc, PU_pass, PU_hit, PU_fixed by auto.
  now rewrite E2, E3, E4.
Qed.

(** The pair [[UPCUSA y] [PCUS x]]. *)
Lemma resolve_upcusa_first :
  resolve g1 g2 n g3 g4 m (pre ++ pair_upcusa_first y x ++ post)
  = pre ++ y ++ post.
Proof.
  destruct (after_resolution y Hy) as (E2 & E3 & E4).
  rewrite resolve_steps. unfold pair_upcusa_first.
  rewrite <- !app_assoc, PU_pass, PU_skip_U, PU_blank, PU_skip_P.
  rewrite UP_pass, UP_hit, UP_fixed by auto.
  now rewrite E3, E4.
Qed.

(** A lone [[PCUS x]]. *)
Lemma resolve_pcus_alone :
  resolve g1 g2 n g3 g4 m (pre ++ PCUS_tag x ++ post) = pre ++ x ++ post.
Proof.
  destruct (after_resolution x Hx) as (E2 & E3 & E4).
  rewrite resolve_steps.
  rewrite PU_pass, PU_skip_P, UP_pass, UP_skip_P, UP_fixed by auto.
  rewrite P_pass, P_hit, P_fixed by auto.
  now rewrite E4.
Qed.

(** A lone [[UPCUSA y]]. *)
Lemma resolve_upcusa_alone :
  resolve g1 g2 n g3 g4 m (pre ++ UPCUSA_tag y ++ post) = pre ++ y ++ post.
Proof.
  rewrite resolve_steps.
  rewrite PU_pass, PU_skip_U, PU_fixed by auto.
  rewrite UP_pass, UP_skip_U, P_pass, P_skip_U, P_fixed by auto.
  now rewrite U_pass, U_hit, U_fixed by auto.
Qed.

End TagResolution.

Section VariantPolicy.

Variables (pre post x y : str).
Hypothesis Hpre : closed_with untagged pre.
Hypothesis Hpost : flat_with untagged post.
Hypothesis Hx : variant_text x = true.
Hypothesis Hy : variant_text y = true.

Lemma title_subs_resolve (s : str) :
  title_subs s = resolve true true 2 true true 1 s.
Proof. reflexivity. Qed.

Lemma content_subs_resolve (s : str) :
  content_subs s = resolve false true 1 true false 1 (strip_refs s).
Proof. reflexivity. Qed.

(** Reference codes are looked for on either side of a tag, never in it. *)
Lemma strip_refs_PCUS (t s : str) :
  variant_text t = true ->
  strip_refs (PCUS_tag t ++ s) = PCUS_tag t ++ strip_refs s.
Proof.
  intros Ht. rewrite !tag_group_PCUS. unfold strip_refs.
  apply re_sub_skip_group.
  - apply ref_re_led.
  - now apply body_plain.
  - cbn [L list_ascii_of_string app]. now apply ref_miss.
Qed.

Lemma strip_refs_UPCUSA (t s : str) :
  variant_text t = true ->
  strip_refs (UPCUSA_tag t ++ s) = UPCUSA_tag t ++ strip_refs s.
Proof.
  intros Ht. rewrite !tag_group_UPCUSA. unfold strip_refs.
  apply re_sub_skip_group.
  - apply ref_re_led.
  - now apply body_plain.
  - cbn [L list_ascii_of_string app]. now apply ref_miss.
Qed.

Lemma strip_refs_blank (s : str) :
  strip_refs (L " " ++ s) = L " " ++ strip_refs s.
Proof. apply strip_refs_text. reflexivity. Qed.

Lemma strip_refs_kept (k : str) :
  variant_text k = true ->
  strip_refs (pre ++ k ++ post) = strip_refs pre ++ k ++ strip_refs post.
Proof.
  intros Hk. apply variant_text_inv in Hk as (_ & Hk & _).
  rewrite (strip_refs_app_closed untagged) by auto.
  now rewrite strip_refs_text.
Qed.

Lemma cleaned_as_intro (s kept : str) :
  title_subs s = kept -> content_subs s = strip_refs kept ->
  cleaned_as s kept.
Proof.
  intros Ht Hc. split.
  - unfold clean_title. now rewrite Ht.
  - intros ls t E. unfold clean_content, tidy. now rewrite E, Hc.
Qed.

Lemma pcus_first_cleaned :
  cleaned_as (pre ++ pair_pcus_first x y ++ post) (pre ++ y ++ post).
Proof.
  apply cleaned_as_intro.
  - rewrite title_subs_resolve. now apply resolve_pcus_first.
  - rewrite content_subs_resolve, (strip_refs_kept y Hy).
    rewrite (strip_refs_app_closed untagged) by auto.
    unfold pair_pcus_first. rewrite <- !app_assoc.
    rewrite strip_refs_PCUS, strip_refs_blank, strip_refs_UPCUSA by auto.
    pose proof (resolve_pcus_first false true 1 true false 1
                  (fun _ _ => eq_refl)
                  (strip_refs pre) (strip_refs post) x y) as H.
    unfold pair_pcus_first in H. rewrite <- !app_assoc in H.
    apply H; auto using strip_refs_closed, strip_refs_flat.
Qed.

Lemma upcusa_first_cleaned :
  cleaned_as (pre ++ pair_upcusa_first y x ++ post) (pre ++ y ++ post).
Proof.
  apply cleaned_as_intro.
  - rewrite title_subs_resolve. now apply resolve_upcusa_first.
  - rewrite content_subs_resolve, (strip_refs_kept y Hy).
    rewrite (strip_refs_app_closed untagged) by auto.
    unfold pair_upcusa_first. rewrite <- !app_assoc.
    rewrite strip_refs_UPCUSA, strip_refs_blank, strip_refs_PCUS by auto.
    pose proof (resolve_upcusa_first false true 1 true false 1
                  (fun _ _ => eq_refl)
                  (strip_refs pre) (strip_refs post) x y) as H.
    unfold pair_upcusa_first in H. rewrite <- !app_assoc in H.
    apply H; auto using strip_refs_closed, strip_refs_flat.
Qed.

Lemma pcus_alone_cleaned :
  cleaned_as (pre ++ PCUS_tag x ++ post) (pre ++ x ++ post).
Proof.
  apply cleaned_as_intro.
  - rewrite title_subs_resolve. now apply resolve_pcus_alone.
  - rewrite content_subs_resolve, (strip_refs_kept x Hx).
    rewrite (strip_refs_app_closed untagged) by auto.
    rewrite strip_refs_PCUS by auto.
    apply (resolve_pcus_alone false true 1 true false 1);
      auto using strip_refs_closed, strip_refs_flat.
Qed.

Lemma upcusa_alone_cleaned :
  cleaned_as (pre ++ UPCUSA_tag y ++ post) (pre ++ y ++ post).
Proof.
  apply cleaned_as_intro.
  - rewrite title_subs_resolve. now apply resolve_upcusa_alone.
  - rewrite content_subs_resolve, (strip_refs_kept y Hy).
    rewrite (strip_refs_app_closed untagged) by auto.
    rewrite strip_refs_UPCUSA by auto.
    apply (resolve_upcusa_alone false true 1 true false 1);
      auto using strip_refs_closed, strip_refs_flat.
Qed.

End VariantPolicy.

Section AnnotatedStrings.

Lemma closed_char_inv (ok : str -> Prop) (c : ascii) (s : str) :
  c <> "["%char -> closed_with ok (c :: s) -> closed_with ok s.
Proof.
  intros Hc H. remember (c :: s) as w eqn:E.
  destruct H as [|c' s' _ H|b s' _ _ _]; [discriminate| |].
  - now injection E as _ ->.
  - injection E as E _. congruence.
Qed.

Lemma closed_plain_text (ok : str -> Prop) (k : str) :
  no_open k = true -> closed_with ok k.
Proof.
  induction k as [|c k IH]; [constructor|]. unfold no_open. cbn [forallb].
  intros H. apply andb_true_iff in H as [Hc H]. constructor; auto.
  intros ->. discriminate.
Qed.

Lemma tag_not_closed (code z rest : str) :
  no_close (code ++ z ++ "]"%char :: rest) = false.
Proof.
  unfold no_close. rewrite !forallb_app. cbn [forallb].
  replace (not_rbracket "]") with false by reflexivity.
  cbn [andb]. now rewrite !andb_false_r.
Qed.

Section OneCode.

Variable code : str.
Hypothesis code_plain : no_close code = true.
Hypothesis code_tags : forall z, z <> [] -> ~ untagged (code ++ z).

Lemma group_is_tag (b s z rest : str) :
  plain b = true -> no_close z = true ->
  "["%char :: b ++ "]"%char :: s = "["%char :: code ++ z ++ "]"%char :: rest ->
  b = code ++ z.
Proof.
  intros Hb Hz E. injection E as E. rewrite app_assoc in E.
  apply first_close_unique in E as [E _]; auto.
  - now apply plain_inv in Hb.
  - unfold no_close in *. rewrite forallb_app. now rewrite code_plain, Hz.
Qed.

Lemma head_tag_text (t s : str) :
  closed_with untagged t -> head_tag code (t ++ s) ->
  t = [] /\ head_tag code s.
Proof.
  intros Ht (z & rest & Hz & Hzc & E).
  destruct Ht as [|c t' Hc Ht'|b t' Hb Hok Ht'].
  - split; auto. now exists z, rest.
  - cbn [app] in E. injection E as E _. congruence.
  - exfalso. rewrite <- app_comm_cons, <- app_assoc in E.
    rewrite <- app_comm_cons in E.
    apply group_is_tag in E; auto. subst b. now apply (code_tags z).
Qed.

Lemma head_tag_flat (s : str) : flat_with untagged s -> ~ head_tag code s.
Proof.
  intros Hs (z & rest & Hz & Hzc & E).
  destruct Hs as [|c t' Hc Ht'|b t' Hb Hok Ht'|b Hb].
  - discriminate.
  - injection E as E _. congruence.
  - apply group_is_tag in E; auto. subst b. now apply (code_tags z).
  - injection E as E. apply plain_inv in Hb as [_ Hb].
    rewrite E, tag_not_closed in Hb. discriminate.
Qed.

Lemma head_tag_plain (y s : str) :
  y <> [] -> no_open y = true -> ~ head_tag code (y ++ s).
Proof.
  intros Hy Ho (z & rest & _ & _ & E). destruct y as [|c y]; [congruence|].
  cbn [app] in E. injection E as -> _. discriminate.
Qed.

Lemma lead_tag_text (t s : str) :
  closed_with untagged t -> lead_tag code (t ++ s) ->
  (t = [] /\ lead_tag code s) \/ (t = L " " /\ head_tag code s).
Proof.
  intros Ht (s' & E & H). destruct t as [|c t].
  - left. split; auto. now exists s'.
  - right. cbn [app] in E. injection E as -> <-.
    apply closed_char_inv in Ht; [|discriminate].
    apply head_tag_text in H as [-> H]; auto.
Qed.

Lemma lead_tag_flat (s : str) : flat_with untagged s -> ~ lead_tag code s.
Proof.
  intros Hs (s' & -> & H). apply flat_char_inv in Hs; [|discriminate].
  now apply head_tag_flat in H.
Qed.

Lemma lead_tag_bracket (s : str) : ~ lead_tag code ("["%char :: s).
Proof. intros (s' & E & _). discriminate. Qed.

End OneCode.

Lemma written_bracket (a : annotation) :
  exists s, written a = "["%char :: s.
Proof. destruct a; eexists; reflexivity. Qed.

Lemma head_tag_written_U (a : annotation) (s : str) :
  head_tag (L "UPCUSA ") (written a ++ s) -> starts_upcusa a = true.
Proof.
  intros (z & rest & _ & _ & E). destruct a; auto; discriminate.
Qed.

Lemma head_tag_written_P (a : annotation) (s : str) :
  head_tag (L "PCUS ") (written a ++ s) -> starts_upcusa a = false.
Proof.
  intros (z & rest & _ & _ & E). destruct a; auto; discriminate.
Qed.

Lemma pair_skip (code1 code2 b s : str) (g1 g2 : bool) (k : nat) :
  no_close code1 = true -> plain b = true -> ~ lead_tag code2 s ->
  re_sub (pair_form ("["%char :: code1)
            ("]"%char :: " "%char :: "["%char :: code2) g1 g2) [TGroup k]
         ("["%char :: b ++ "]"%char :: s)
  = "["%char :: b ++ "]"%char
      :: re_sub (pair_form ("["%char :: code1)
                   ("]"%char :: " "%char :: "["%char :: code2) g1 g2)
                [TGroup k] s.
Proof.
  intros Hc Hb Hs. apply re_sub_skip_group; auto.
  - apply pair_form_led.
  - destruct (match_at _ _) as [[gs rest]|] eqn:E; auto.
    apply pair_on_group in E as (x & y & _ & _ & Hy & Hyc & -> & _); auto.
    + exfalso. apply Hs. eexists. split; [reflexivity|]. now exists y, rest.
    + now apply plain_inv in Hb.
Qed.

Lemma well_formed_built (segs : list (str * annotation)) (post : str) :
  well_formed segs post = true -> well_built segs post.
Proof.
  unfold well_formed, well_built. intros H.
  apply andb_true_iff in H as [Hs Hp]. split.
  - apply Forall_forall. intros ta Hin. rewrite forallb_forall in Hs.
    specialize (Hs ta Hin). apply andb_true_iff in Hs as [H1 H2].
    split; auto. now apply context_before_closed.
  - now apply context_after_flat.
Qed.

Lemma well_built_cons (t : str) (a : annotation)
    (segs : list (str * annotation)) (post : str) :
  well_built ((t, a) :: segs) post ->
  closed_with untagged t /\ texts_ok a = true /\ well_built segs post.
Proof.
  intros [H Hp]. apply Forall_cons_iff in H as [[H1 H2] H].
  repeat split; auto.
Qed.

Lemma apart_tail (t : str) (a : annotation) (segs : list (str * annotation)) :
  apart ((t, a) :: segs) = true -> apart segs = true.
Proof.
  cbn [apart]. destruct segs as [|[t1 b] more]; auto. intros H.
  now apply andb_true_iff in H as [_ H].
Qed.

Lemma apart_junction (t t1 : str) (a b : annotation)
    (more : list (str * annotation)) :
  apart ((t, a) :: (t1, b) :: more) = true -> junction_ok a t1 b = true.
Proof.
  cbn [apart]. intros H. apply andb_true_iff in H as [H _].
  now apply andb_true_iff in H as [H _].
Qed.

Lemma apart_bridge (t t1 t2 : str) (a b c : annotation)
    (more : list (str * annotation)) :
  apart ((t, a) :: (t1, b) :: (t2, c) :: more) = true ->
  bridge a t1 b t2 c = false.
Proof.
  cbn [apart]. intros H. apply andb_true_iff in H as [H _].
  apply andb_true_iff in H as [_ H]. now apply negb_true_iff in H.
Qed.

Lemma str_eqb_refl (s : str) : str_eqb s s = true.
Proof. unfold str_eqb. destruct (list_eq_dec ascii_dec s s); congruence. Qed.

(** What may follow a tag that ends an annotation, in the string as it is
    written: never a blank and a tag of the other code. *)
Lemma after_P_end (t : str) (a : annotation)
    (segs : list (str * annotation)) (post : str) :
  well_built segs post -> apart ((t, a) :: segs) = true ->
  ends_upcusa a = false ->
  ~ lead_tag (L "UPCUSA ") (render written segs post).
Proof.
  intros W A Ha H. destruct segs as [|[t1 b] more].
  - cbn [render] in H. destruct W as [_ W].
    now apply (lead_tag_flat (L "UPCUSA ") eq_refl untagged_UPCUSA) in H.
  - apply well_built_cons in W as (Ht1 & _ & _). cbn [render] in H.
    apply (lead_tag_text (L "UPCUSA ") eq_refl untagged_UPCUSA) in H
      as [[_ H]|[-> H]]; auto.
    + destruct (written_bracket b) as [s E]. rewrite E in H.
      now apply lead_tag_bracket in H.
    + apply head_tag_written_U in H. apply apart_junction in A.
      unfold junction_ok in A. rewrite str_eqb_refl, Ha, H in A.
      destruct a; try discriminate Ha. all: destruct b; discriminate.
Qed.

(** The same once the pairs in the order PCUS, UPCUSA are resolved. *)
Lemma after_U_end (t : str) (y : str)
    (segs : list (str * annotation)) (post : str) :
  well_built segs post -> apart ((t, LoneU y) :: segs) = true ->
  ~ lead_tag (L "PCUS ") (render after_PU segs post).
Proof.
  intros W A H. destruct segs as [|[t1 b] more].
  - cbn [render] in H. destruct W as [_ W].
    now apply (lead_tag_flat (L "PCUS ") eq_refl untagged_PCUS) in H.
  - apply well_built_cons in W as (Ht1 & Hb & W). cbn [render] in H.
    assert (Other : pcus_first b = false -> False).
    { intros E.
      assert (Eb : after_PU b = written b) by (destruct b; auto; discriminate).
      rewrite Eb in H.
      apply (lead_tag_text (L "PCUS ") eq_refl untagged_PCUS) in H
        as [[_ H]|[-> H]]; auto.
      - destruct (written_bracket b) as [s Es]. rewrite Es in H.
        now apply lead_tag_bracket in H.
      - apply head_tag_written_P in H. apply apart_junction in A.
        unfold junction_ok in A. rewrite str_eqb_refl, H, E in A.
        discriminate. }
    destruct b as [x' y'|y' x'|x'|y']; try (now apply Other).
    clear Other. cbn [after_PU] in H. cbn [texts_ok] in Hb.
    apply andb_true_iff in Hb as [_ Hy'].
    apply variant_text_inv in Hy' as (Hy0 & Hyo & _).
    apply (lead_tag_text (L "PCUS ") eq_refl untagged_PCUS) in H
      as [[-> H]|[_ H]]; auto.
    + destruct H as (s' & E & H). destruct y' as [|c y']; [congruence|].
      cbn [app] in E. injection E as -> <-.
      destruct y' as [|d y'].
      * cbn [app] in H. destruct more as [|[t2 c] more'].
        -- cbn [render] in H. destruct W as [_ W].
           now apply (head_tag_flat (L "PCUS ") eq_refl untagged_PCUS) in H.
        -- apply well_built_cons in W as (Ht2 & Hc & _). cbn [render] in H.
           apply (head_tag_text (L "PCUS ") eq_refl untagged_PCUS) in H
             as [-> H]; auto.
           apply apart_bridge in A.
           destruct c as [x2 y2|y2 x2|x2|y2].
           ++ cbn [after_PU texts_ok] in *.
              apply andb_true_iff in Hc as [_ Hc].
              apply variant_text_inv in Hc as (H0 & Ho & _).
              now apply head_tag_plain in H.
           ++ apply (head_tag_written_P (PairUP y2 x2)) in H. discriminate.
           ++ cbn [bridge app] in A. rewrite str_eqb_refl in A.
              discriminate.
           ++ apply (head_tag_written_P (LoneU y2)) in H. discriminate.
      * unfold no_open in Hyo. cbn [forallb] in Hyo.
        apply andb_true_iff in Hyo as [_ Hyo].
        apply (head_tag_plain (L "PCUS ") (d :: y')) in H; auto.
        discriminate.
    + now apply head_tag_plain in H.
Qed.

Variables (g1 g2 : bool) (n : nat) (g3 g4 : bool) (m : nat).
Hypothesis keep_PU : forall x y, nth (n - 1) (caps g1 x ++ caps g2 y) [] = y.
Hypothesis keep_UP : forall y x, nth (m - 1) (caps g3 y ++ caps g4 x) [] = y.

Local Abbreviation PU := (re_sub (PU_re g1 g2) [TGroup n]).
Local Abbreviation UP := (re_sub (UP_re g3 g4) [TGroup m]).
Local Abbreviation P := (re_sub pcus_re [TGroup 1]).
Local Abbreviation U := (re_sub upcusa_re [TGroup 1]).

Lemma PU_over_P (x s : str) :
  variant_text x = true -> ~ lead_tag (L "UPCUSA ") s ->
  PU (PCUS_tag x ++ s) = PCUS_tag x ++ PU s.
Proof.
  intros Hx Hs. rewrite !tag_group_PCUS.
  apply (pair_skip (L "PCUS ") (L "UPCUSA ")); auto.
  now apply body_plain.
Qed.

Lemma UP_over_U (y s : str) :
  variant_text y = true -> ~ lead_tag (L "PCUS ") s ->
  UP (UPCUSA_tag y ++ s) = UPCUSA_tag y ++ UP s.
Proof.
  intros Hy Hs. rewrite !tag_group_UPCUSA.
  apply (pair_skip (L "UPCUSA ") (L "PCUS ")); auto.
  now apply body_plain.
Qed.

Lemma UP_blank (s : str) : UP (L " " ++ s) = L " " ++ UP s.
Proof. apply led_miss; [apply UP_led | discriminate]. Qed.

(** The first substitution resolves the pairs in the order PCUS, UPCUSA
    and nothing else. *)
Lemma PU_render (segs : list (str * annotation)) (post : str) :
  well_built segs post -> apart segs = true ->
  PU (render written segs post) = render after_PU segs post.
Proof.
  induction segs as [|[t a] segs IH]; intros W A.
  - cbn [render]. destruct W as [_ W]. now apply PU_fixed.
  - pose proof W as W0. apply well_built_cons in W as (Ht & Ha & W).
    specialize (IH W (apart_tail _ _ _ A)).
    cbn [render]. rewrite PU_pass by exact Ht. f_equal.
    destruct a as [x y|y x|x|y]; cbn [written after_PU texts_ok] in *.
    + apply andb_true_iff in Ha as [Hx Hy]. unfold pair_pcus_first.
      rewrite <- !app_assoc, (PU_hit g1 g2 n keep_PU x y Hx Hy).
      now rewrite IH.
    + apply andb_true_iff in Ha as [Hy Hx]. unfold pair_upcusa_first.
      rewrite <- !app_assoc, PU_skip_U, PU_blank by exact Hy.
      rewrite PU_over_P, IH; auto.
      now apply (after_P_end t (PairUP y x)).
    + rewrite PU_over_P, IH; auto. now apply (after_P_end t (LoneP x)).
    + now rewrite PU_skip_U, IH.
Qed.

(** The second one resolves the pairs in the order UPCUSA, PCUS. *)
Lemma UP_render (segs : list (str * annotation)) (post : str) :
  well_built segs post -> apart segs = true ->
  UP (render after_PU segs post) = render after_UP segs post.
Proof.
  induction segs as [|[t a] segs IH]; intros W A.
  - cbn [render]. destruct W as [_ W]. now apply UP_fixed.
  - apply well_built_cons in W as (Ht & Ha & W).
    specialize (IH W (apart_tail _ _ _ A)).
    cbn [render]. rewrite UP_pass by exact Ht. f_equal.
    destruct a as [x y|y x|x|y]; cbn [written after_PU after_UP texts_ok] in *.
    + apply andb_true_iff in Ha as [_ Hy].
      apply variant_text_inv in Hy as (_ & Hy & _).
      rewrite UP_pass by now apply closed_plain_text. now rewrite IH.
    + apply andb_true_iff in Ha as [Hy Hx]. unfold pair_upcusa_first.
      rewrite <- !app_assoc, (UP_hit g3 g4 m keep_UP x y Hx Hy).
      now rewrite IH.
    + now rewrite UP_skip_P, IH.
    + rewrite UP_over_U, IH; auto. now apply (after_U_end t y).
Qed.

(** The third one unwraps the PCUS tags that are left. *)
Lemma P_render (segs : list (str * annotation)) (post : str) :
  well_built segs post ->
  P (render after_UP segs post) = render after_P segs post.
Proof.
  induction segs as [|[t a] segs IH]; intros W.
  - cbn [render]. destruct W as [_ W]. now apply P_fixed.
  - apply well_built_cons in W as (Ht & Ha & W). specialize (IH W).
    cbn [render]. rewrite P_pass by exact Ht. f_equal.
    destruct a as [x y|y x|x|y];
      cbn [written resolved after_UP after_P texts_ok] in *.
    + apply andb_true_iff in Ha as [_ Hy].
      apply variant_text_inv in Hy as (_ & Hy & _).
      rewrite P_pass by now apply closed_plain_text. now rewrite IH.
    + apply andb_true_iff in Ha as [Hy _].
      apply variant_text_inv in Hy as (_ & Hy & _).
      rewrite P_pass by now apply closed_plain_text. now rewrite IH.
    + now rewrite P_hit, IH.
    + now rewrite P_skip_U, IH.
Qed.

(** The last one unwraps the UPCUSA tags that are left. *)
Lemma U_render (segs : list (str * annotation)) (post : str) :
  well_built segs post ->
  U (render after_P segs post) = render resolved segs post.
Proof.
  induction segs as [|[t a] segs IH]; intros W.
  - cbn [render]. destruct W as [_ W]. now apply U_fixed.
  - apply well_built_cons in W as (Ht & Ha & W). specialize (IH W).
    cbn [render]. rewrite U_pass by exact Ht. f_equal.
    destruct a as [x y|y x|x|y]; cbn [resolved after_P texts_ok] in *.
    + apply andb_true_iff in Ha as [_ Hy].
      apply variant_text_inv in Hy as (_ & Hy & _).
      rewrite U_pass by now apply closed_plain_text. now rewrite IH.
    + apply andb_true_iff in Ha as [Hy _].
      apply variant_text_inv in Hy as (_ & Hy & _).
      rewrite U_pass by now apply closed_plain_text. now rewrite IH.
    + apply variant_text_inv in Ha as (_ & Hx & _).
      rewrite U_pass by now apply closed_plain_text. now rewrite IH.
    + now rewrite U_hit, IH.
Qed.

(** The four substitutions together. *)
Lemma resolve_render (segs : list (str * annotation)) (post : str) :
  well_built segs post -> apart segs = true ->
  resolve g1 g2 n g3 g4 m (render written segs post)
  = render resolved segs post.
Proof.
  intros W A. unfold resolve.
  now rewrite PU_render, UP_render, P_render, U_render.
Qed.

End AnnotatedStrings.

Section ReferenceCodesAroundTags.

Lemma strip_refs_written (a : annotation) (s : str) :
  texts_ok a = true ->
  strip_refs (written a ++ s) = written a ++ strip_refs s.
Proof.
  destruct a as [x y|y x|x|y]; cbn [written texts_ok]; intros H.
  - apply andb_true_iff in H as [Hx Hy]. unfold pair_pcus_first.
    rewrite <- !app_assoc.
    now rewrite strip_refs_PCUS, strip_refs_blank, strip_refs_UPCUSA.
  - apply andb_true_iff in H as [Hy Hx]. unfold pair_upcusa_first.
    rewrite <- !app_assoc.
    now rewrite strip_refs_UPCUSA, strip_refs_blank, strip_refs_PCUS.
  - now apply strip_refs_PCUS.
  - now apply strip_refs_UPCUSA.
Qed.

Lemma strip_refs_resolved (a : annotation) (s : str) :
  texts_ok a = true ->
  strip_refs (resolved a ++ s) = resolved a ++ strip_refs s.
Proof.
  intros H. apply strip_refs_text.
  destruct a as [x y|y x|x|y]; cbn [resolved texts_ok] in *;
    try apply andb_true_iff in H as [H1 H2];
    apply variant_text_inv; assumption || (now apply variant_text_inv).
Qed.

Lemma strip_refs_render (f : annotation -> str)
    (segs : list (str * annotation)) (post : str) :
  (forall a s, texts_ok a = true ->
               strip_refs (f a ++ s) = f a ++ strip_refs s) ->
  well_built segs post ->
  strip_refs (render f segs post)
  = render f (without_refs segs) (strip_refs post).
Proof.
  intros Hf. induction segs as [|[t a] segs IH]; intros W; [reflexivity|].
  apply well_built_cons in W as (Ht & Ha & W).
  cbn [render without_refs map fst snd].
  rewrite (strip_refs_app_closed untagged) by exact Ht.
  rewrite Hf by exact Ha. now rewrite IH.
Qed.

Lemma well_built_without_refs (segs : list (str * annotation)) (post : str) :
  well_built segs post -> well_built (without_refs segs) (strip_refs post).
Proof.
  intros [H Hp]. split; [|now apply strip_refs_flat].
  unfold without_refs. apply Forall_map.
  eapply Forall_impl; [|exact H]. cbn [fst snd].
  intros [t a] [H1 H2]. split; auto. now apply strip_refs_closed.
Qed.

End ReferenceCodesAroundTags.


(** C1, as stated, fails on the pair in the order UPCUSA, PCUS: the text
    kept is the first-named code's ([civil]), not the second-named one's
    ([royal]), by [clean_title] and by [clean_content] alike.  The last two
    lines show what else the claim has to say: of two pairs that share a
    tag only the one in the order PCUS, UPCUSA is resolved as a pair (the
    PCUS text [c] is kept), and a tag with no text is not unwrapped. *)
Lemma upcusa_first_keeps_first_named :
  clean_title (pair_upcusa_first (L "civil") (L "royal")) = L "civil"
  /\ clean_title (pair_upcusa_first (L "civil") (L "royal")) <> L "royal"
  /\ clean_content [pair_upcusa_first (L "civil") (L "royal")] None
     = L "civil"
  /\ clean_content [pair_upcusa_first (L "civil") (L "royal")] None
     <> L "royal"
  /\ clean_title (L "[PCUS a] [UPCUSA b] [PCUS c]") = L "b c"
  /\ clean_title (L "[PCUS ]") = L "[PCUS ]".
Proof.
  assert (T : clean_title (pair_upcusa_first (L "civil") (L "royal"))
              = L "civil") by (vm_compute; reflexivity).
  assert (C : clean_content [pair_upcusa_first (L "civil") (L "royal")] None
              = L "civil") by (vm_compute; reflexivity).
  rewrite T, C. repeat split; try discriminate; vm_compute; reflexivity.
Qed.

(** C1 (amended): take a string with any number of annotations, each an
    adjacent pair ([[PCUS x] [UPCUSA y]] or [[UPCUSA y] [PCUS x]]) or a
    lone tag, with non-empty bracket-free texts, standing in text that
    holds no further variant tag and no nested bracket.  Let the
    annotations be read the way the code pairs tags: a lone tag or a pair
    in the order UPCUSA, PCUS is not a single blank away from a tag of the
    other code (its partner excepted), and resolving the pairs in the
    order PCUS, UPCUSA leaves no lone UPCUSA tag a single blank in front
    of a lone PCUS tag.  Then [clean_title] resolves every pair, in either
    order, to its UPCUSA text [y], unwraps every lone tag to its text, and
    leaves the text around them as it is.  So does [clean_content], where
    the condition is read once the reference codes are removed, as they
    are first. *)
Theorem variant_resolution_keeps_upcusa (segs : list (str * annotation))
    (post : str) :
  well_formed segs post = true ->
  (apart segs = true ->
   clean_title (render written segs post)
   = strip (render resolved segs post))
  /\ (apart (without_refs segs) = true ->
      forall content_lines title_,
        join (L " ") content_lines = render written segs post ->
        clean_content content_lines title_
        = tidy title_ (strip_refs (render resolved segs post))).
Proof.
  intros W. apply well_formed_built in W. split.
  - intros A. unfold clean_title. rewrite title_subs_resolve.
    now rewrite (resolve_render true true 2 true true 1
                   (fun _ _ => eq_refl) (fun _ _ => eq_refl)).
  - intros A ls t E. unfold clean_content, tidy. cbv zeta.
    rewrite E, content_subs_resolve.
    rewrite (strip_refs_render written) by auto using strip_refs_written.
    rewrite (resolve_render false true 1 true false 1
               (fun _ _ => eq_refl) (fun _ _ => eq_refl));
      [| now apply well_built_without_refs | exact A].
    now rewrite (strip_refs_render resolved)
      by auto using strip_refs_resolved.
Qed.

Lemma variant_resolution_keeps_upcusa_witness :
  let segs :=
    [ (L "[6.127] Of ", PairPU (L "Civil") (L "Civil Government"));
      (L " and ", PairUP (L "the Church") (L "the Kirk"));
      (L " ", LoneP (L "lawful"));
      (L " [6.128] or ", LoneU (L "Oaths")) ] in
  let post := L " Matters [a note" in
  clean_title (render written segs post)
  = strip (render resolved segs post)
  /\ clean_content [render written segs post] None
     = tidy None (strip_refs (render resolved segs post)).
Proof.
  intros segs post.
  destruct (variant_resolution_keeps_upcusa segs post) as [T C];
    [reflexivity|].
  split.
  - apply T. reflexivity.
  - apply C; reflexivity.
Defined.

(** Two pairs in one title are both resolved; the other three show what
    the reading of the annotations excludes: tags that alternate are paired
    from the order PCUS, UPCUSA first (the PCUS text [d] is kept), a pair
    whose kept text is a blank can bring two tags together, and in content
    the removal of a reference code can. *)
Example two_pairs_resolved :
  clean_title (L "[PCUS a] [UPCUSA b] and [PCUS c] [UPCUSA d]") = L "b and d".
Proof. vm_compute. reflexivity. Qed.

Example alternating_tags_paired_pcus_first :
  clean_title (L "[UPCUSA a] [PCUS b] [UPCUSA c] [PCUS d]") = L "a c d".
Proof. vm_compute. reflexivity. Qed.

Example blank_pair_brings_tags_together :
  clean_title (L "[UPCUSA a][PCUS x] [UPCUSA  ][PCUS c]") = L "a".
Proof. vm_compute. reflexivity. Qed.

Example reference_code_between_tags :
  clean_title (L "[PCUS a] [6.001][UPCUSA b]") = L "a [6.001]b"
  /\ clean_content [L "[PCUS a] [6.001][UPCUSA b]"] None = L "b".
Proof. vm_compute. split; reflexivity. Qed.


(* ================================================================== *)
(** ** The worked examples of the specification *)

Example paired_variant_title :
  clean_title (L "Of [PCUS Civil] [UPCUSA Civil Government] Matters")
  = L "Of Civil Government Matters".
Proof. vm_compute. reflexivity. Qed.

Example lone_variant_content :
  clean_content [L "the [UPCUSA civil magistrate] shall"] None
  = L "the civil magistrate shall".
Proof. vm_compute. reflexivity. Qed.

Example book_list_line_filtered :
  map content
    (parse_westminster
       (map L [ "CHAPTER I (PCUS)"; "Of Marriage"; "";
                "The man is the head."; "I Corinthians 11:3";
                "Genesis 2:24"; "So it is written." ]%string))
  = [L "The man is the head. So it is written."].
Proof. vm_compute. reflexivity. Qed.

Example topic_fallback : get_topics (L "Of Saints") = [L "theology"].
Proof. vm_compute. reflexivity. Qed.

Example overlapping_topics_kept :
  get_topics (L "Of Providence and Creation")
  = map L ["creation"; "providence"; "providence"; "sovereignty"]%string.
Proof. vm_compute. reflexivity. Qed.

(* ================================================================== *)
(** ** The segmenter, chapter by chapter *)

Section Segmentation.

Lemma split_chapters_lines (lines : list str) :
  lines = fst (split_chapters lines)
          ++ chapter_lines (snd (split_chapters lines)).
Proof.
  induction lines as [|raw rest IH]; auto.
  cbn [split_chapters]. destruct (split_chapters rest) as [front chs].
  cbn [fst snd] in IH.
  destruct (is_header (strip raw)); cbn [fst snd chapter_lines flat_map app];
    fold (chapter_lines chs); now rewrite IH at 1.
Qed.

Lemma split_chapters_front (lines : list str) :
  forallb not_header (fst (split_chapters lines)) = true.
Proof.
  induction lines as [|raw rest IH]; auto.
  cbn [split_chapters]. destruct (split_chapters rest) as [front chs].
  cbn [fst] in IH.
  destruct (is_header (strip raw)) eqn:E; cbn [fst forallb]; auto.
  unfold not_header at 1. now rewrite E, IH.
Qed.

Lemma split_chapters_valid (lines : list str) :
  Forall (fun ch => is_header (strip (fst ch)) = true
                    /\ forallb not_header (snd ch) = true)
         (snd (split_chapters lines)).
Proof.
  induction lines as [|raw rest IH]; [constructor|].
  cbn [split_chapters].
  pose proof (split_chapters_front rest) as F.
  destruct (split_chapters rest) as [front chs]. cbn [fst snd] in *.
  destruct (is_header (strip raw)) eqn:E; cbn [snd]; auto.
Qed.

Lemma split_chapters_count (lines : list str) :
  length (snd (split_chapters lines)) = count_headers lines.
Proof.
  unfold count_headers. induction lines as [|raw rest IH]; auto.
  cbn [split_chapters filter]. destruct (split_chapters rest) as [front chs].
  cbn [snd] in IH. destruct (is_header (strip raw)); cbn [snd length]; auto.
Qed.

(** What [emit] returns does not depend on the sections emitted so far. *)
Lemma emit_sections_irrelevant (secs secs' : list Section_) k t buf n n' :
  emit (mkState secs k t buf n) = emit (mkState secs' k t buf n').
Proof. reflexivity. Qed.

(** One chapter: a header, then its own lines. *)
Lemma loop_chapter (st : state) (h : str) (body rest : list str) :
  is_header (strip h) = true -> forallb not_header body = true ->
  loop st (h :: body ++ rest)
  = loop (mkState (save st) (Some (S (chapter_num st)))
            (lookahead (body ++ rest))
            (collected (lookahead (body ++ rest)) body)
            (S (chapter_num st)))
         rest.
Proof.
  intros Hh Hb. cbn [loop]. rewrite step_header by auto.
  rewrite loop_app by auto. now rewrite (loop_collects body) by auto.
Qed.

Lemma loop_chapters (chs : list (str * list str)) (st : state) :
  Forall (fun ch => is_header (strip (fst ch)) = true
                    /\ forallb not_header (snd ch) = true) chs ->
  save (loop st (chapter_lines chs))
  = save st ++ chapter_sections (chapter_num st) chs.
Proof.
  revert st; induction chs as [|[h body] more IH]; intros st V.
  - cbn. now rewrite app_nil_r.
  - inversion V as [|? ? [Hh Hb] V']; subst. cbn [fst snd] in *.
    cbn [chapter_lines flat_map fst snd app]. fold (chapter_lines more).
    rewrite loop_chapter by auto. rewrite IH by auto.
    cbn [chapter_num chapter_sections]. rewrite app_assoc. f_equal.
Qed.

End Segmentation.

(** X1: the segmenter works chapter by chapter.  Cut the input at its
    header lines; the lines before the first header play no part; the
    chapter opened by the k-th header gets the number k, its title from the
    lookahead over the lines after its header, and its content from its
    own lines alone; the output is the sections of the chapters in order.
    There are as many chapters as header lines. *)
Theorem parse_by_chapters (lines : list str) :
  lines = fst (split_chapters lines)
          ++ chapter_lines (snd (split_chapters lines))
  /\ length (snd (split_chapters lines)) = count_headers lines
  /\ parse_westminster lines
     = chapter_sections 0 (snd (split_chapters lines)).
Proof.
  split; [apply split_chapters_lines|]. split; [apply split_chapters_count|].
  unfold parse_westminster.
  rewrite (split_chapters_lines lines) at 1.
  rewrite loop_app by apply split_chapters_front.
  rewrite loop_front by apply split_chapters_front.
  now rewrite loop_chapters by apply split_chapters_valid.
Qed.

(* ================================================================== *)
(** ** What is collected as content *)

Section Collected.

Lemma strip_strip_eq (s : str) : strip (strip s) = strip s.
Proof. apply strip_idem. Qed.

(** The invariant: a title begins with the lead-in word, and every
    collected line passed the tests of the loop under the title the
    chapter still has. *)
Lemma step_collects_clean (st : state) raw rest :
  (title_ok st
   /\ Forall (fun l => strip l = l
                       /\ is_noise l (current_title st) = false
                       /\ is_book_list l = false)
             (current_content st)) ->
  title_ok (step st raw rest)
  /\ Forall (fun l => strip l = l
                      /\ is_noise l (current_title (step st raw rest)) = false
                      /\ is_book_list l = false)
            (current_content (step st raw rest)).
Proof.
  intros [Ht Hc]. split; [now apply step_title_ok|].
  unfold step. destruct (is_header (strip raw)); [constructor|].
  destruct (is_noise (strip raw) (current_title st)) eqn:En; auto.
  destruct (current_chapter st); auto.
  destruct (is_book_list (strip raw)) eqn:Eb; auto.
  cbn [current_content current_title]. apply Forall_app. split; auto.
  constructor; [|constructor]. repeat split; auto. apply strip_idem.
Qed.

Lemma noise_of_title (t : str) :
  starts_with_Of t = true -> is_noise t (Some t) = true.
Proof.
  intros H. unfold is_noise. unfold starts_with_Of in H. rewrite H.
  assert (E : str_eqb t t = true).
  { unfold str_eqb. destruct (list_eq_dec ascii_dec t t); congruence. }
  rewrite E. cbn [andb]. now rewrite !orb_true_r.
Qed.

End Collected.

(** X2: at every point where a chapter is closed, each collected content
    line is trimmed and non-empty, is none of the lines the loop skips
    (boilerplate, [CHAPTER] lines, testament dividers), is no book-list
    line, and is not the chapter's raw title. *)
Theorem collected_lines_clean (lines : list str) (st : state) (l : str) :
  In st (save_points init lines) -> In l (current_content st) ->
  strip l = l
  /\ l <> []
  /\ is_noise l (current_title st) = false
  /\ is_book_list l = false
  /\ current_title st <> Some l.
Proof.
  intros Hst Hl.
  pose proof (save_points_Forall _ step_collects_clean lines init) as F.
  rewrite Forall_forall in F.
  destruct (F (conj init_title_ok (Forall_nil _)) st Hst) as [Ht Hc].
  rewrite Forall_forall in Hc. destruct (Hc l Hl) as (H1 & H2 & H3).
  repeat split; auto.
  - intros ->. discriminate.
  - intros E. rewrite E in H2.
    rewrite noise_of_title in H2; [discriminate|]. now apply Ht.
Qed.

Lemma collected_lines_clean_witness :
  strip (L "God is one.") = L "God is one."
  /\ L "God is one." <> []
  /\ is_noise (L "God is one.") (Some (L "Of God")) = false
  /\ is_book_list (L "God is one.") = false
  /\ Some (L "Of God") <> Some (L "God is one.").
Proof.
  apply (collected_lines_clean
           (map L ["CHAPTER I (PCUS)"; "Of God"; ""; " God is one. "]%string)
           (mkState [] (Some 1) (Some (L "Of God")) [L "God is one."] 1)
           (L "God is one.")).
  - vm_compute. right. left. reflexivity.
  - vm_compute. left. reflexivity.
Defined.

(* ================================================================== *)
(** ** The title lookahead *)

Section Lookahead.

Lemma scan_title_extends (ls : list str) (acc : list str) :
  exists more, scan_title acc ls = acc ++ more.
Proof.
  revert acc; induction ls as [|raw ls IH]; intros acc; cbn [scan_title].
  - exists []. now rewrite app_nil_r.
  - destruct (startswith (strip raw) (L "Of ")).
    + destruct (IH (acc ++ [strip raw])) as [more ->].
      exists (strip raw :: more). now rewrite <- app_assoc.
    + destruct acc as [|a acc]; [apply IH|].
      destruct (strip raw) as [|c l]; [exists []; now rewrite app_nil_r|].
      destruct (negb _); [|exists []; now rewrite app_nil_r].
      destruct (IH ((a :: acc) ++ [c :: l])) as [more ->].
      exists ((c :: l) :: more). now rewrite <- app_assoc.
Qed.

Lemma scan_title_none (ls : list str) :
  scan_title [] ls = [] <-> forallb no_lead_in ls = true.
Proof.
  induction ls as [|raw ls IH]; cbn [scan_title forallb]; [tauto|].
  unfold no_lead_in at 1.
  destruct (startswith (strip raw) (L "Of ")); cbn [negb andb].
  - split; [|discriminate]. intros E.
    destruct (scan_title_extends ls ([] ++ [strip raw])) as [more E'].
    rewrite E' in E. discriminate.
  - exact IH.
Qed.

Lemma scan_title_skip (skipped ls : list str) :
  forallb no_lead_in skipped = true ->
  scan_title [] (skipped ++ ls) = scan_title [] ls.
Proof.
  induction skipped as [|raw sk IH]; auto. cbn [forallb]. intros H.
  apply andb_true_iff in H as [Hr H]. unfold no_lead_in in Hr.
  apply negb_true_iff in Hr. cbn [app scan_title]. rewrite Hr. auto.
Qed.

Lemma scan_title_take (ls tail : list str) (a : str) (acc : list str) :
  forallb continues_title ls = true ->
  scan_title (a :: acc) (ls ++ tail)
  = scan_title ((a :: acc) ++ map strip ls) tail.
Proof.
  revert a acc; induction ls as [|raw ls IH]; intros a acc H.
  - cbn. now rewrite app_nil_r.
  - cbn [forallb] in H. apply andb_true_iff in H as [Hr H].
    unfold continues_title in Hr. cbn [app scan_title map].
    destruct (startswith (strip raw) (L "Of ")) eqn:E.
    + change ((a :: acc) ++ [strip raw]) with (a :: acc ++ [strip raw]).
      rewrite IH by auto. cbn [app]. now rewrite <- app_assoc.
    + cbn [orb] in Hr. destruct (strip raw) as [|c l] eqn:Es;
        [discriminate|]. cbn [andb] in Hr. rewrite Hr.
      change ((a :: acc) ++ [c :: l]) with (a :: acc ++ [c :: l]).
      rewrite IH by auto. cbn [app]. now rewrite <- app_assoc.
Qed.

Lemma scan_title_stop (stop : str) (tail : list str) (a : str)
    (acc : list str) :
  continues_title stop = false -> scan_title (a :: acc) (stop :: tail) = a :: acc.
Proof.
  unfold continues_title. intros H. cbn [scan_title].
  apply orb_false_iff in H as [H1 H2]. rewrite H1.
  destruct (strip stop) as [|c l]; auto. cbn [andb] in H2. now rewrite H2.
Qed.

End Lookahead.

(** X3: the lookahead is bounded.  A chapter gets no title exactly when
    none of the (at most) nine lines after its header starts, once trimmed,
    with [Of ]; such a chapter emits nothing, whatever its content and
    whatever comes after the ninth line. *)
Theorem lookahead_none_iff (rest : list str) :
  (lookahead rest = None <-> forallb no_lead_in (firstn 9 rest) = true)
  /\ (forallb no_lead_in (firstn 9 rest) = true ->
      forall secs k buf n,
        emit (mkState secs (Some k) (lookahead rest) buf n) = []).
Proof.
  assert (E : lookahead rest = None
              <-> forallb no_lead_in (firstn 9 rest) = true).
  { unfold lookahead. rewrite <- scan_title_none.
    destruct (scan_title [] (firstn 9 rest)); split; congruence. }
  split; auto. intros H secs k buf n. apply E in H. unfold emit.
  cbn [current_chapter current_title]. now rewrite H.
Qed.

Lemma lookahead_none_iff_witness :
  emit (mkState [] (Some 1)
          (lookahead
             (map L [""; "1"; "2"; "3"; "4"; "5"; "6"; "7"; "8";
                     "Of God"; "God is one."]%string))
          [L "God is one."] 1) = [].
Proof.
  apply (proj2 (lookahead_none_iff
                  (map L [""; "1"; "2"; "3"; "4"; "5"; "6"; "7"; "8";
                          "Of God"; "God is one."]%string))).
  vm_compute. reflexivity.
Defined.

(** X4: how a title is rebuilt.  After lines without the lead-in word, let
    a line start with [Of ] and be followed by lines that continue the
    title, all within nine lines of the header; let the next line of the
    window, if there is one, not continue it (it is blank or starts with a
    bracket).  Then the title is these lines, trimmed and joined by single
    blanks. *)
Theorem lookahead_title (skipped : list str) (first : str)
    (more tail : list str) :
  forallb no_lead_in skipped = true ->
  startswith (strip first) (L "Of ") = true ->
  forallb continues_title more = true ->
  length (skipped ++ first :: more) <= 9 ->
  (forall stop,
      hd_error (firstn (9 - length (skipped ++ first :: more)) tail)
      = Some stop -> continues_title stop = false) ->
  lookahead (skipped ++ (first :: more) ++ tail)
  = Some (join (L " ") (map strip (first :: more))).
Proof.
  intros Hs Hf Hm Hl Hstop. unfold lookahead.
  rewrite app_assoc, firstn_app.
  rewrite firstn_all2 by exact Hl.
  rewrite <- app_assoc, scan_title_skip by auto.
  cbn [app scan_title]. rewrite Hf. cbn [app].
  rewrite scan_title_take by auto.
  set (w := firstn (9 - length (skipped ++ first :: more)) tail) in *.
  assert (E : scan_title ([strip first] ++ map strip more) w
              = [strip first] ++ map strip more).
  { destruct w as [|stop w']; [reflexivity|].
    cbn [app]. apply scan_title_stop. now apply Hstop. }
  rewrite E. reflexivity.
Qed.

Lemma lookahead_title_witness :
  lookahead
    (map L [""; " "]%string
       ++ (L " Of God, " :: map L ["and of the"; "Holy Trinity "]%string)
       ++ map L [""; "[6.011] 1. There is but one"]%string)
  = Some (join (L " ")
            (map strip
               (L " Of God, "
                  :: map L ["and of the"; "Holy Trinity "]%string))).
Proof.
  apply (lookahead_title
           (map L [""; " "]%string) (L " Of God, ")
           (map L ["and of the"; "Holy Trinity "]%string)
           (map L [""; "[6.011] 1. There is but one"]%string)).
  - reflexivity.
  - reflexivity.
  - reflexivity.
  - vm_compute. lia.
  - vm_compute. intros stop [= <-]. reflexivity.
Defined.

(* ================================================================== *)
(** ** The line tests of the loop *)

Section LineTests.

Lemma drop_prefix_startswith (l s : str) :
  startswith s l = true <-> exists r, drop_prefix l s = Some r.
Proof.
  split.
  - intros H. apply startswith_split in H as [r ->]. exists r.
    apply drop_prefix_app.
  - intros [r H]. apply drop_prefix_Some in H as ->. apply startswith_app.
Qed.

Lemma header_inv (line : str) :
  is_header line = true ->
  exists num rest,
    num <> [] /\ forallb is_IVX num = true
    /\ line = L "CHAPTER " ++ num ++ L " (PCUS)" ++ rest.
Proof.
  unfold is_header, re_match, match_at, header_re. cbn [rmatch].
  destruct (drop_prefix (L "CHAPTER ") line) as [s1|] eqn:E1;
    [|discriminate].
  apply drop_prefix_Some in E1 as ->.
  destruct (plus_greedy _ _ _) as [r|] eqn:E2; [|discriminate]. intros _.
  apply plus_greedy_Some in E2 as (num & s2 & -> & Hn & Hp & Hk).
  destruct (drop_prefix (L " (PCUS)") s2) as [rest|] eqn:E3;
    [|discriminate].
  apply drop_prefix_Some in E3 as ->. now exists num, rest.
Qed.

Lemma header_intro (num rest : str) :
  num <> [] -> forallb is_IVX num = true ->
  is_header (L "CHAPTER " ++ num ++ L " (PCUS)" ++ rest) = true.
Proof.
  intros Hn Hp. unfold is_header, re_match, match_at, header_re.
  cbn [rmatch]. rewrite drop_prefix_app.
  rewrite (plus_greedy_longest is_IVX num (L " (PCUS)" ++ rest) _
             ([], rest));
    [reflexivity | exact Hn | exact Hp | reflexivity
    | now rewrite drop_prefix_app].
Qed.

(** An alternation of literals under a continuation that never fails is a
    prefix test. *)
Lemma alts_match (ws : list string) (s : str) gs
    (k : str -> list str -> option result) :
  ws <> [] -> (forall s' gs', k s' gs' <> None) ->
  ((exists r, rmatch (alts ws) s gs k = Some r)
   <-> existsb (fun w => startswith s (L w)) ws = true).
Proof.
  intros Hws Hk. induction ws as [|w ws IH]; [congruence|].
  assert (One : (exists r, rmatch (Str (L w)) s gs k = Some r)
                <-> startswith s (L w) = true).
  { cbn [rmatch]. rewrite drop_prefix_startswith. split.
    - intros [r H]. destruct (drop_prefix (L w) s) as [s'|];
        [eauto | discriminate].
    - intros [s' ->]. destruct (k s' gs) as [r|] eqn:E; [eauto|].
      now apply Hk in E. }
  destruct ws as [|w' ws].
  - cbn [alts existsb]. now rewrite orb_false_r.
  - change (alts (w :: w' :: ws))
      with (Alt (Str (L w)) (alts (w' :: ws))).
    cbn [existsb] in *. cbn [rmatch]. rewrite orb_true_iff.
    rewrite <- IH by discriminate. rewrite <- One. cbn [rmatch].
    destruct (match drop_prefix (L w) s with
              | Some s' => k s' gs
              | None => None
              end) as [r|]; split; eauto.
    + intros [[r H]|H]; [discriminate | exact H].
Qed.

Lemma book_re_names : book_re = Group (alts book_names).
Proof. reflexivity. Qed.

Lemma numbered_book_re_names :
  numbered_book_re
  = Cat (Plus is_IVX) (Cat (Str (L " ")) (Group (alts numbered_book_names))).
Proof. reflexivity. Qed.

Lemma existsb_name (ws : list string) (s : str) :
  existsb (fun w => startswith s (L w)) ws = true
  <-> exists name, In name ws /\ startswith s (L name) = true.
Proof. apply existsb_exists. Qed.

Lemma book_match (line : str) :
  re_match book_re line = true
  <-> exists name, In name book_names /\ startswith line (L name) = true.
Proof.
  rewrite <- existsb_name, book_re_names. unfold re_match, match_at.
  cbn [rmatch].
  rewrite <- (alts_match book_names line []
                (fun s' gs' => Some (gs' ++ [consumed line s'], s')));
    [|discriminate|discriminate].
  destruct (rmatch _ _ _ _) as [r|]; split; eauto; try discriminate.
  intros [r H]. discriminate.
Qed.

Lemma numbered_book_match (line : str) :
  re_match numbered_book_re line = true
  <-> exists num name,
        num <> [] /\ forallb is_IVX num = true
        /\ In name numbered_book_names
        /\ startswith line (num ++ L " " ++ L name) = true.
Proof.
  rewrite numbered_book_re_names. unfold re_match, match_at.
  cbn [rmatch]. split.
  - destruct (plus_greedy _ _ _) as [r|] eqn:E; [|discriminate]. intros _.
    apply plus_greedy_Some in E as (num & s1 & -> & Hn & Hp & Hk).
    destruct (drop_prefix (L " ") s1) as [s2|] eqn:E1; [|discriminate].
    apply drop_prefix_Some in E1 as ->.
    assert (Ex : existsb (fun w => startswith s2 (L w)) numbered_book_names
                 = true).
    { eapply alts_match; [| |eauto]; discriminate. }
    apply existsb_name in Ex as (name & Hin & Hs).
    exists num, name. repeat split; auto.
    apply startswith_split in Hs as [r' ->].
    rewrite !app_assoc. apply startswith_app.
  - intros (num & name & Hn & Hp & Hin & Hs).
    apply startswith_split in Hs as [r' ->].
    assert (Ex : existsb (fun w => startswith (L name ++ r') (L w))
                   numbered_book_names = true).
    { apply existsb_name. exists name. split; auto. apply startswith_app. }
    eapply (alts_match numbered_book_names (L name ++ r') []) in Ex
      as [r Hr]; [| discriminate | ].
    + rewrite <- !app_assoc.
      rewrite (plus_greedy_longest is_IVX num (L " " ++ L name ++ r') _ r);
        [reflexivity | exact Hn | exact Hp | reflexivity
        | rewrite drop_prefix_app; exact Hr].
    + discriminate.
Qed.

Lemma startswith_firstn (s p : str) :
  startswith s p = true -> firstn (length p) s = p.
Proof.
  intros H. apply startswith_split in H as [r ->].
  now rewrite firstn_app, Nat.sub_diag, firstn_all, app_nil_r.
Qed.

Lemma startswith_two (s p : str) :
  startswith s p = true -> 2 <= length p -> firstn 2 s = firstn 2 p.
Proof.
  intros H Hl. apply startswith_firstn in H.
  transitivity (firstn 2 (firstn (length p) s)); [|now rewrite H].
  rewrite firstn_firstn. f_equal. lia.
Qed.

Lemma book_list_not_header (line : str) :
  is_book_list line = true -> is_header line = false.
Proof.
  unfold is_book_list. intros H.
  destruct (is_header line) eqn:Eh; [|reflexivity].
  apply header_inv in Eh as (n & rest & _ & _ & ->).
  apply orb_true_iff in H as [H|H].
  - apply numbered_book_match in H as (num & name & Hn & Hp & _ & Hs).
    destruct num as [|c num]; [congruence|].
    cbn [forallb] in Hp. apply andb_true_iff in Hp as [Hc _].
    unfold L in Hs. cbn [list_ascii_of_string app startswith] in Hs.
    apply andb_true_iff in Hs as [Hs _].
    apply Ascii.eqb_eq in Hs. subst c. discriminate.
  - apply book_match in H as (name & Hin & Hs).
    assert (F : forallb (fun w => (2 <=? length (L w))
                                  && negb (str_eqb (firstn 2 (L w)) (L "CH")))
                  book_names = true) by (vm_compute; reflexivity).
    rewrite forallb_forall in F. specialize (F name Hin).
    apply andb_true_iff in F as [F1 F2]. apply Nat.leb_le in F1.
    apply startswith_two in Hs; auto.
    change (firstn 2 (L "CHAPTER " ++ n ++ L " (PCUS)" ++ rest))
      with (L "CH") in Hs.
    rewrite <- Hs in F2. discriminate.
Qed.

End LineTests.

(** X5: what counts as a chapter header.  A (trimmed) line is a header
    exactly when it reads [CHAPTER ], a non-empty run of the letters I, V
    and X, and [ (PCUS)]; anything may follow. *)
Theorem header_shape (line : str) :
  is_header line = true
  <-> exists num rest,
        num <> [] /\ forallb is_IVX num = true
        /\ line = L "CHAPTER " ++ num ++ L " (PCUS)" ++ rest.
Proof.
  split; [apply header_inv|].
  intros (num & rest & Hn & Hp & ->). now apply header_intro.
Qed.

(** X6: the book-list tests are prefix tests.  A line is taken for a
    book-list line exactly when it starts with one of the book names, or
    with a non-empty run of the letters I, V and X, one blank and one of
    the numbered book names; anything may follow the name. *)
Theorem book_list_shape (line : str) :
  is_book_list line = true
  <-> (exists num name,
         num <> [] /\ forallb is_IVX num = true
         /\ In name numbered_book_names
         /\ startswith line (num ++ L " " ++ L name) = true)
      \/ (exists name, In name book_names /\ startswith line (L name) = true).
Proof.
  unfold is_book_list.
  now rewrite orb_true_iff, numbered_book_match, book_match.
Qed.

(** X7: a book-list line changes nothing: it opens no chapter, and it is
    not collected, even when it is a sentence that merely begins with a
    book name. *)
Theorem book_list_line_ignored (st : state) (raw : str) (rest : list str) :
  is_book_list (strip raw) = true -> step st raw rest = st.
Proof.
  intros H. unfold step. rewrite (book_list_not_header _ H), H.
  destruct (is_noise (strip raw) (current_title st)); auto.
  destruct (current_chapter st); auto.
Qed.

Lemma book_list_line_ignored_witness :
  step (mkState [] (Some 1) (Some (L "Of Religious Worship")) [] 1)
       (L " Acts of worship are due to God alone. ") []
  = mkState [] (Some 1) (Some (L "Of Religious Worship")) [] 1.
Proof.
  apply (book_list_line_ignored
           (mkState [] (Some 1) (Some (L "Of Religious Worship")) [] 1)
           (L " Acts of worship are due to God alone. ") []).
  vm_compute. reflexivity.
Defined.

(* ================================================================== *)
(** ** The topic lookup *)

Section TopicLookup.

Lemma lower_char_idem (c : ascii) : lower_char (lower_char c) = lower_char c.
Proof.
  destruct c as [b0 b1 b2 b3 b4 b5 b6 b7].
  destruct b0, b1, b2, b3, b4, b5, b6, b7; vm_compute; reflexivity.
Qed.

Lemma lower_idem (s : str) : lower (lower s) = lower s.
Proof.
  unfold lower. rewrite map_map. apply map_ext. apply lower_char_idem.
Qed.

Lemma get_topics_found (t : str) :
  get_topics t
  = match found_topics t with [] => [L "theology"] | found => found end.
Proof.
  rewrite get_topics_table. unfold topics_of_table, found_topics.
  reflexivity.
Qed.

Lemma found_topics_In (t x : str) :
  In x (found_topics t)
  <-> exists kv, In kv chapter_keywords
                 /\ contains (fst kv) (lower t) = true /\ In x (snd kv).
Proof.
  unfold found_topics. rewrite in_flat_map. split.
  - intros (kv & Hf & Hx). apply filter_In in Hf as [Hin Hc]. eauto.
  - intros (kv & Hin & Hc & Hx). exists kv. split; auto.
    apply filter_In. auto.
Qed.

Lemma keyword_topics_nonempty (kv : str * list str) :
  In kv chapter_keywords -> snd kv <> [].
Proof.
  assert (F : forallb (fun kv => match snd kv with [] => false | _ => true end)
                chapter_keywords = true) by (vm_compute; reflexivity).
  rewrite forallb_forall in F. intros Hin E. specialize (F kv Hin).
  rewrite E in F. discriminate.
Qed.

Lemma theology_not_in_table :
  ~ In (L "theology") (flat_map snd chapter_keywords).
Proof.
  assert (F : forallb (fun x => negb (str_eqb x (L "theology")))
                (flat_map snd chapter_keywords) = true)
    by (vm_compute; reflexivity).
  rewrite forallb_forall in F. intros Hin. specialize (F _ Hin).
  unfold str_eqb in F.
  destruct (list_eq_dec ascii_dec (L "theology") (L "theology"));
    [discriminate | congruence].
Qed.

Lemma found_topics_hit (t : str) (kv : str * list str) :
  In kv chapter_keywords -> contains (fst kv) (lower t) = true ->
  found_topics t <> [].
Proof.
  intros Hin Hc E. destruct (snd kv) as [|x xs] eqn:Es.
  - now apply (keyword_topics_nonempty kv).
  - assert (Hx : In x (found_topics t)).
    { apply found_topics_In. exists kv. rewrite Es. cbn. auto. }
    rewrite E in Hx. contradiction.
Qed.

Lemma found_topics_miss (t : str) :
  found_topics t = []
  <-> forall kv, In kv chapter_keywords ->
                 contains (fst kv) (lower t) = false.
Proof.
  split.
  - intros E kv Hin. destruct (contains (fst kv) (lower t)) eqn:Hc; auto.
    now apply (found_topics_hit t kv) in Hc.
  - intros H. destruct (found_topics t) as [|x xs] eqn:E; auto.
    assert (Hx : In x (found_topics t)) by (rewrite E; now left).
    apply found_topics_In in Hx as (kv & Hin & Hc & _).
    rewrite H in Hc by auto. discriminate.
Qed.

Lemma found_topics_table (t : str) :
  incl (found_topics t) (flat_map snd chapter_keywords).
Proof.
  intros x Hx. apply found_topics_In in Hx as (kv & Hin & _ & Hx).
  apply in_flat_map. eauto.
Qed.

Lemma startswith_app_r (s p b : str) :
  startswith s p = true -> startswith (s ++ b) p = true.
Proof.
  intros H. apply startswith_split in H as [r ->].
  rewrite <- app_assoc. apply startswith_app.
Qed.

Lemma contains_app_r (n s b : str) :
  contains n s = true -> contains n (s ++ b) = true.
Proof.
  induction s as [|c s IH]; cbn [contains app].
  - rewrite orb_false_r. intros H.
    assert (E : n = []).
    { destruct n; [reflexivity | discriminate]. }
    subst n. destruct b; reflexivity.
  - intros H. apply orb_true_iff in H as [H|H].
    + apply (startswith_app_r _ _ b) in H. cbn [app] in H. now rewrite H.
    + rewrite (IH H). apply orb_true_r.
Qed.

Lemma contains_app_l (n a s : str) :
  contains n s = true -> contains n (a ++ s) = true.
Proof.
  intros H. destruct (contains n (a ++ s)) eqn:E; auto.
  apply contains_app_tail in E. congruence.
Qed.

End TopicLookup.

(** X8: the topic lookup ignores letter case: a title and its lower-case
    form get the same topics. *)
Theorem get_topics_ignores_case (t : str) :
  get_topics (lower t) = get_topics t.
Proof. unfold get_topics. now rewrite lower_idem. Qed.

(** X9: the topic list is never empty and never leaves the vocabulary of
    the table and the fallback; every listed topic other than the fallback
    belongs to a key phrase that occurs in the lowered title; and the list
    is the fallback [theology] alone exactly when no key phrase occurs. *)
Theorem topics_in_vocabulary (t : str) :
  get_topics t <> []
  /\ incl (get_topics t) topic_vocabulary
  /\ (forall x, In x (get_topics t) ->
        x = L "theology"
        \/ exists kv, In kv chapter_keywords
                      /\ contains (fst kv) (lower t) = true
                      /\ In x (snd kv))
  /\ (get_topics t = [L "theology"]
      <-> forall kv, In kv chapter_keywords ->
                     contains (fst kv) (lower t) = false).
Proof.
  rewrite get_topics_found. rewrite <- found_topics_miss.
  pose proof (found_topics_table t) as Ht.
  pose proof (found_topics_In t) as Hi.
  destruct (found_topics t) as [|x xs].
  - repeat split; auto; try discriminate.
    + intros y [<-|[]]. now left.
    + intros y [<-|[]]. now left.
  - repeat split; try discriminate.
    + intros y Hy. right. now apply Ht.
    + intros y Hy. right. now apply Hi.
    + intros E. injection E as -> ->.
      exfalso. apply theology_not_in_table. apply Ht. now left.
Qed.

(** X10: text added before or after a title never loses a topic: when some
    key phrase occurs in a title, every topic of the title is still a
    topic of the longer title. *)
Theorem topics_persist (a t b : str) (kv : str * list str) :
  In kv chapter_keywords -> contains (fst kv) (lower t) = true ->
  incl (get_topics t) (get_topics (a ++ t ++ b)).
Proof.
  intros Hin Hc.
  assert (Grow : forall n, contains n (lower t) = true ->
                           contains n (lower (a ++ t ++ b)) = true).
  { intros n Hn. unfold lower. rewrite !map_app.
    apply contains_app_l, contains_app_r. exact Hn. }
  rewrite !get_topics_found.
  pose proof (found_topics_hit t kv Hin Hc) as H1.
  pose proof (found_topics_hit (a ++ t ++ b) kv Hin (Grow _ Hc)) as H2.
  assert (I : incl (found_topics t) (found_topics (a ++ t ++ b))).
  { intros x Hx. apply found_topics_In in Hx as (kv' & Hin' & Hc' & Hx).
    apply found_topics_In. exists kv'. auto. }
  destruct (found_topics t); [congruence|].
  destruct (found_topics (a ++ t ++ b)); [congruence|]. exact I.
Qed.

Lemma topics_persist_witness :
  incl (get_topics (L "God"))
       (get_topics (L "Of " ++ L "God" ++ L ", and of the Holy Trinity")).
Proof.
  apply (topics_persist (L "Of ") (L "God") (L ", and of the Holy Trinity")
           (L "god", map L ["god"; "trinity"; "attributes"]%string)).
  - vm_compute. right. left. reflexivity.
  - vm_compute. reflexivity.
Defined.

(* ================================================================== *)
(** ** Normalised output *)

Section Normalised.

Local Abbreviation squeeze := (re_sub spaces_re [TLit (L " ")]).

Lemma span_run (p : ascii -> bool) (s : str) :
  exists x rest, s = x ++ rest /\ forallb p x = true /\ stops p rest.
Proof.
  induction s as [|c s (x & rest & E & Hx & Hr)].
  - exists [], []. cbn. auto.
  - destruct (p c) eqn:Hc.
    + exists (c :: x), rest. cbn [app forallb]. rewrite Hc, Hx, E at 1.
      auto.
    + exists [], (c :: s). cbn. auto.
Qed.

Lemma spaces_hit (ws rest : str) :
  ws <> [] -> forallb isspace ws = true -> stops isspace rest ->
  squeeze (ws ++ rest) = " "%char :: squeeze rest.
Proof.
  intros Hw Hp Hr. rewrite (re_sub_hit spaces_re _ ws rest []);
    [reflexivity | exact Hw |].
  unfold match_at, spaces_re. cbn [rmatch].
  apply plus_greedy_longest; auto.
Qed.

Lemma spaces_miss (c : ascii) (s : str) :
  isspace c = false -> squeeze (c :: s) = c :: squeeze s.
Proof.
  intros H. apply re_sub_miss. unfold match_at, spaces_re.
  cbn [rmatch plus_greedy]. now rewrite H.
Qed.

Lemma squeeze_normal (n : nat) :
  forall s, length s <= n ->
    single_spaced (squeeze s) = true
    /\ (stops isspace s -> stops isspace (squeeze s)).
Proof.
  induction n as [|n IH]; intros s Hl.
  - destruct s; [|cbn in Hl; lia]. split; auto.
  - destruct s as [|c s]; [split; auto|]. cbn [length] in Hl.
    destruct (isspace c) eqn:Hc.
    + destruct (span_run isspace s) as (x & rest & -> & Hx & Hr).
      change (c :: x ++ rest) with ((c :: x) ++ rest).
      rewrite spaces_hit;
        [| discriminate | cbn [forallb]; now rewrite Hc | exact Hr].
      destruct (IH rest) as [S1 S2].
      { rewrite length_app in Hl. lia. }
      specialize (S2 Hr). split.
      * cbn [single_spaced]. rewrite S1, andb_true_r.
        destruct (squeeze rest) as [|d r]; [reflexivity|].
        unfold stops in S2. rewrite S2. reflexivity.
      * unfold stops. cbn [app]. congruence.
    + rewrite spaces_miss by exact Hc.
      destruct (IH s) as [S1 _]; [lia|]. split.
      * cbn [single_spaced]. now rewrite Hc, S1.
      * intros _. exact Hc.
Qed.

Lemma single_spaced_suffix (a b : str) :
  single_spaced (a ++ b) = true -> single_spaced b = true.
Proof.
  induction a as [|c a IH]; auto. cbn [app single_spaced]. intros H.
  apply andb_true_iff in H as [_ H]. auto.
Qed.

Lemma single_spaced_prefix (a b : str) :
  single_spaced (a ++ b) = true -> single_spaced a = true.
Proof.
  induction a as [|c a IH]; auto. cbn [app single_spaced]. intros H.
  apply andb_true_iff in H as [H1 H2]. rewrite (IH H2), andb_true_r.
  destruct a as [|d a]; [|exact H1]. cbn [app] in H1.
  destruct (negb (isspace c)); auto. cbn [orb] in *.
  apply andb_true_iff in H1 as [H1 _]. now rewrite H1.
Qed.

Lemma lstrip_suffix (s : str) : exists a, s = a ++ lstrip s.
Proof.
  induction s as [|c s [a IH]]; [now exists []|]. cbn [lstrip].
  destruct (isspace c).
  - exists (c :: a). cbn [app]. now f_equal.
  - now exists [].
Qed.

Lemma rstrip_prefix (s : str) : exists b, s = rstrip s ++ b.
Proof.
  induction s as [|c s [b IH]]; [now exists []|]. cbn [rstrip].
  destruct (rstrip s) as [|d t].
  - destruct (isspace c).
    + now exists (c :: s).
    + exists b. cbn [app] in *. now f_equal.
  - exists b. cbn [app] in *. now f_equal.
Qed.

Lemma strip_single_spaced (s : str) :
  single_spaced s = true -> single_spaced (strip s) = true.
Proof.
  intros H. unfold strip.
  destruct (lstrip_suffix s) as [a Ea].
  destruct (rstrip_prefix (lstrip s)) as [b Eb].
  rewrite Ea in H. apply single_spaced_suffix in H.
  rewrite Eb in H. now apply single_spaced_prefix in H.
Qed.

Lemma squeeze_single_spaced (s : str) :
  single_spaced (strip (squeeze s)) = true.
Proof.
  apply strip_single_spaced. exact (proj1 (squeeze_normal _ _ (le_n _))).
Qed.

Lemma get_topics_nonempty (t : str) : get_topics t <> [].
Proof.
  rewrite get_topics_found. destruct (found_topics t); discriminate.
Qed.

Lemma get_topics_vocabulary (t : str) : incl (get_topics t) topic_vocabulary.
Proof.
  rewrite get_topics_found. pose proof (found_topics_table t) as Ht.
  destruct (found_topics t) as [|x xs].
  - intros y [<-|[]]. now left.
  - intros y Hy. right. now apply Ht.
Qed.

End Normalised.

(** X11: the cleaned content is normalised, whatever the lines and the
    title: it has no leading or trailing whitespace, and every whitespace
    character in it is a single blank between two other characters. *)
Theorem content_normalised (content_lines : list str) (title_ : option str) :
  single_spaced (clean_content content_lines title_) = true
  /\ strip (clean_content content_lines title_)
     = clean_content content_lines title_.
Proof.
  unfold clean_content. cbv zeta. split.
  - apply squeeze_single_spaced.
  - apply strip_idem.
Qed.

(** X12: the fields of every emitted section are normalised: the content
    is trimmed and single-spaced, the title is trimmed, and the topics are
    a non-empty list over the vocabulary. *)
Theorem section_fields_normalised (lines : list str) (sec : Section_) :
  In sec (parse_westminster lines) ->
  single_spaced (content sec) = true
  /\ strip (content sec) = content sec
  /\ strip (title sec) = title sec
  /\ topics sec <> []
  /\ incl (topics sec) topic_vocabulary.
Proof.
  intros H. apply in_parse in H as (st & k & t & _ & _ & _ & _ & ->).
  cbn [content title topics].
  repeat split.
  - apply squeeze_single_spaced.
  - apply strip_idem.
  - apply strip_idem.
  - apply get_topics_nonempty.
  - apply get_topics_vocabulary.
Qed.

Lemma section_fields_normalised_witness :
  let sec := mkSection (L "1") (L "Of God") (L "God is one. He is good.")
               (map L ["god"; "trinity"; "attributes"]%string) in
  single_spaced (content sec) = true
  /\ strip (content sec) = content sec
  /\ strip (title sec) = title sec
  /\ topics sec <> []
  /\ incl (topics sec) topic_vocabulary.
Proof.
  apply (section_fields_normalised
           (map L ["CHAPTER I (PCUS)"; "  Of God "; "";
                   "[6.011]  God is   one. "; " He is good."]%string)).
  vm_compute. left. reflexivity.
Defined.

(* ================================================================== *)
(** ** The document *)

Section Document.

Lemma char_compare_eq (x y : ascii) : char_compare x y = Eq <-> x = y.
Proof.
  unfold char_compare, ord. rewrite Nat.compare_eq_iff. split.
  - intros H. rewrite <- (ascii_nat_embedding x), <- (ascii_nat_embedding y).
    now rewrite H.
  - now intros ->.
Qed.

Lemma char_compare_antisym (x y : ascii) :
  char_compare y x = CompOpp (char_compare x y).
Proof. unfold char_compare. apply Nat.compare_antisym. Qed.

Lemma char_compare_trans (x y z : ascii) (c : comparison) :
  char_compare x y = c -> char_compare y z = c -> char_compare x z = c.
Proof.
  unfold char_compare. destruct c; intros H1 H2.
  - apply Nat.compare_eq_iff in H1, H2. apply Nat.compare_eq_iff. lia.
  - apply Nat.compare_lt_iff in H1, H2. apply Nat.compare_lt_iff. lia.
  - apply Nat.compare_gt_iff in H1, H2. apply Nat.compare_gt_iff. lia.
Qed.

Lemma str_lt_irrefl (x : str) : ~ str_lt x x.
Proof.
  unfold str_lt, str_compare. intros H.
  rewrite (proj2 (list_compare_refl char_compare char_compare_eq x x))
    in H by reflexivity.
  discriminate.
Qed.

Lemma str_lt_trans (x y z : str) : str_lt x y -> str_lt y z -> str_lt x z.
Proof.
  unfold str_lt, str_compare. intros H1 H2.
  eapply (list_compare_trans char_compare char_compare_eq x y z);
    eauto using char_compare_trans, char_compare_antisym.
Qed.

Lemma str_lt_total (x y : str) : x = y \/ str_lt x y \/ str_lt y x.
Proof.
  unfold str_lt, str_compare.
  pose proof (list_compare_antisym char_compare char_compare_eq x y
                char_compare_antisym) as A.
  destruct (list_compare char_compare x y) eqn:E.
  - left. now apply (list_compare_refl char_compare char_compare_eq).
  - auto.
  - right. right. rewrite A. reflexivity.
Qed.

Lemma str_ltb_lt (x y : str) : str_ltb x y = true <-> str_lt x y.
Proof.
  unfold str_ltb, str_lt. destruct (str_compare x y); split; congruence.
Qed.

Lemma insert_sorted_In (x y : str) (l : list str) :
  In y (insert_sorted x l) <-> y = x \/ In y l.
Proof.
  induction l as [|z l IH]; cbn [insert_sorted In].
  - intuition.
  - destruct (str_ltb z x); cbn [In]; [rewrite IH|]; intuition.
Qed.

Lemma sorted_In (x : str) (l : list str) : In x (sorted l) <-> In x l.
Proof.
  induction l as [|y l IH]; cbn [sorted fold_right In]; [tauto|].
  fold (sorted l). rewrite insert_sorted_In, IH. intuition.
Qed.

Lemma insert_sorted_strict (x : str) (l : list str) :
  StronglySorted str_lt l -> ~ In x l ->
  StronglySorted str_lt (insert_sorted x l).
Proof.
  induction 1 as [|y l Hs IH Hy]; intros Hx; cbn [insert_sorted].
  - repeat constructor.
  - destruct (str_ltb y x) eqn:E.
    + apply str_ltb_lt in E. constructor.
      * apply IH. intros Hin. apply Hx. now right.
      * rewrite Forall_forall in *. intros z Hz.
        apply insert_sorted_In in Hz as [->|Hz]; auto.
    + assert (Lt : str_lt x y).
      { destruct (str_lt_total x y) as [->|[H|H]]; auto.
        - exfalso. apply Hx. now left.
        - apply str_ltb_lt in H. congruence. }
      constructor; [now constructor|]. constructor; auto.
      rewrite Forall_forall in *. intros z Hz.
      eapply str_lt_trans; eauto.
Qed.

Lemma sorted_strict (l : list str) :
  NoDup l -> StronglySorted str_lt (sorted l).
Proof.
  induction 1 as [|x l Hx Hn IH]; cbn [sorted fold_right].
  - constructor.
  - fold (sorted l). apply insert_sorted_strict; auto.
    now rewrite sorted_In.
Qed.

Lemma strict_unique (l1 : list str) :
  forall l2,
    StronglySorted str_lt l1 -> StronglySorted str_lt l2 ->
    (forall x, In x l1 <-> In x l2) -> l1 = l2.
Proof.
  induction l1 as [|a l1 IH]; intros l2 S1 S2 Hm.
  - destruct l2 as [|b l2]; auto.
    exfalso. apply (Hm b). now left.
  - destruct l2 as [|b l2].
    { exfalso. apply (Hm a). now left. }
    apply StronglySorted_inv in S1 as [S1 F1].
    apply StronglySorted_inv in S2 as [S2 F2].
    rewrite Forall_forall in F1, F2.
    assert (E : a = b).
    { destruct (proj1 (Hm a) (or_introl eq_refl)) as [E|Ha]; auto.
      destruct (proj2 (Hm b) (or_introl eq_refl)) as [E|Hb]; auto.
      exfalso. apply (str_lt_irrefl a).
      eapply str_lt_trans; [apply F1, Hb | apply F2, Ha]. }
    subst b. f_equal. apply IH; auto.
    intros x. split; intros Hx.
    + destruct (proj1 (Hm x) (or_intror Hx)) as [<-|H]; auto.
      exfalso. apply (str_lt_irrefl a). now apply F1.
    + destruct (proj2 (Hm x) (or_intror Hx)) as [<-|H]; auto.
      exfalso. apply (str_lt_irrefl a). now apply F2.
Qed.

Lemma all_topics_listing (secs : list Section_) :
  topics_listing secs (all_topics secs).
Proof.
  split; [apply NoDup_nodup|]. intros x. apply nodup_In.
Qed.

Lemma section_topics (a b c : str) (d : list str) :
  topics (mkSection a b c d) = d.
Proof. reflexivity. Qed.

Lemma doc_topics_In (secs : list Section_) (x : str) :
  In x (doc_topics (confession secs))
  <-> exists sec, In sec secs /\ In x (topics sec).
Proof.
  cbn [doc_topics confession]. rewrite sorted_In.
  unfold all_topics. rewrite nodup_In. apply in_flat_map.
Qed.

End Document.

(** X13: the topic list of the document.  It is strictly increasing in
    the order of [str] (so it has no duplicates), it holds exactly the
    topics of the sections, and it does not depend on the order in which
    the set of topics is listed. *)
Theorem document_topics_sorted (secs : list Section_) :
  StronglySorted str_lt (doc_topics (confession secs))
  /\ (forall x, In x (doc_topics (confession secs))
                <-> exists sec, In sec secs /\ In x (topics sec))
  /\ (forall l, topics_listing secs l ->
                sorted l = doc_topics (confession secs)).
Proof.
  split; [|split].
  - apply sorted_strict. apply NoDup_nodup.
  - apply doc_topics_In.
  - intros l [Hn Hm]. cbn [doc_topics confession].
    destruct (all_topics_listing secs) as [Hn' Hm'].
    apply strict_unique; auto using sorted_strict.
    intros x. now rewrite !sorted_In, Hm, Hm'.
Qed.

Lemma document_topics_sorted_witness :
  let secs := [ mkSection (L "1") (L "Of Creation") (L "a")
                  (map L ["creation"; "providence"]%string);
                mkSection (L "2") (L "Of Providence") (L "b")
                  (map L ["providence"; "sovereignty"]%string) ] in
  sorted (map L ["sovereignty"; "creation"; "providence"]%string)
  = doc_topics (confession secs).
Proof.
  intros secs.
  apply (proj2 (proj2 (document_topics_sorted secs))).
  split.
  - repeat constructor; cbn; intuition discriminate.
  - intros x. vm_compute. intuition.
Defined.

(** X14: the document built from an input.  Its sections are the parsed
    sections; its topic list is empty exactly when no section was
    emitted; every topic of a section is listed; and every listed topic
    belongs to the vocabulary. *)
Theorem document_of_parse (lines : list str) :
  doc_sections (document lines) = parse_westminster lines
  /\ (doc_topics (document lines) = [] <-> parse_westminster lines = [])
  /\ (forall sec, In sec (parse_westminster lines) ->
                  incl (topics sec) (doc_topics (document lines)))
  /\ incl (doc_topics (document lines)) topic_vocabulary.
Proof.
  unfold document. split; [reflexivity|]. split; [|split].
  - split.
    + intros E. destruct (parse_westminster lines) as [|sec secs] eqn:P;
        auto.
      assert (Hs : In sec (parse_westminster lines)) by (rewrite P; now left).
      apply in_parse in Hs as (st & k & t & _ & _ & _ & _ & Es).
      pose proof (get_topics_nonempty t) as Ht.
      destruct (get_topics t) as [|x xs] eqn:G; [congruence|].
      assert (Hx : In x (doc_topics (confession (sec :: secs)))).
      { apply doc_topics_In. exists sec. split; [now left|].
        rewrite Es. cbn [topics]. now left. }
      rewrite E in Hx. contradiction.
    + intros ->. reflexivity.
  - unfold incl. intros sec Hs x Hx. apply doc_topics_In. eauto.
  - unfold incl. intros x Hx. apply doc_topics_In in Hx as (sec & Hs & Hx).
    apply in_parse in Hs as (st & k & t & _ & _ & _ & _ & ->).
    rewrite section_topics in Hx. apply (get_topics_vocabulary t).
    exact Hx.
Qed.

(* ================================================================== *)
(** ** Content as words *)

Section Words.

Local Abbreviation squeeze := (re_sub spaces_re [TLit (L " ")]).

Lemma words_space (c : ascii) (s : str) :
  isspace c = true -> words (c :: s) = words s.
Proof. intros H. cbn [words]. now rewrite H. Qed.

Lemma words_one (c : ascii) : isspace c = false -> words [c] = [[c]].
Proof. intros H. cbn [words]. now rewrite H. Qed.

Lemma words_then_space (c d : ascii) (s : str) :
  isspace c = false -> isspace d = true ->
  words (c :: d :: s) = [c] :: words s.
Proof. intros Hc Hd. cbn [words]. now rewrite Hc, Hd. Qed.

Lemma words_then_char (c d : ascii) (s : str) :
  isspace c = false -> isspace d = false ->
  words (c :: d :: s)
  = match words (d :: s) with
    | w :: ws => (c :: w) :: ws
    | [] => [[c]]
    end.
Proof.
  intros Hc Hd.
  change (words (c :: d :: s))
    with (if isspace c then words (d :: s)
          else if isspace d then [c] :: words (d :: s)
               else match words (d :: s) with
                    | w :: ws => (c :: w) :: ws
                    | [] => [[c]]
                    end).
  now rewrite Hc, Hd.
Qed.

Lemma words_run (ws s : str) :
  forallb isspace ws = true -> words (ws ++ s) = words s.
Proof.
  induction ws as [|c ws IH]; auto. cbn [forallb app]. intros H.
  apply andb_true_iff in H as [Hc H]. rewrite words_space; auto.
Qed.

Lemma words_head (s : str) :
  forall c, isspace c = false ->
            exists w ws, words (c :: s) = (c :: w) :: ws.
Proof.
  induction s as [|d s IH]; intros c Hc.
  - exists [], []. now apply words_one.
  - destruct (isspace d) eqn:Hd.
    + exists [], (words s). now apply words_then_space.
    + destruct (IH d Hd) as (w & ws & E).
      exists (d :: w), ws. rewrite words_then_char, E; auto.
Qed.

Lemma words_app (a b : str) :
  match b with [] => True | d :: _ => isspace d = true end ->
  words (a ++ b) = words a ++ words b.
Proof.
  intros Hb. induction a as [|c a IH]; [reflexivity|].
  destruct (isspace c) eqn:Hc.
  - cbn [app]. now rewrite !words_space.
  - destruct a as [|d a].
    + cbn [app]. rewrite words_one by exact Hc.
      destruct b as [|e b]; [now apply words_one|].
      rewrite words_then_space, (words_space e) by auto. reflexivity.
    + cbn [app] in *. destruct (isspace d) eqn:Hd.
      * rewrite !words_then_space by auto.
        rewrite !words_space in IH by auto. now rewrite IH.
      * rewrite !words_then_char by auto. rewrite IH.
        destruct (words_head a d Hd) as (w & ws & ->). reflexivity.
Qed.

Lemma words_spaces (b : str) : forallb isspace b = true -> words b = [].
Proof.
  intros H. rewrite <- (app_nil_r b). now rewrite words_run.
Qed.

Lemma space_led (b : str) :
  forallb isspace b = true ->
  match b with [] => True | d :: _ => isspace d = true end.
Proof.
  destruct b as [|d b]; auto. cbn [forallb]. intros H.
  now apply andb_true_iff in H as [H _].
Qed.

Lemma words_are_words (s : str) : Forall is_word (words s).
Proof.
  induction s as [|c s IH]; [constructor|].
  destruct (isspace c) eqn:Hc; [now rewrite words_space|].
  assert (One : is_word [c]).
  { split; [discriminate|]. cbn [forallb]. now rewrite Hc. }
  destruct s as [|d s]; [rewrite words_one by auto; now constructor|].
  destruct (isspace d) eqn:Hd.
  - rewrite words_then_space by auto. rewrite words_space in IH by auto.
    now constructor.
  - rewrite words_then_char by auto.
    destruct (words (d :: s)) as [|w ws]; [now constructor|].
    apply Forall_cons_iff in IH as [[_ Hw] IH]. constructor; auto.
    split; [discriminate|]. cbn [forallb]. now rewrite Hc.
Qed.

Lemma lstrip_split (s : str) :
  exists a, s = a ++ lstrip s /\ forallb isspace a = true.
Proof.
  induction s as [|c s (a & IH & Ha)]; [now exists []|]. cbn [lstrip].
  destruct (isspace c) eqn:Hc.
  - exists (c :: a). cbn [app forallb]. rewrite Hc, Ha. split; auto.
    now f_equal.
  - now exists [].
Qed.

Lemma rstrip_split (s : str) :
  exists b, s = rstrip s ++ b /\ forallb isspace b = true.
Proof.
  induction s as [|c s (b & IH & Hb)]; [now exists []|]. cbn [rstrip].
  destruct (rstrip s) as [|d t].
  - cbn [app] in IH. subst b. destruct (isspace c) eqn:Hc.
    + exists (c :: s). cbn [forallb app]. now rewrite Hc, Hb.
    + now exists s.
  - exists b. cbn [app] in *. split; auto. now f_equal.
Qed.

Lemma words_strip (s : str) : words (strip s) = words s.
Proof.
  unfold strip.
  destruct (lstrip_split s) as (a & Ea & Ha).
  destruct (rstrip_split (lstrip s)) as (b & Eb & Hb).
  transitivity (words (lstrip s)).
  - rewrite Eb at 2. rewrite words_app by now apply space_led.
    now rewrite (words_spaces b), app_nil_r.
  - rewrite <- (words_run a (lstrip s) Ha). now rewrite <- Ea.
Qed.

Lemma join_word (c : ascii) (w : str) (ws : list str) :
  join (L " ") ((c :: w) :: ws) = c :: join (L " ") (w :: ws).
Proof. destruct ws; reflexivity. Qed.

Lemma rstrip_squeeze (n : nat) :
  forall s, length s <= n -> stops isspace s ->
            rstrip (squeeze s) = join (L " ") (words s).
Proof.
  induction n as [|n IH]; intros s Hl Hs.
  - destruct s; [reflexivity | cbn in Hl; lia].
  - destruct s as [|c s]; [reflexivity|]. unfold stops in Hs.
    cbn [length] in Hl.
    rewrite spaces_miss, rstrip_head by exact Hs.
    destruct s as [|d s]; [now rewrite words_one|].
    destruct (isspace d) eqn:Hd.
    + destruct (span_run isspace s) as (x & rest & -> & Hx & Hr).
      rewrite words_then_space, (words_run x rest) by auto.
      change (d :: x ++ rest) with ((d :: x) ++ rest).
      rewrite spaces_hit;
        [| discriminate | cbn [forallb]; now rewrite Hd | exact Hr].
      rewrite rstrip_cons.
      destruct rest as [|e rest]; [reflexivity|]. unfold stops in Hr.
      assert (A : all_space (" "%char :: squeeze (e :: rest)) = false).
      { rewrite spaces_miss by exact Hr. unfold all_space. cbn [forallb].
        rewrite Hr. cbn [andb]. apply andb_false_r. }
      rewrite A, (IH (e :: rest)); [| |exact Hr].
      * destruct (words_head rest e Hr) as (w & ws & ->). reflexivity.
      * cbn [length] in *. rewrite length_app in Hl. cbn [length] in Hl.
        lia.
    + rewrite words_then_char by auto. rewrite (IH (d :: s)); [|lia|exact Hd].
      destruct (words_head s d Hd) as (w & ws & ->).
      symmetry. apply join_word.
Qed.

Lemma lstrip_stops (x : str) : stops isspace x -> lstrip x = x.
Proof. destruct x as [|c x]; auto. apply lstrip_nonspace. Qed.

Lemma strip_squeeze_stops (z : str) :
  stops isspace z -> strip (squeeze z) = join (L " ") (words z).
Proof.
  intros Hz. unfold strip. rewrite lstrip_stops.
  - now apply (rstrip_squeeze (length z)).
  - now apply (squeeze_normal (length z)).
Qed.

Lemma strip_squeeze (s : str) : strip (squeeze s) = join (L " ") (words s).
Proof.
  destruct (lstrip_split s) as (a & Ea & Ha).
  pose proof (lstrip_head s) as Hz.
  remember (lstrip s) as z eqn:E. clear E. subst s.
  rewrite words_run by exact Ha.
  destruct a as [|c a]; [now apply strip_squeeze_stops|].
  rewrite spaces_hit; [| discriminate | exact Ha | exact Hz].
  rewrite <- (strip_squeeze_stops z Hz). reflexivity.
Qed.

Lemma words_join (ls : list str) :
  words (join (L " ") ls) = flat_map words ls.
Proof.
  induction ls as [|p ls IH]; [reflexivity|].
  destruct ls as [|q ls].
  - cbn [join flat_map]. now rewrite app_nil_r.
  - change (join (L " ") (p :: q :: ls))
      with (p ++ " "%char :: join (L " ") (q :: ls)).
    rewrite words_app by reflexivity.
    rewrite words_space by reflexivity. now rewrite IH.
Qed.

Lemma join_app (sep : str) (a b : list str) :
  a <> [] -> b <> [] ->
  join sep (a ++ b) = join sep a ++ sep ++ join sep b.
Proof.
  intros Ha Hb. induction a as [|p a IH]; [congruence|].
  destruct a as [|p' a].
  - cbn [app]. destruct b; [congruence | reflexivity].
  - change (join sep ((p :: p' :: a) ++ b))
      with (p ++ sep ++ join sep ((p' :: a) ++ b)).
    rewrite IH by discriminate.
    change (join sep (p :: p' :: a)) with (p ++ sep ++ join sep (p' :: a)).
    now rewrite <- !app_assoc.
Qed.

Lemma sub_patterns_led (r : regex) :
  In r [ ref_re; content_pcus_upcusa_re; content_upcusa_pcus_re;
         title_pcus_upcusa_re; title_upcusa_pcus_re; pcus_re; upcusa_re ] ->
  bracket_led r.
Proof.
  cbn [In]. intros H.
  repeat (destruct H as [<-|H]; [apply bracket_led_Cat|]). contradiction.
Qed.

Lemma title_subs_no_open (t : str) : no_open t = true -> title_subs t = t.
Proof.
  intros H. unfold title_subs. cbv zeta.
  rewrite (re_sub_no_open title_pcus_upcusa_re), (re_sub_no_open title_upcusa_pcus_re),
    (re_sub_no_open pcus_re), (re_sub_no_open upcusa_re);
    auto; apply sub_patterns_led; cbn [In]; auto 10.
Qed.

Lemma content_subs_pass (pre s : str) :
  no_open pre = true -> content_subs (pre ++ s) = pre ++ content_subs s.
Proof.
  intros H. unfold content_subs, content_variants, strip_refs. cbv zeta.
  rewrite (re_sub_no_open_app ref_re), (re_sub_no_open_app content_pcus_upcusa_re),
    (re_sub_no_open_app content_upcusa_pcus_re), (re_sub_no_open_app pcus_re),
    (re_sub_no_open_app upcusa_re);
    auto; apply sub_patterns_led; cbn [In]; auto 10.
Qed.

Lemma content_subs_no_open (s : str) :
  no_open s = true -> content_subs s = s.
Proof.
  intros H. rewrite <- (app_nil_r s) at 1.
  rewrite content_subs_pass by exact H. now rewrite app_nil_r.
Qed.

Lemma no_open_join (ls : list str) :
  forallb no_open ls = true -> no_open (join (L " ") ls) = true.
Proof.
  induction ls as [|p ls IH]; [reflexivity|]. cbn [forallb]. intros H.
  apply andb_true_iff in H as [Hp H]. destruct ls as [|q ls]; [exact Hp|].
  change (join (L " ") (p :: q :: ls))
    with (p ++ L " " ++ join (L " ") (q :: ls)).
  apply no_open_app. split; [exact Hp|].
  apply no_open_app. split; [reflexivity | now apply IH].
Qed.

Lemma drop_title_hit (t x : str) :
  t <> [] -> clean_title t = t -> drop_title (Some t) (t ++ x) = strip x.
Proof.
  intros Ht Hc. destruct t as [|c t]; [congruence|].
  unfold drop_title. cbv zeta. rewrite Hc, startswith_app.
  now rewrite skipn_app, skipn_all, Nat.sub_diag.
Qed.

Lemma firstn_window {A} (n : nat) (a b : list A) :
  firstn n (a ++ b) = firstn n (a ++ firstn (n - length a) b).
Proof.
  rewrite !firstn_app, firstn_firstn. now rewrite Nat.min_id.
Qed.

End Words.

(** X15: the lookahead is local.  The section of a chapter depends on the
    lines after the chapter only through the part of them that lies
    within nine lines of the chapter's header. *)
Theorem chapter_section_local (k : nat) (body rest : list str) :
  chapter_section k body rest
  = chapter_section k body (firstn (9 - length body) rest).
Proof.
  unfold chapter_section.
  assert (E : lookahead (body ++ rest)
              = lookahead (body ++ firstn (9 - length body) rest)).
  { unfold lookahead. now rewrite firstn_window. }
  now rewrite E.
Qed.

(** X16: the last two steps of [clean_content] (every run of whitespace
    replaced by one blank, then the ends trimmed) leave the words of the
    text, joined by single blanks; a word is a non-empty run of
    characters without whitespace. *)
Theorem clean_content_words (content_lines : list str) (title_ : option str) :
  clean_content content_lines title_
  = join (L " ")
      (words (drop_title title_ (content_subs (join (L " ") content_lines))))
  /\ Forall is_word
       (words (drop_title title_ (content_subs (join (L " ") content_lines)))).
Proof.
  split.
  - unfold clean_content. cbv zeta. apply strip_squeeze.
  - apply words_are_words.
Qed.

(** X17: text without an opening bracket is never rewritten: such a title
    is only trimmed, and content lines without an opening bracket come
    out as their words, in order, joined by single blanks. *)
Theorem plain_text_kept (t : str) (ls : list str) :
  no_open t = true -> forallb no_open ls = true ->
  clean_title t = strip t
  /\ clean_content ls None = join (L " ") (flat_map words ls).
Proof.
  intros Ht Hls. split.
  - unfold clean_title. now rewrite title_subs_no_open.
  - unfold clean_content. cbv zeta. rewrite strip_squeeze.
    cbn [drop_title]. rewrite content_subs_no_open by now apply no_open_join.
    now rewrite words_join.
Qed.

Lemma plain_text_kept_witness :
  clean_title (L "  Of God, and of the Holy Trinity ")
  = strip (L "  Of God, and of the Holy Trinity ")
  /\ clean_content (map L [" There is but   one"; "only living God. "]%string)
       None
     = join (L " ")
         (flat_map words
            (map L [" There is but   one"; "only living God. "]%string)).
Proof.
  apply (plain_text_kept (L "  Of God, and of the Holy Trinity ")
           (map L [" There is but   one"; "only living God. "]%string));
    reflexivity.
Defined.

(** X18: a title that runs over several lines is not repeated in the
    content.  When the collected lines begin with the lines of the title
    (a trimmed title without an opening bracket), the cleaned content is
    the cleaned content of the remaining lines. *)
Theorem title_not_repeated (parts ls : list str) :
  join (L " ") parts <> [] ->
  no_open (join (L " ") parts) = true ->
  strip (join (L " ") parts) = join (L " ") parts ->
  clean_content (parts ++ ls) (Some (join (L " ") parts))
  = clean_content ls None.
Proof.
  intros Hne Hno Hst.
  assert (Hp : parts <> []) by (intros ->; now apply Hne).
  assert (Hc : clean_title (join (L " ") parts) = join (L " ") parts).
  { unfold clean_title. now rewrite title_subs_no_open. }
  remember (join (L " ") parts) as t eqn:Et.
  unfold clean_content. cbv zeta. rewrite !strip_squeeze. f_equal.
  change (drop_title None (content_subs (join (L " ") ls)))
    with (content_subs (join (L " ") ls)).
  destruct ls as [|l ls].
  - rewrite app_nil_r, <- Et, content_subs_no_open by exact Hno.
    rewrite <- (app_nil_r t) at 2. now rewrite drop_title_hit.
  - rewrite join_app, <- Et by (auto; discriminate).
    rewrite app_assoc, content_subs_pass.
    + rewrite <- app_assoc, drop_title_hit by auto.
      rewrite words_strip. now apply words_space.
    + apply no_open_app. split; [exact Hno | reflexivity].
Qed.

Lemma title_not_repeated_witness :
  clean_content
    (map L ["Of God, and of"; "the Holy Trinity"]%string
       ++ map L ["[6.011] 1. There is but one"; "only living God."]%string)
    (Some (join (L " ") (map L ["Of God, and of"; "the Holy Trinity"]%string)))
  = clean_content
      (map L ["[6.011] 1. There is but one"; "only living God."]%string) None.
Proof.
  apply (title_not_repeated
           (map L ["Of God, and of"; "the Holy Trinity"]%string)
           (map L ["[6.011] 1. There is but one"; "only living God."]%string)).
  - vm_compute. discriminate.
  - reflexivity.
  - reflexivity.
Defined.

(* ================================================================== *)
(** ** Cleaning only removes *)

Section Shrinking.

Lemma sub_from_skipn (r : regex) repl (s : str) :
  forall n, sub_from r repl n s = sub_from r repl 0 (skipn n s).
Proof.
  induction s as [|c s IH]; intros [|n]; try reflexivity.
  cbn [sub_from skipn]. apply IH.
Qed.

(** A substitution whose replacement is never longer than the match. *)
Lemma re_sub_shrinks (r : regex) repl :
  (forall s gs rest,
      match_at r s = Some (gs, rest) ->
      length (expand repl gs) + length rest <= length s
      /\ length rest < length s) ->
  forall s, length (re_sub r repl s) <= length s.
Proof.
  intros Hm s. unfold re_sub.
  remember (length s) as n eqn:En.
  assert (Hl : length s <= n) by lia. rewrite En. clear En.
  revert s Hl. induction n as [|n IH]; intros s Hl.
  - destruct s; [cbn; lia | cbn in Hl; lia].
  - destruct s as [|c s]; [cbn; lia|]. cbn [length] in Hl.
    cbn [sub_from]. destruct (match_at r (c :: s)) as [[gs rest]|] eqn:E.
    + apply Hm in E as [E1 E2]. cbn [length] in E1, E2.
      rewrite length_app, sub_from_skipn.
      pose proof (IH (skipn (S (length s) - length rest - 1) s)) as H.
      rewrite length_skipn in H. cbn [length].
      assert (H' : length
                     (sub_from r repl 0
                        (skipn (S (length s) - length rest - 1) s))
                   <= length s - (S (length s) - length rest - 1))
        by (apply H; lia).
      lia.
    + cbn [length]. specialize (IH s). lia.
Qed.

Lemma expand_group_length (n : nat) (gs : list str) :
  length (expand [TGroup n] gs) = length (nth (n - 1) gs []).
Proof.
  unfold expand. cbn [flat_map expand_item]. now rewrite app_nil_r.
Qed.

Lemma lone_shrinks (pre : str) (n : nat) (s : str) gs rest :
  match_at (lone_form pre) s = Some (gs, rest) ->
  length (expand [TGroup n] gs) + length rest <= length s
  /\ length rest < length s.
Proof.
  intros H. apply lone_match in H as (x & -> & _ & _ & ->).
  rewrite expand_group_length, !length_app. cbn [length].
  destruct (n - 1) as [|[|i]]; cbn [nth length]; lia.
Qed.

Lemma pair_shrinks (pre mid : str) (g1 g2 : bool) (n : nat) (s : str)
    gs rest :
  match_at (pair_form pre ("]"%char :: mid) g1 g2) s = Some (gs, rest) ->
  length (expand [TGroup n] gs) + length rest <= length s
  /\ length rest < length s.
Proof.
  intros H. apply pair_match in H as (x & y & -> & _ & _ & _ & _ & ->).
  rewrite expand_group_length, !length_app. cbn [length].
  rewrite !length_app. cbn [length].
  destruct g1, g2; cbn [caps app];
    destruct (n - 1) as [|[|[|i]]]; cbn [nth length]; lia.
Qed.

Lemma title_subs_length (t : str) : length (title_subs t) <= length t.
Proof.
  unfold title_subs. cbv zeta.
  pose proof (re_sub_shrinks title_pcus_upcusa_re [TGroup 2]
                (pair_shrinks (L "[PCUS ") (L " [UPCUSA ") true true 2)) as H1.
  pose proof (re_sub_shrinks title_upcusa_pcus_re [TGroup 1]
                (pair_shrinks (L "[UPCUSA ") (L " [PCUS ") true true 1)) as H2.
  pose proof (re_sub_shrinks pcus_re [TGroup 1]
                (lone_shrinks (L "[PCUS ") 1)) as H3.
  pose proof (re_sub_shrinks upcusa_re [TGroup 1]
                (lone_shrinks (L "[UPCUSA ") 1)) as H4.
  eapply Nat.le_trans; [apply H4|].
  eapply Nat.le_trans; [apply H3|].
  eapply Nat.le_trans; [apply H2|]. apply H1.
Qed.

Lemma content_subs_length (s : str) : length (content_subs s) <= length s.
Proof.
  unfold content_subs, content_variants, strip_refs. cbv zeta.
  assert (H0 : forall s, length (re_sub ref_re [] s) <= length s).
  { apply re_sub_shrinks. intros u gs rest H.
    apply (sub_patterns_consume ref_re) in H; [|cbn [In]; auto].
    cbn [expand flat_map length]. lia. }
  pose proof (re_sub_shrinks content_pcus_upcusa_re [TGroup 1]
                (pair_shrinks (L "[PCUS ") (L " [UPCUSA ") false true 1))
    as H1.
  pose proof (re_sub_shrinks content_upcusa_pcus_re [TGroup 1]
                (pair_shrinks (L "[UPCUSA ") (L " [PCUS ") true false 1))
    as H2.
  pose proof (re_sub_shrinks pcus_re [TGroup 1]
                (lone_shrinks (L "[PCUS ") 1)) as H3.
  pose proof (re_sub_shrinks upcusa_re [TGroup 1]
                (lone_shrinks (L "[UPCUSA ") 1)) as H4.
  eapply Nat.le_trans; [apply H4|].
  eapply Nat.le_trans; [apply H3|].
  eapply Nat.le_trans; [apply H2|].
  eapply Nat.le_trans; [apply H1|]. apply H0.
Qed.

Lemma strip_length (s : str) : length (strip s) <= length s.
Proof.
  unfold strip.
  destruct (lstrip_split s) as (a & Ea & _).
  destruct (rstrip_split (lstrip s)) as (b & Eb & _).
  apply (f_equal (@length ascii)) in Ea, Eb.
  rewrite length_app in Ea, Eb. lia.
Qed.

Lemma drop_title_length (t : option str) (x : str) :
  length (drop_title t x) <= length x.
Proof.
  unfold drop_title. destruct t as [[|c t]|]; auto. cbv zeta.
  destruct (startswith x (clean_title (c :: t))); auto.
  eapply Nat.le_trans; [apply strip_length|]. rewrite length_skipn. lia.
Qed.

Lemma squeeze_length (s : str) :
  length (re_sub spaces_re [TLit (L " ")] s) <= length s.
Proof.
  apply re_sub_shrinks. intros u gs rest H.
  apply (sub_patterns_consume spaces_re) in H; [|cbn [In]; auto 10].
  cbn [expand flat_map expand_item app length L list_ascii_of_string]. lia.
Qed.

End Shrinking.

(** X19: cleaning only removes.  The cleaned title is never longer than
    the raw title, and the cleaned content is never longer than the
    collected lines joined by single blanks. *)
Theorem cleaning_never_lengthens (t : str) (content_lines : list str)
    (title_ : option str) :
  length (clean_title t) <= length t
  /\ length (clean_content content_lines title_)
     <= length (join (L " ") content_lines).
Proof.
  split.
  - unfold clean_title.
    eapply Nat.le_trans; [apply strip_length | apply title_subs_length].
  - unfold clean_content. cbv zeta.
    eapply Nat.le_trans; [apply strip_length|].
    eapply Nat.le_trans; [apply squeeze_length|].
    eapply Nat.le_trans; [apply drop_title_length|].
    apply content_subs_length.
Qed.
